(** * dj-newswire: the feed aggregation pipeline

    A shallow embedding of the two build scripts of the repository,
    [scripts/build-feeds.mjs] (the plain aggregator) and the enriching
    aggregator (the second script, with article-page scraping), followed by
    the properties of the specification that were checked against them.

    Conventions.
    - A JavaScript string is the list of its UTF-16 code units ([jsstring]);
      [.length] is [length], [.slice(0, n)] is [firstn n].
    - A timestamp is an integer number of milliseconds ([Z]); [NaN] is [None].
    - What the scripts obtain from the JavaScript host or from the network
      (URL parsing, the date heuristics of [Date.parse], SHA-1, the feed
      parser, HTTP responses) is a field of the records [Host] and [World].
    - Regular expressions are values of [regex], run by a backtracking
      matcher that follows the ECMAScript matching rules for the constructs
      the scripts use. *)

From Stdlib Require Import String Ascii DecimalString.
From Stdlib Require Import List ZArith NArith Lia Bool Arith.
From Stdlib Require Import Permutation Sorted.
Import ListNotations.

Set Implicit Arguments.
Local Open Scope Z_scope.

(** [length] is the length of a list throughout. *)
Abbreviation length := Datatypes.length.

(* ================================================================= *)
(** ** JavaScript strings *)

Definition cu := N.
Bind Scope N_scope with cu.
Definition jsstring := list cu.

Definition u16 (s : String.string) : jsstring :=
  map N_of_ascii (String.list_ascii_of_string s).
Arguments u16 s%_string.

Fixpoint jsstring_eqb (a b : jsstring) : bool :=
  match a, b with
  | [], [] => true
  | x :: a', y :: b' => N.eqb x y && jsstring_eqb a' b'
  | _, _ => false
  end.

(** A string is truthy when it is not empty. *)
Definition nonempty (s : jsstring) : bool :=
  match s with
  | [] => false
  | _ :: _ => true
  end.

(** Truthiness of a possibly absent string: [undefined] and [""] are falsy. *)
Definition truthy (o : option jsstring) : bool :=
  match o with
  | Some (_ :: _) => true
  | _ => false
  end.

(** [a || b] on possibly absent strings. *)
Definition or_else (a b : option jsstring) : option jsstring :=
  if truthy a then a else b.

(** [x || ""]: the string, or the empty string when [x] is falsy. *)
Definition or_empty (a : option jsstring) : jsstring :=
  match a with
  | Some s => s
  | None => []
  end.

(** [\s] of regular expressions, which is also what [trim] removes:
    WhiteSpace and LineTerminator code units. *)
Definition is_space (c : cu) : bool :=
  ((9 <=? c) && (c <=? 13) || (c =? 32) || (c =? 160) || (c =? 5760)
   || ((8192 <=? c) && (c <=? 8202)) || (c =? 8232) || (c =? 8233)
   || (c =? 8239) || (c =? 8287) || (c =? 12288) || (c =? 65279))%N.

Fixpoint trimStart (s : jsstring) : jsstring :=
  match s with
  | c :: s' => if is_space c then trimStart s' else s
  | [] => []
  end.

Definition trim (s : jsstring) : jsstring :=
  rev (trimStart (rev (trimStart s))).

(** [s.slice(0, n)] for a non-negative [n]. *)
Definition slice0 (n : nat) (s : jsstring) : jsstring := firstn n s.

Fixpoint startsWith (p s : jsstring) : bool :=
  match p, s with
  | [], _ => true
  | x :: p', y :: s' => N.eqb x y && startsWith p' s'
  | _ :: _, [] => false
  end.

(** [s.includes(p)] *)
Fixpoint includes (p s : jsstring) : bool :=
  startsWith p s ||
  match s with
  | [] => false
  | _ :: s' => includes p s'
  end.

(** [toLowerCase]. ASCII letters are mapped exactly. Outside ASCII only the
    two code units whose lower case contains an ASCII letter are mapped
    (U+0130 and the Kelvin sign U+212A); every other non-ASCII code unit
    lowers to non-ASCII code units and is left as it is, which cannot change
    a comparison with, or a search for, an ASCII pattern: the only use the
    scripts make of [toLowerCase]. *)
Definition lower_cu (c : cu) : jsstring :=
  (if (65 <=? c) && (c <=? 90) then [c + 32]
   else if c =? 304 then [105; 775]
   else if c =? 8490 then [107]
   else [c])%N.

Definition toLowerCase (s : jsstring) : jsstring := flat_map lower_cu s.

(* ================================================================= *)
(** ** Regular expressions

    The constructs used by the scripts, with the ECMAScript backtracking
    semantics: a matcher takes the rest of the input, the capture of group 1
    and a continuation; alternatives are tried left to right; a quantifier
    is greedy or lazy and refuses an iteration that consumes nothing. *)

Inductive regex : Type :=
| Eps : regex
| Chr : cu -> regex
| Cls : (cu -> bool) -> regex
| Seq : regex -> regex -> regex
| Alt : regex -> regex -> regex
| Opt : regex -> regex
| Star : bool -> regex -> regex      (* [true]: greedy [r*]; [false]: lazy [r*?] *)
| Grp : regex -> regex.              (* the capture group *)

Definition Plus (greedy : bool) (r : regex) : regex := Seq r (Star greedy r).

(** The literal [s]. *)
Fixpoint Lit (s : jsstring) : regex :=
  match s with
  | [] => Eps
  | c :: s' => Seq (Chr c) (Lit s')
  end.

(** Canonicalize of the [i] flag. A pattern character of the scripts is
    ASCII, and a non-ASCII input unit never canonicalizes to an ASCII one,
    so only ASCII letters are folded. *)
Definition canon (ci : bool) (c : cu) : cu :=
  (if ci && (97 <=? c) && (c <=? 122) then c - 32 else c)%N.

Definition orelse {R} (a : option R) (b : option R) : option R :=
  match a with
  | Some x => Some x
  | None => b
  end.

Section Matcher.
Variable R : Type.
Variable ci : bool.

Definition cont := jsstring -> option jsstring -> option R.

Fixpoint rmatch (r : regex) (s : jsstring) (cap : option jsstring) (k : cont)
  {struct r} : option R :=
  match r with
  | Eps => k s cap
  | Chr c =>
      match s with
      | x :: s' => if N.eqb (canon ci x) (canon ci c) then k s' cap else None
      | [] => None
      end
  | Cls p =>
      match s with
      | x :: s' => if p x then k s' cap else None
      | [] => None
      end
  | Seq r1 r2 => rmatch r1 s cap (fun s' cap' => rmatch r2 s' cap' k)
  | Alt r1 r2 => orelse (rmatch r1 s cap k) (rmatch r2 s cap k)
  | Opt r1 => orelse (rmatch r1 s cap k) (k s cap)
  | Grp r1 =>
      rmatch r1 s cap
        (fun s' _ => k s' (Some (firstn (length s - length s') s)))
  | Star greedy r1 =>
      (fix loop (fuel : nat) (s : jsstring) (cap : option jsstring)
         {struct fuel} : option R :=
         let again :=
           rmatch r1 s cap
             (fun s' cap' =>
                if (length s' <? length s)%nat
                then match fuel with
                     | S fuel' => loop fuel' s' cap'
                     | O => None
                     end
                else None) in
         if greedy then orelse again (k s cap) else orelse (k s cap) again)
        (length s) s cap
  end.
End Matcher.

(** One attempt at the start of [s]: the rest of the input after the match
    and the capture. *)
Definition match_here (ci : bool) (r : regex) (s : jsstring)
  : option (jsstring * option jsstring) :=
  rmatch ci r s None (fun s' cap => Some (s', cap)).

(** [s.match(re)] without the [g] flag: the leftmost match; the value is the
    capture [m[1]] ([None] when the group did not take part). *)
Fixpoint re_search (ci : bool) (r : regex) (s : jsstring)
  : option (option jsstring) :=
  match match_here ci r s with
  | Some (_, cap) => Some cap
  | None =>
      match s with
      | [] => None
      | _ :: s' => re_search ci r s'
      end
  end.

(** [s.replace(re, repl)] with the [g] flag. *)
Fixpoint replace_all_fuel (fuel : nat) (ci : bool) (r : regex)
  (repl s : jsstring) : jsstring :=
  match fuel with
  | O => s
  | S fuel' =>
      match match_here ci r s with
      | Some (rest, _) =>
          if (length rest <? length s)%nat
          then repl ++ replace_all_fuel fuel' ci r repl rest
          else match s with
               | [] => repl
               | x :: s' => repl ++ x :: replace_all_fuel fuel' ci r repl s'
               end
      | None =>
          match s with
          | [] => []
          | x :: s' => x :: replace_all_fuel fuel' ci r repl s'
          end
      end
  end.

Definition replace_all (ci : bool) (r : regex) (repl s : jsstring) : jsstring :=
  replace_all_fuel (S (length s)) ci r repl s.

Definition any_cu : cu -> bool := fun _ => true.
Definition not_cu (c : cu) : cu -> bool := fun x => negb (N.eqb x c).
Definition quote_cu (x : cu) : bool := (N.eqb x 34 || N.eqb x 39).
Definition not_quote_cu (x : cu) : bool := negb (quote_cu x).

(* ================================================================= *)
(** ** HTML helpers shared by the two scripts *)

(** [/<script[\s\S]*?>[\s\S]*?<\/script>/gi] *)
Definition re_script : regex :=
  Seq (Lit (u16 "<script"))
    (Seq (Star false (Cls any_cu))
       (Seq (Chr 62)
          (Seq (Star false (Cls any_cu)) (Lit (u16 "</script>"))))).

(** [/<style[\s\S]*?>[\s\S]*?<\/style>/gi] *)
Definition re_style : regex :=
  Seq (Lit (u16 "<style"))
    (Seq (Star false (Cls any_cu))
       (Seq (Chr 62)
          (Seq (Star false (Cls any_cu)) (Lit (u16 "</style>"))))).

(** [/<\/?[^>]+>/g] *)
Definition re_tag : regex :=
  Seq (Chr 60) (Seq (Opt (Chr 47)) (Seq (Plus true (Cls (not_cu 62))) (Chr 62))).

(** [/\s+/g] *)
Definition re_spaces : regex := Plus true (Cls is_space).

Definition stripHtml (html : jsstring) : jsstring :=
  trim
    (replace_all false re_spaces (u16 " ")
       (replace_all false re_tag (u16 " ")
          (replace_all true re_style []
             (replace_all true re_script [] html)))).

(** [/<img[^>]+src=Q([^Q]+)Q/i], writing [Q] for the class of the two
    quote characters (code units 34 and 39). *)
Definition re_img : regex :=
  Seq (Lit (u16 "<img"))
    (Seq (Plus true (Cls (not_cu 62)))
       (Seq (Lit (u16 "src="))
          (Seq (Cls quote_cu)
             (Seq (Grp (Plus true (Cls not_quote_cu))) (Cls quote_cu))))).

(** [m?.[1] || ""] *)
Definition capture1 (m : option (option jsstring)) : jsstring :=
  match m with
  | Some (Some c) => c
  | _ => []
  end.

Definition firstImageFromHtml (html : jsstring) : jsstring :=
  capture1 (re_search true re_img html).

(* ================================================================= *)
(** ** Dates

    [Date.parse] first tries the Date Time String Format of ECMAScript and
    only then the host's own heuristics. The model fixes the value of the
    UTC date-time forms [YYYY-MM-DDTHH:mm:ssZ] and [YYYY-MM-DDTHH:mm:ss.sssZ]
    with every field in range, by the standard's day arithmetic; the empty
    string is not a date ([NaN]) in every engine; every other string is left
    to the host ([heuristic]). *)

Definition digit (c : cu) : option Z :=
  if ((48 <=? c) && (c <=? 57))%N then Some (Z.of_N c - 48) else None.

(** Exactly [n] decimal digits. *)
Fixpoint digits (n : nat) (acc : Z) (s : jsstring) : option (Z * jsstring) :=
  match n with
  | O => Some (acc, s)
  | S n' =>
      match s with
      | c :: s' =>
          match digit c with
          | Some d => digits n' (10 * acc + d) s'
          | None => None
          end
      | [] => None
      end
  end.

Definition expect (c : cu) (s : jsstring) : option jsstring :=
  match s with
  | x :: s' => if N.eqb x c then Some s' else None
  | [] => None
  end.

Definition InLeapYear (y : Z) : bool :=
  ((y mod 4 =? 0) && negb (y mod 100 =? 0)) || (y mod 400 =? 0).

(** DayFromYear of the standard: the day number of 1 January of year [y]. *)
Definition DayFromYear (y : Z) : Z :=
  365 * (y - 1970) + (y - 1969) / 4 - (y - 1901) / 100 + (y - 1601) / 400.

Definition DaysInMonth (y m : Z) : Z :=
  if m =? 2 then (if InLeapYear y then 29 else 28)
  else if (m =? 4) || (m =? 6) || (m =? 9) || (m =? 11) then 30
  else 31.

(** Days of year [y] before month [m] (1 to 12). *)
Fixpoint days_before (y : Z) (m : nat) : Z :=
  match m with
  | O => 0
  | S m' =>
      match m' with
      | O => 0
      | S _ => days_before y m' + DaysInMonth y (Z.of_nat m')
      end
  end.

Definition MakeDay (y m d : Z) : Z :=
  DayFromYear y + days_before y (Z.to_nat m) + (d - 1).

Definition MakeTime (hh mm ss ms : Z) : Z :=
  hh * 3600000 + mm * 60000 + ss * 1000 + ms.

Definition MakeDate (day time : Z) : Z := day * 86400000 + time.

Definition in_range (lo x hi : Z) : bool := (lo <=? x) && (x <=? hi).

Definition bind {A B} (o : option A) (f : A -> option B) : option B :=
  match o with
  | Some x => f x
  | None => None
  end.

Notation "x <- c ;; k" := (bind c (fun x => k))
  (at level 61, c at next level, right associativity).

(** The milliseconds and the closing [Z]: [Z] or [.sssZ], then the end. *)
Definition parse_zone (s : jsstring) : option Z :=
  match expect 90 s with
  | Some [] => Some 0
  | Some (_ :: _) => None
  | None =>
      s1 <- expect 46 s ;;
      ms <- digits 3 0 s1 ;;
      match expect 90 (snd ms) with
      | Some [] => Some (fst ms)
      | _ => None
      end
  end.

Definition parse_iso_utc (s : jsstring) : option Z :=
  y <- digits 4 0 s ;;
  s1 <- expect 45 (snd y) ;;
  m <- digits 2 0 s1 ;;
  s2 <- expect 45 (snd m) ;;
  d <- digits 2 0 s2 ;;
  s3 <- expect 84 (snd d) ;;
  hh <- digits 2 0 s3 ;;
  s4 <- expect 58 (snd hh) ;;
  mm <- digits 2 0 s4 ;;
  s5 <- expect 58 (snd mm) ;;
  ss <- digits 2 0 s5 ;;
  ms <- parse_zone (snd ss) ;;
  if in_range 1 (fst m) 12 && in_range 1 (fst d) (DaysInMonth (fst y) (fst m))
     && in_range 0 (fst hh) 23 && in_range 0 (fst mm) 59
     && in_range 0 (fst ss) 59
  then Some (MakeDate (MakeDay (fst y) (fst m) (fst d))
               (MakeTime (fst hh) (fst mm) (fst ss) ms))
  else None.

Definition Date_parse (heuristic : jsstring -> option Z) (s : jsstring)
  : option Z :=
  match s with
  | [] => None
  | _ :: _ =>
      match parse_iso_utc s with
      | Some t => Some t
      | None => heuristic s
      end
  end.

(** [toTimestamp(dateStr)]: [Date.parse(dateStr || "")], and [0] when the
    result is not finite. *)
Definition toTimestamp (heuristic : jsstring -> option Z)
  (dateStr : option jsstring) : Z :=
  match Date_parse heuristic (or_empty (or_else dateStr (Some []))) with
  | Some t => t
  | None => 0
  end.

(* ================================================================= *)
(** ** Data model *)

(** A thrown value: its [message] and what [String(e)] gives. *)
Record exn : Type := Exn { message : jsstring; shown : jsstring }.

(** [new Error(msg)] *)
Definition Error (msg : jsstring) : exn :=
  Exn msg (match msg with
           | [] => u16 "Error"
           | _ :: _ => u16 "Error: " ++ msg
           end).

(** The outcome of a call that may throw, or of a promise once settled. *)
Inductive result (A : Type) : Type :=
| Ok : A -> result A
| Throw : exn -> result A.
Arguments Ok {A} _.
Arguments Throw {A} _.

(** [media:content] and [media:thumbnail] as the feed parser delivers them:
    the [url] attribute under [$], and a [url] property of type string. *)
Record Media : Type := {
  attr_url : option jsstring;
  direct_url : option jsstring
}.

(** A [categories] or [category] field: absent, one string, or an array
    (an element is [None] when it is [undefined] or [null]). *)
Inductive CatField : Type :=
| CatAbsent : CatField
| CatOne : jsstring -> CatField
| CatMany : list (option jsstring) -> CatField.

(** RawFeedItem: what the feed parser produces for one entry. An absent
    field is [None]. [enclosure] is the [url] of the enclosure. *)
Record RawItem : Type := {
  raw_link : option jsstring;
  raw_guid : option jsstring;
  raw_title : option jsstring;
  isoDate : option jsstring;
  pubDate : option jsstring;
  raw_published : option jsstring;
  mediaContent : option Media;
  mediaThumbnail : option Media;
  enclosure : option jsstring;
  contentEncoded : option jsstring;
  content_encoded : option jsstring;
  content : option jsstring;
  summary : option jsstring;
  raw_categories : CatField;
  raw_category : CatField
}.

(** An element of [parsed.items]: an item object, or a value whose [link]
    cannot be read ([null] or [undefined], on which the read throws a
    TypeError, held here as [e]). *)
Inductive Entry : Type :=
| Obj (it : RawItem)
| Throws (e : exn).

(** [parsed.items || []] *)
Definition entries (parsed : option (list Entry)) : list Entry :=
  match parsed with
  | Some l => l
  | None => []
  end.

(** The elements the loop over [parsed.items] gets to: those before the
    first one whose [link] cannot be read. *)
Fixpoint reached (l : list Entry) : list RawItem :=
  match l with
  | Obj it :: l' => it :: reached l'
  | _ => []
  end.

(** The exception that ends the loop, if any. *)
Fixpoint thrown (l : list Entry) : option exn :=
  match l with
  | [] => None
  | Obj _ :: l' => thrown l'
  | Throws e :: _ => Some e
  end.

Record FeedSource : Type := {
  feed_id : jsstring;
  feed_name : jsstring;
  feed_url : jsstring
}.

Record NewsItem : Type := {
  id : jsstring;
  title : jsstring;
  link : jsstring;
  published : jsstring;
  publishedTs : Z;
  sourceId : jsstring;
  sourceName : jsstring;
  categories : list jsstring;
  image : jsstring;
  excerpt : jsstring
}.

Record IngestError : Type := {
  err_sourceId : jsstring;
  err_sourceName : jsstring;
  err_url : jsstring;
  error : jsstring
}.

Record Payload : Type := {
  generatedAt : jsstring;
  total : nat;
  sources : list FeedSource;
  errors : list IngestError;
  items : list NewsItem
}.

(** What the scripts take from the JavaScript host and its libraries. *)
Record Host : Type := {
  (** [new URL(u).toString()]; [None] when the constructor throws *)
  URL_parse : jsstring -> option jsstring;
  (** [new URL(u, base).toString()] *)
  URL_resolve : jsstring -> jsstring -> option jsstring;
  (** the implementation-defined part of [Date.parse] *)
  Date_heuristic : jsstring -> option Z;
  (** [crypto.createHash("sha1").update(x).digest("hex")] *)
  sha1 : jsstring -> jsstring;
  (** [parser.parseString(xml)]: it throws, or gives a feed whose [items]
      may be absent *)
  parseString : jsstring -> result (option (list Entry))
}.

(** An HTTP response. [res.ok] is a status from 200 to 299; [body] is what
    [res.text()] settles to. *)
Record Response : Type := {
  status : Z;
  statusText : jsstring;
  body : result jsstring
}.

Definition ok (r : Response) : bool := in_range 200 (status r) 299.

(** What [fetch] settles to: a rejection (network failure, or the abort of
    a request that ran into its timeout) or a response. *)
Inductive Fetched : Type :=
| Rejects : exn -> Fetched
| Responds : Response -> Fetched.

(** What the scripts pass to [fetch]: the URL and the init object, that is
    [redirect], the headers and, for a page, the delay after which the
    signal of the request is aborted. *)
Record Request : Type := {
  req_url : jsstring;
  req_redirect : jsstring;
  req_headers : list (jsstring * jsstring);
  req_abort_after : option Z
}.

(** The outside world of one run: the answer to each request, and the
    clock read for [generatedAt]. *)
Record World : Type := {
  http_get : Request -> Fetched;
  now_iso : jsstring
}.

(** Requests issued, then the value. *)
Definition Net (A : Type) : Type := (list jsstring * A)%type.

Definition net_ret {A} (a : A) : Net A := ([], a).

Definition fetch (w : World) (req : Request) : Net Fetched :=
  ([req_url req], http_get w req).

Definition net_bind {A B} (m : Net A) (f : A -> Net B) : Net B :=
  (fst m ++ fst (f (snd m)), snd (f (snd m))).

(** The decimal digits of a status code. *)
(** The decimal digits of a status code. *)
Definition show_Z (z : Z) : jsstring :=
  u16 (DecimalString.NilZero.string_of_int (Z.to_int z)).

(** [x || ""] for a possibly absent string, and [a || b] on strings. *)
Definition str_or_empty (o : option jsstring) : jsstring :=
  or_empty (or_else o (Some [])).

Definition str_or (a b : jsstring) : jsstring := if nonempty a then a else b.

(* ================================================================= *)
(** ** Field extractors shared by the two scripts *)

Definition cat_truthy (c : CatField) : bool :=
  match c with
  | CatAbsent => false
  | CatOne s => nonempty s
  | CatMany _ => true
  end.

(** [Array.isArray(raw) ? raw : [raw]] on
    [item?.categories || item?.category || []] *)
Definition cat_array (c : CatField) : list (option jsstring) :=
  match c with
  | CatAbsent => []
  | CatOne s => [Some s]
  | CatMany l => l
  end.

Definition pickCategories (item : RawItem) : list jsstring :=
  let raw :=
    if cat_truthy (raw_categories item) then raw_categories item
    else if cat_truthy (raw_category item) then raw_category item
    else CatMany [] in
  firstn 12
    (filter nonempty (map (fun c => trim (str_or_empty c)) (cat_array raw))).

(** [item?.contentEncoded || item?.["content:encoded"] || item?.content ||
    item?.summary || ""] *)
Definition item_html (item : RawItem) : jsstring :=
  or_empty
    (or_else (contentEncoded item)
       (or_else (content_encoded item)
          (or_else (content item) (or_else (summary item) (Some []))))).

(** The horizontal ellipsis, U+2026: one code unit. *)
Definition ellipsis : jsstring := [8230%N].

Definition pickExcerpt (item : RawItem) : jsstring :=
  let text := stripHtml (item_html item) in
  if negb (nonempty text) then []
  else if (240 <? length text)%nat then slice0 237 text ++ ellipsis
  else text.

(** [pickImage], over the script's own [normalizeUrl]. *)
Definition pickImage (normalizeUrl : jsstring -> jsstring) (item : RawItem)
  : jsstring :=
  let dollar (m : option Media) := bind m attr_url in
  let direct (m : option Media) := bind m direct_url in
  if truthy (dollar (mediaContent item))
  then normalizeUrl (or_empty (dollar (mediaContent item)))
  else match direct (mediaContent item) with
  | Some u => normalizeUrl u
  | None =>
  if truthy (dollar (mediaThumbnail item))
  then normalizeUrl (or_empty (dollar (mediaThumbnail item)))
  else match direct (mediaThumbnail item) with
  | Some u => normalizeUrl u
  | None =>
  if truthy (enclosure item) then normalizeUrl (or_empty (enclosure item))
  else
    let img := firstImageFromHtml (item_html item) in
    if nonempty img then normalizeUrl img else []
  end end.

Definition user_agent : jsstring :=
  u16 "Mozilla/5.0 (compatible; AlbashNewswireBot/1.0; +https://albash.es)".

(** The request of [fetchXml]: no signal. *)
Definition xml_request (url : jsstring) : Request :=
  {| req_url := url;
     req_redirect := u16 "follow";
     req_headers :=
       [ (u16 "User-Agent", user_agent);
         (u16 "Accept",
          u16 "application/rss+xml, application/atom+xml, application/xml, text/xml;q=0.9, */*;q=0.8");
         (u16 "Accept-Language", u16 "en-US,en;q=0.9") ];
     req_abort_after := None |}.

(** [fetchXml(url)] *)
Definition fetchXml (w : World) (url : jsstring) : Net (result jsstring) :=
  net_bind (fetch w (xml_request url)) (fun res =>
    match res with
    | Rejects e => net_ret (Throw e)
    | Responds res =>
        if negb (ok res) then
          let body := match body res with
                      | Ok t => t
                      | Throw _ => []
                      end in
          net_ret (Throw (Error
            (u16 "Fetch failed " ++ show_Z (status res) ++ u16 " "
             ++ statusText res ++ u16 " for " ++ url
             ++ (if nonempty body then u16 ": " ++ slice0 160 body else []))))
        else net_ret (body res)
    end).

Definition parseFeedFromUrl (h : Host) (w : World) (url : jsstring)
  : Net (result (option (list Entry))) :=
  net_bind (fetchXml w url) (fun xml =>
    match xml with
    | Ok xml => net_ret (parseString h xml)
    | Throw e => net_ret (Throw e)
    end).

(** [String(e?.message || e)] *)
Definition error_text (e : exn) : jsstring :=
  if nonempty (message e) then message e else shown e.

(* ================================================================= *)
(** ** Arrays and maps of the host *)

(** [Array.prototype.sort(cmp)]. The sort of ECMAScript is stable, and with
    a comparator that is a consistent ordering every stable sort returns
    the same array; it is computed here by inserting from the right, an
    element going in front of the first one it does not have to follow. *)
Section ArraySort.
Variable T : Type.
Variable cmp : T -> T -> Z.

Fixpoint insert (x : T) (l : list T) : list T :=
  match l with
  | [] => [x]
  | y :: l' => if cmp x y <=? 0 then x :: l else y :: insert x l'
  end.

Definition Array_sort (l : list T) : list T := fold_right insert [] l.
End ArraySort.

(** A [Map] with string keys: the entries in insertion order. *)
Section JsMap.
Variable V : Type.

Definition Map := list (jsstring * V).

Definition Map_has (m : Map) (k : jsstring) : bool :=
  existsb (fun e => jsstring_eqb (fst e) k) m.

Fixpoint Map_set (m : Map) (k : jsstring) (v : V) : Map :=
  match m with
  | [] => [(k, v)]
  | e :: m' =>
      if jsstring_eqb (fst e) k then (k, v) :: m' else e :: Map_set m' k v
  end.

Definition Map_values (m : Map) : list V := map snd m.
End JsMap.

(** [x || 0] on a timestamp. *)
Definition or0 (z : Z) : Z := if z =? 0 then 0 else z.

(** The comparator of both scripts:
    [(a, b) => (b.publishedTs || 0) - (a.publishedTs || 0)]. *)
Definition by_recency (a b : NewsItem) : Z :=
  or0 (publishedTs b) - or0 (publishedTs a).

(** The [Dedupe by link] loop, and [Array.from(byLink.values())]. *)
Definition byLink (items : list NewsItem) : Map NewsItem :=
  fold_left
    (fun m it => if negb (Map_has m (link it)) then Map_set m (link it) it else m)
    items [].

Definition dedupe (items : list NewsItem) : list NewsItem :=
  Map_values (byLink items).

(** The ingestion loop of [main], which the two scripts share up to the
    construction of one item ([mk], [None] for [continue]): one [try] per
    feed around the fetch, the parse and the loop over the parsed items. *)
Section Ingest.
Variable h : Host.
Variable w : World.
Variable mk : FeedSource -> RawItem -> option NewsItem.

(** The items the loop over [parsed.items] pushes: one for each element it
    gets to, unless the body says [continue]. *)
Definition feed_items (feed : FeedSource) (parsed : option (list Entry))
  : list NewsItem :=
  flat_map
    (fun it => match mk feed it with
               | Some x => [x]
               | None => []
               end)
    (reached (entries parsed)).

Definition ingest_error (feed : FeedSource) (e : exn) : IngestError :=
  {| err_sourceId := feed_id feed;
     err_sourceName := feed_name feed;
     err_url := feed_url feed;
     error := error_text e |}.

Definition ingest_feed (acc : list NewsItem * list IngestError)
  (feed : FeedSource) : list NewsItem * list IngestError :=
  match snd (parseFeedFromUrl h w (feed_url feed)) with
  | Ok parsed =>
      (fst acc ++ feed_items feed parsed,
       snd acc ++ match thrown (entries parsed) with
                  | Some e => [ingest_error feed e]
                  | None => []
                  end)
  | Throw e => (fst acc, snd acc ++ [ingest_error feed e])
  end.

Definition ingest (feeds : list FeedSource)
  : list NewsItem * list IngestError :=
  fold_left ingest_feed feeds ([], []).
End Ingest.

(* ================================================================= *)
(** ** The promise pool [asyncPool(limit, arr, fn)]

    The event loop runs one job at a time, so the pool is a transition
    system whose steps are the jobs that touch it. [ret] holds the promises
    [p] in the order of [arr], each by the state of its task; [executing]
    holds the promises [e], each named by the position of its task in
    [ret]; [pc] is where the body of [asyncPool] stands. *)
Section Pool.
Variables A B : Type.
Variable limit : nat.
Variable arr : list A.
Variable fn : A -> result B.

Inductive task : Type :=
| Scheduled (a : A)          (* [p] created, [fn(item)] not called yet *)
| Running (a : A)            (* [fn(item)] called and not settled: in flight *)
| Settled (r : result B)     (* [p] settled, the reaction [e] not run yet *)
| Finished (r : result B).   (* [e] settled as well *)

Inductive loop : Type :=
| Iter (i : nat)                      (* about to take [arr[i]] *)
| Awaiting (i : nat) (snap : list nat)  (* in [await Promise.race(snap)] *)
| Returned                            (* [return Promise.all(ret)] done *)
| Threw (e : exn).                    (* rejected: an [await] threw *)

Record pool : Type := {
  ret : list task;
  executing : list nat;
  pc : loop
}.

Definition init : pool := {| ret := []; executing := []; pc := Iter 0 |}.

(** [limit <= arr.length] *)
Definition tracked : bool := (limit <=? length arr)%nat.

(** [l.indexOf(k)] *)
Fixpoint indexOf (k : nat) (l : list nat) : Z :=
  match l with
  | [] => -1
  | x :: l' =>
      if Nat.eqb x k then 0
      else let i := indexOf k l' in if i <? 0 then -1 else i + 1
  end.

Definition remove_at (n : nat) (l : list nat) : list nat :=
  firstn n l ++ skipn (S n) l.

(** [l.splice(i, 1)]: what is left of [l]; a negative [i] counts from the
    end. *)
Definition splice1 (i : Z) (l : list nat) : list nat :=
  let len := Z.of_nat (length l) in
  let start := if i <? 0 then Z.max (len + i) 0 else Z.min i len in
  remove_at (Z.to_nat start) l.

Fixpoint set_nth (k : nat) (t : task) (l : list task) : list task :=
  match l, k with
  | [], _ => []
  | _ :: l', O => t :: l'
  | x :: l', S k' => x :: set_nth k' t l'
  end.

Definition set_task (s : pool) (k : nat) (t : task) : pool :=
  {| ret := set_nth k t (ret s); executing := executing s; pc := pc s |}.

Definition set_pc (s : pool) (c : loop) : pool :=
  {| ret := ret s; executing := executing s; pc := c |}.

(** One turn of the [for] loop on [item], up to its [await] or to the
    next turn. *)
Definition launch (s : pool) (i : nat) (item : A) : pool :=
  let ret' := ret s ++ [Scheduled item] in
  if tracked then
    let executing' := executing s ++ [length (ret s)] in
    {| ret := ret';
       executing := executing';
       pc := if (limit <=? length executing')%nat
             then Awaiting (S i) executing'
             else Iter (S i) |}
  else {| ret := ret'; executing := executing s; pc := Iter (S i) |}.

(** The reaction [() => executing.splice(executing.indexOf(e), 1)] of the
    task at [k]. *)
Definition detach (s : pool) (k : nat) (v : B) : pool :=
  {| ret := set_nth k (Finished (Ok v)) (ret s);
     executing := splice1 (indexOf k (executing s)) (executing s);
     pc := pc s |}.

Definition task_result (t : task) : option (result B) :=
  match t with
  | Settled r | Finished r => Some r
  | Scheduled _ | Running _ => None
  end.

(** The jobs. [step_launch] and [step_return] are the synchronous code of
    the loop; [step_start] is the reaction that calls [fn(item)];
    [step_settle] is whatever makes the call settle (a response, a timeout),
    at a time the environment chooses; [step_detach] and [step_e_rejects]
    settle [e] once [p] is settled, the first by running the [splice];
    [step_wake] and [step_race_rejects] resume the loop once a promise of
    the race has settled; [step_all_rejects] is [Promise.all] rejecting.
    Every interleaving of these is allowed, which covers every order in
    which the event loop can run them. *)
Inductive step : pool -> pool -> Prop :=
| step_launch s i item :
    pc s = Iter i -> nth_error arr i = Some item ->
    step s (launch s i item)
| step_return s i :
    pc s = Iter i -> nth_error arr i = None ->
    step s (set_pc s Returned)
| step_start s k a :
    nth_error (ret s) k = Some (Scheduled a) ->
    step s (set_task s k (Running a))
| step_settle s k a :
    nth_error (ret s) k = Some (Running a) ->
    step s (set_task s k (Settled (fn a)))
| step_detach s k v :
    tracked = true -> nth_error (ret s) k = Some (Settled (Ok v)) ->
    step s (detach s k v)
| step_e_rejects s k e :
    tracked = true -> nth_error (ret s) k = Some (Settled (Throw e)) ->
    step s (set_task s k (Finished (Throw e)))
| step_wake s i snap k v :
    pc s = Awaiting i snap -> In k snap ->
    nth_error (ret s) k = Some (Finished (Ok v)) ->
    step s (set_pc s (Iter i))
| step_race_rejects s i snap k e :
    pc s = Awaiting i snap -> In k snap ->
    nth_error (ret s) k = Some (Finished (Throw e)) ->
    step s (set_pc s (Threw e))
| step_all_rejects s k t e :
    pc s = Returned -> nth_error (ret s) k = Some t ->
    task_result t = Some (Throw e) ->
    step s (set_pc s (Threw e)).

Inductive reachable : pool -> Prop :=
| reach_init : reachable init
| reach_step s s' : reachable s -> step s s' -> reachable s'.

Inductive steps : pool -> pool -> Prop :=
| steps_refl s : steps s s
| steps_more s s' s'' : step s s' -> steps s' s'' -> steps s s''.

(** The tasks in flight. *)
Definition is_running (t : task) : bool :=
  match t with
  | Running _ => true
  | _ => false
  end.

Definition in_flight (s : pool) : nat := length (filter is_running (ret s)).

(** [Promise.all(ret)] once every promise is fulfilled. *)
Fixpoint all_values (l : list task) : option (list B) :=
  match l with
  | [] => Some []
  | t :: l' =>
      match task_result t, all_values l' with
      | Some (Ok v), Some vs => Some (v :: vs)
      | _, _ => None
      end
  end.

(** What the promise of [asyncPool] has settled to, if it has. *)
Definition pool_result (s : pool) : option (result (list B)) :=
  match pc s with
  | Threw e => Some (Throw e)
  | Returned => option_map Ok (all_values (ret s))
  | Iter _ | Awaiting _ _ => None
  end.

(** *** One schedule, to run the pool

    Synchronous code first, then the reactions in the order of the
    tasks, and a network completion only when nothing else is ready. *)
Fixpoint find_task (p : task -> bool) (l : list task) (k : nat)
  : option (nat * task) :=
  match l with
  | [] => None
  | t :: l' => if p t then Some (k, t) else find_task p l' (S k)
  end.

Definition is_scheduled (t : task) : bool :=
  match t with
  | Scheduled _ => true
  | _ => false
  end.

Definition is_settled (t : task) : bool :=
  match t with
  | Settled _ => true
  | _ => false
  end.

Definition is_rejected (t : task) : bool :=
  match task_result t with
  | Some (Throw _) => true
  | _ => false
  end.

Definition is_finished_at (l : list task) (k : nat) : bool :=
  match nth_error l k with
  | Some (Finished _) => true
  | _ => false
  end.

Definition next_reaction (s : pool) : option pool :=
  match find_task is_scheduled (ret s) 0 with
  | Some (k, Scheduled a) => Some (set_task s k (Running a))
  | Some _ => None
  | None =>
      match (if tracked then find_task is_settled (ret s) 0 else None) with
      | Some (k, Settled (Ok v)) => Some (detach s k v)
      | Some (k, Settled (Throw e)) => Some (set_task s k (Finished (Throw e)))
      | Some _ => None
      | None => None
      end
  end.

Definition next_wake (s : pool) : option pool :=
  match pc s with
  | Awaiting i snap =>
      match find (is_finished_at (ret s)) snap with
      | Some k =>
          match nth_error (ret s) k with
          | Some (Finished (Ok _)) => Some (set_pc s (Iter i))
          | Some (Finished (Throw e)) => Some (set_pc s (Threw e))
          | _ => None
          end
      | None => None
      end
  | Returned =>
      match find_task is_rejected (ret s) 0 with
      | Some (_, Settled (Throw e)) | Some (_, Finished (Throw e)) =>
          Some (set_pc s (Threw e))
      | _ => None
      end
  | _ => None
  end.

Definition next_completion (s : pool) : option pool :=
  match find_task is_running (ret s) 0 with
  | Some (k, Running a) => Some (set_task s k (Settled (fn a)))
  | _ => None
  end.

Definition next (s : pool) : option pool :=
  match pc s with
  | Iter i =>
      match nth_error arr i with
      | Some item => Some (launch s i item)
      | None => Some (set_pc s Returned)
      end
  | _ =>
      orelse (next_reaction s) (orelse (next_wake s) (next_completion s))
  end.

Fixpoint run (fuel : nat) (s : pool) : pool :=
  match fuel with
  | O => s
  | S fuel' =>
      match next s with
      | Some s' => run fuel' s'
      | None => s
      end
  end.

(** The promise returned by [asyncPool(limit, arr, fn)], with every task
    allowed to complete: [None] if it were still pending. *)
Definition asyncPool : option (result (list B)) :=
  pool_result (run (6 * length arr + 3) init).
End Pool.

Arguments Scheduled {A B} a.
Arguments Running {A B} a.
Arguments Settled {A B} r.
Arguments Finished {A B} r.

(* ================================================================= *)
(** ** [scripts/build-feeds.mjs]: the plain aggregator *)
Module BuildFeeds.

Definition MAX_ITEMS : nat := 200.

Definition normalizeUrl (h : Host) (u : jsstring) : jsstring :=
  match URL_parse h u with
  | Some s => s
  | None => trim u
  end.

(** The body of the loop over the parsed items; [None] is [continue]. *)
Definition make_item (h : Host) (feed : FeedSource) (it : RawItem)
  : option NewsItem :=
  let link :=
    normalizeUrl h
      (or_empty (or_else (raw_link it) (or_else (raw_guid it) (Some [])))) in
  if negb (nonempty link) then None
  else
    let title := trim (str_or_empty (raw_title it)) in
    let published :=
      or_empty
        (or_else (isoDate it)
           (or_else (pubDate it) (or_else (raw_published it) (Some [])))) in
    let publishedTs := toTimestamp (Date_heuristic h) (Some published) in
    let categories := pickCategories it in
    let image := pickImage (normalizeUrl h) it in
    let excerpt := pickExcerpt it in
    Some {| id := sha1 h (feed_id feed ++ u16 "|" ++ link);
            title := title;
            link := link;
            published := published;
            publishedTs := publishedTs;
            sourceId := feed_id feed;
            sourceName := feed_name feed;
            categories := categories;
            image := image;
            excerpt := excerpt |}.

(** [main], from the parsed [feeds.json] to the payload it writes. *)
Definition main (h : Host) (w : World) (feeds : list FeedSource) : Payload :=
  let collected := ingest h w (make_item h) feeds in
  let merged :=
    firstn MAX_ITEMS (Array_sort by_recency (dedupe (fst collected))) in
  {| generatedAt := now_iso w;
     total := length merged;
     sources := feeds;
     errors := snd collected;
     items := merged |}.

End BuildFeeds.

(* ================================================================= *)
(** ** The enriching aggregator (the second build script) *)
Module Enrich.

(** The limits of the script. [FETCH_TIMEOUT] is the delay after which a
    page request is aborted; what an aborted request settles to is for the
    world to say ([http_get]). *)
Record Config : Type := {
  MAX_ITEMS : nat;
  ENRICH_LIMIT : nat;
  ENRICH_CONCURRENCY : nat;
  FETCH_TIMEOUT : Z
}.

Definition config : Config :=
  {| MAX_ITEMS := 200;
     ENRICH_LIMIT := 120;
     ENRICH_CONCURRENCY := 4;
     FETCH_TIMEOUT := 9000 |}.

(** [/&amp;/g], [/&#038;/g] and [/&#x26;/gi], each replaced by [&]. *)
Definition decodeUrlEntities (u : jsstring) : jsstring :=
  replace_all true (Lit (u16 "&#x26;")) (u16 "&")
    (replace_all false (Lit (u16 "&#038;")) (u16 "&")
       (replace_all false (Lit (u16 "&amp;")) (u16 "&") u)).

Definition normalizeUrl (h : Host) (u : jsstring) : jsstring :=
  let cleaned := decodeUrlEntities (trim u) in
  match URL_parse h cleaned with
  | Some s => s
  | None => cleaned
  end.

Definition isJunkImage (url : jsstring) : bool :=
  includes (u16 "s.w.org/images/core/emoji") (toLowerCase url).

(** The request of [fetchText]: its signal is aborted [FETCH_TIMEOUT]
    milliseconds after the call, unless the body has been read by then. *)
Definition text_request (url : jsstring) : Request :=
  {| req_url := url;
     req_redirect := u16 "follow";
     req_headers :=
       [ (u16 "User-Agent", user_agent);
         (u16 "Accept",
          u16 "text/html,application/xhtml+xml,application/xml;q=0.9,*/*;q=0.8");
         (u16 "Accept-Language", u16 "en-US,en;q=0.9") ];
     req_abort_after := Some (FETCH_TIMEOUT config) |}.

(** [fetchText(url)]: an abort shows as a rejection of [fetch] or of the
    read of the body. *)
Definition fetchText (w : World) (url : jsstring) : Net (result jsstring) :=
  net_bind (fetch w (text_request url)) (fun res =>
    match res with
    | Rejects e => net_ret (Throw e)
    | Responds res =>
        if negb (ok res) then
          net_ret (Throw (Error
            (u16 "Fetch failed " ++ show_Z (status res) ++ u16 " "
             ++ statusText res)))
        else net_ret (body res)
    end).

(** [<meta[^>]+(?:property|name)=QkeyQ[^>]+content=Q([^Q]+)Q[^>]*>] with
    the [i] flag, [Q] being the class of the two quote characters. The
    keys the script passes hold no character that is special in a regular
    expression, so [key] stands for itself. *)
Definition re_meta (key : jsstring) : regex :=
  Seq (Lit (u16 "<meta"))
    (Seq (Plus true (Cls (not_cu 62)))
       (Seq (Alt (Lit (u16 "property")) (Lit (u16 "name")))
          (Seq (Chr 61)
             (Seq (Cls quote_cu)
                (Seq (Lit key)
                   (Seq (Cls quote_cu)
                      (Seq (Plus true (Cls (not_cu 62)))
                         (Seq (Lit (u16 "content="))
                            (Seq (Cls quote_cu)
                               (Seq (Grp (Plus true (Cls not_quote_cu)))
                                  (Seq (Cls quote_cu)
                                     (Seq (Star true (Cls (not_cu 62)))
                                        (Chr 62))))))))))))).

Definition extractMeta (html key : jsstring) : jsstring :=
  capture1 (re_search true (re_meta key) html).

Definition absolutizeMaybe (h : Host) (relativeOrAbs pageUrl : jsstring)
  : jsstring :=
  let u := normalizeUrl h relativeOrAbs in
  if negb (nonempty u) then []
  else match URL_resolve h u pageUrl with
       | Some s => s
       | None => u
       end.

Definition set_image (item : NewsItem) (img : jsstring) : NewsItem :=
  {| id := id item; title := title item; link := link item;
     published := published item; publishedTs := publishedTs item;
     sourceId := sourceId item; sourceName := sourceName item;
     categories := categories item; image := img;
     excerpt := excerpt item |}.

Definition set_published (item : NewsItem) (ptime : jsstring) (ts : Z)
  : NewsItem :=
  {| id := id item; title := title item; link := link item;
     published := ptime; publishedTs := ts;
     sourceId := sourceId item; sourceName := sourceName item;
     categories := categories item; image := image item;
     excerpt := excerpt item |}.

(** The image part and the date part of [enrichOne], on the page read. *)
Definition enrich_image (h : Host) (html : jsstring) (item : NewsItem)
  : NewsItem :=
  let og :=
    str_or (extractMeta html (u16 "og:image"))
      (str_or (extractMeta html (u16 "og:image:url"))
         (str_or (extractMeta html (u16 "twitter:image"))
            (extractMeta html (u16 "twitter:image:src")))) in
  let img := absolutizeMaybe h og (link item) in
  if nonempty img && negb (isJunkImage img) then set_image item img
  else item.

Definition enrich_date (h : Host) (html : jsstring) (item : NewsItem)
  : NewsItem :=
  let ptime :=
    str_or (extractMeta html (u16 "article:published_time"))
      (str_or (extractMeta html (u16 "og:updated_time"))
         (extractMeta html (u16 "article:modified_time"))) in
  let ts := toTimestamp (Date_heuristic h) (Some ptime) in
  if negb (ts =? 0) then set_published item ptime ts else item.

(** [enrichOne(item)]. The script assigns to the fields of [item] and
    returns it; no two entries of the array it is mapped over are the
    same object, so the update is returned as a value. *)
Definition enrichOne (h : Host) (w : World) (item : NewsItem)
  : Net NewsItem :=
  let needsImage := negb (nonempty (image item)) || isJunkImage (image item) in
  let needsDate := publishedTs item =? 0 in
  if negb needsImage && negb needsDate then net_ret item
  else
    net_bind (fetchText w (link item)) (fun page =>
      match page with
      | Ok html =>
          let item1 := if needsImage then enrich_image h html item else item in
          let item2 := if needsDate then enrich_date h html item1 else item1 in
          net_ret item2
      | Throw _ => net_ret item
      end).

(** The body of the loop over the parsed items; [None] is [continue]. *)
Definition make_item (h : Host) (feed : FeedSource) (it : RawItem)
  : option NewsItem :=
  let link :=
    normalizeUrl h
      (or_empty (or_else (raw_link it) (or_else (raw_guid it) (Some [])))) in
  if negb (nonempty link) then None
  else
    let title := trim (str_or_empty (raw_title it)) in
    let published :=
      or_empty
        (or_else (isoDate it)
           (or_else (pubDate it) (or_else (raw_published it) (Some [])))) in
    let publishedTs := toTimestamp (Date_heuristic h) (Some published) in
    let image := pickImage (normalizeUrl h) it in
    let image := if isJunkImage image then [] else image in
    let categories := pickCategories it in
    let excerpt := pickExcerpt it in
    if jsstring_eqb (feed_id feed) (u16 "mondosonoro")
       && negb (existsb
                  (fun c => jsstring_eqb (toLowerCase c) (u16 "discos"))
                  categories)
    then None
    else
      Some {| id := sha1 h (feed_id feed ++ u16 "|" ++ link);
              title := title;
              link := link;
              published := published;
              publishedTs := publishedTs;
              sourceId := feed_id feed;
              sourceName := feed_name feed;
              categories := categories;
              image := image;
              excerpt := excerpt |}.

(** The first ranking, before enrichment. *)
Definition ranked (h : Host) (w : World) (feeds : list FeedSource)
  : list NewsItem :=
  Array_sort by_recency (dedupe (fst (ingest h w (make_item h) feeds))).

(** [main], from the parsed [feeds.json] to the payload it writes:
    [None] if the promise of [main] stayed pending, [Throw] if it is
    rejected (the process then exits with status 1). *)
Definition main_with (c : Config) (h : Host) (w : World)
  (feeds : list FeedSource) : option (result Payload) :=
  let merged := ranked h w feeds in
  let toEnrich := firstn (ENRICH_LIMIT c) merged in
  let rest := skipn (ENRICH_LIMIT c) merged in
  match asyncPool (ENRICH_CONCURRENCY c) toEnrich
          (fun item => Ok (snd (enrichOne h w item))) with
  | None => None
  | Some (Throw e) => Some (Throw e)
  | Some (Ok enriched) =>
      let merged := Array_sort by_recency (enriched ++ rest) in
      let merged := firstn (MAX_ITEMS c) merged in
      Some (Ok {| generatedAt := now_iso w;
                  total := length merged;
                  sources := feeds;
                  errors := snd (ingest h w (make_item h) feeds);
                  items := merged |})
  end.

Definition main : Host -> World -> list FeedSource -> option (result Payload) :=
  main_with config.

End Enrich.

(* ================================================================= *)
(** ** A small world, for the examples

    Two feeds, [news] and [mondosonoro], four articles in the first and one
    in the second; a feed [emoji] of one entry, a feed [down] that answers
    500, and a feed [broken] whose second element is [null]. The host
    parses a URL that starts with [https://] to itself (the URLs below are
    already in serialised form, so the URL standard agrees), has no date
    heuristics, and recognises the feed bodies; its hash is a stand-in, no
    example looks at an [id]. The world answers a request by its URL
    alone. *)
Module Example.

Definition raw (l : String.string) (date : option jsstring) : RawItem :=
  {| raw_link := Some (u16 l); raw_guid := None; raw_title := None;
     isoDate := date; pubDate := None; raw_published := None;
     mediaContent := None; mediaThumbnail := None; enclosure := None;
     contentEncoded := None; content_encoded := None; content := None;
     summary := None; raw_categories := CatAbsent;
     raw_category := CatAbsent |}.

Definition day2024 : jsstring := u16 "2024-01-01T00:00:00.000Z".
Definition day1960 : jsstring := u16 "1960-01-01T00:00:00.000Z".

(** [a] has no date in the feed but one on its page; [b] is dated in the
    feed; [c] is dated before 1970; [d] has no date anywhere. *)
Definition raw_a : RawItem := raw "https://n.example/a" None.
Definition raw_b : RawItem := raw "https://n.example/b" (Some day2024).
Definition raw_c : RawItem := raw "https://n.example/c" (Some day1960).
Definition raw_d : RawItem := raw "https://n.example/d" None.

(** The two items of the feed [broken], which has [null] between them. *)
Definition raw_first : RawItem := raw "https://b.example/1" (Some day2024).
Definition raw_last : RawItem := raw "https://b.example/2" (Some day2024).

(** What reading [it.link] throws when [it] is [null]. *)
Definition null_read : exn :=
  Exn (u16 "Cannot read properties of null (reading 'link')")
      (u16 "TypeError: Cannot read properties of null (reading 'link')").

(** An entry whose only image is a WordPress emoji. *)
Definition raw_emoji : RawItem :=
  {| raw_link := Some (u16 "https://m.example/e"); raw_guid := None;
     raw_title := None; isoDate := Some day2024; pubDate := None;
     raw_published := None; mediaContent := None; mediaThumbnail := None;
     enclosure := Some (u16 "https://s.w.org/images/core/emoji/2/72x72/1f3b5.png");
     contentEncoded := None; content_encoded := None; content := None;
     summary := None; raw_categories := CatMany [Some (u16 "Discos")];
     raw_category := CatAbsent |}.

Definition host : Host :=
  {| URL_parse := fun u => if startsWith (u16 "https://") u then Some u else None;
     URL_resolve := fun u _ => if startsWith (u16 "https://") u then Some u else None;
     Date_heuristic := fun _ => None;
     sha1 := fun x => x;
     parseString := fun xml =>
       if jsstring_eqb xml (u16 "<rss>news</rss>")
       then Ok (Some [Obj raw_a; Obj raw_b; Obj raw_c; Obj raw_d])
       else if jsstring_eqb xml (u16 "<rss>mondo</rss>")
       then Ok (Some [Obj (raw "https://m.example/1" (Some day2024))])
       else if jsstring_eqb xml (u16 "<rss>emoji</rss>")
       then Ok (Some [Obj raw_emoji])
       else if jsstring_eqb xml (u16 "<rss>broken</rss>")
       then Ok (Some [Obj raw_first; Throws null_read; Obj raw_last])
       else Throw (Error (u16 "Non-whitespace before first tag.")) |}.

Definition page_a : jsstring :=
  u16 "<html><head><meta property='article:published_time' content='2024-01-01T00:00:00Z'></head></html>".

Definition respond (code : Z) (text : jsstring) (b : jsstring) : Fetched :=
  Responds {| status := code; statusText := text; body := Ok b |}.

Definition world : World :=
  {| http_get := fun req =>
       let url := req_url req in
       if jsstring_eqb url (u16 "https://n.example/feed")
       then respond 200 (u16 "OK") (u16 "<rss>news</rss>")
       else if jsstring_eqb url (u16 "https://m.example/feed")
       then respond 200 (u16 "OK") (u16 "<rss>mondo</rss>")
       else if jsstring_eqb url (u16 "https://e.example/feed")
       then respond 200 (u16 "OK") (u16 "<rss>emoji</rss>")
       else if jsstring_eqb url (u16 "https://down.example/feed")
       then respond 500 (u16 "Internal Server Error") (u16 "oops")
       else if jsstring_eqb url (u16 "https://b.example/feed")
       then respond 200 (u16 "OK") (u16 "<rss>broken</rss>")
       else if jsstring_eqb url (u16 "https://n.example/a")
       then respond 200 (u16 "OK") page_a
       else if jsstring_eqb url (u16 "https://n.example/b")
       then respond 200 (u16 "OK") (u16 "<html><head></head></html>")
       else if jsstring_eqb url (u16 "https://n.example/c")
       then respond 404 (u16 "Not Found") []
       else Rejects (Exn (u16 "This operation was aborted")
                       (u16 "AbortError: This operation was aborted"));
     now_iso := u16 "2024-06-01T00:00:00.000Z" |}.

Definition feed (i n u : String.string) : FeedSource :=
  {| feed_id := u16 i; feed_name := u16 n; feed_url := u16 u |}.

Definition news : FeedSource := feed "news" "News" "https://n.example/feed".
Definition mondo : FeedSource :=
  feed "mondosonoro" "Mondo Sonoro" "https://m.example/feed".
Definition emoji : FeedSource := feed "emoji" "Emoji" "https://e.example/feed".
Definition down : FeedSource := feed "down" "Down" "https://down.example/feed".
Definition broken : FeedSource :=
  feed "broken" "Broken" "https://b.example/feed".

(** The enriching script with enrichment switched off. *)
Definition no_enrichment : Enrich.Config :=
  {| Enrich.MAX_ITEMS := 200; Enrich.ENRICH_LIMIT := 0;
     Enrich.ENRICH_CONCURRENCY := 4; Enrich.FETCH_TIMEOUT := 9000 |}.

(** An item with a link and nothing else: no image, no date. *)
Definition bare (l : String.string) : NewsItem :=
  {| id := []; title := []; link := u16 l; published := [];
     publishedTs := 0; sourceId := []; sourceName := []; categories := [];
     image := []; excerpt := [] |}.

(** The links and timestamps of a list of items, to read a result. *)
Definition brief (l : list NewsItem) : list (jsstring * Z) :=
  map (fun it => (link it, publishedTs it)) l.

End Example.

(* ================================================================= *)
(** ** Vocabulary of the pool's properties *)

(** Positions, from [off], of the elements of [l] that satisfy [p]. *)
Fixpoint positions (T : Type) (p : T -> bool) (l : list T) (off : nat)
  : list nat :=
  match l with
  | [] => []
  | x :: l' => if p x then off :: positions p l' (S off)
               else positions p l' (S off)
  end.

Section PoolInvariant.
Variables A B : Type.
Variable limit : nat.
Variable arr : list A.
Variable fn : A -> result B.

(** The most promises [executing] ever holds: [limit], or one when
    [limit] is [0]. *)
Definition cap : nat := Nat.max limit 1.

(** A task whose reaction [e] has not run. *)
Definition active (t : task A B) : bool :=
  match t with
  | Finished _ => false
  | _ => true
  end.

(** The task launched for [a], at any stage. *)
Definition task_for (a : A) (t : task A B) : Prop :=
  t = Scheduled a \/ t = Running a \/ t = Settled (fn a)
  \/ t = Finished (fn a).

Definition pc_ok (s : pool A B) : Prop :=
  match pc s with
  | Iter i =>
      length (ret s) = i /\ (i <= length arr)%nat
      /\ (length (executing s) < cap)%nat
  | Awaiting i snap =>
      length (ret s) = i /\ (i <= length arr)%nat
      /\ tracked limit arr = true /\ snap <> []
      /\ (length snap <= cap)%nat /\ incl (executing s) snap
      /\ (forall k, In k snap -> (k < length (ret s))%nat)
  | Returned => length (ret s) = length arr
  | Threw e =>
      (length (ret s) <= length arr)%nat
      /\ exists a, In a arr /\ fn a = Throw e
  end.

Record Inv (s : pool A B) : Prop := {
  inv_pc : pc_ok s;
  inv_aligned : forall k t, nth_error (ret s) k = Some t ->
                exists a, nth_error arr k = Some a /\ task_for a t;
  inv_nodup : NoDup (executing s);
  inv_cap : (length (executing s) <= cap)%nat;
  inv_bound : forall k, In k (executing s) -> (k < length (ret s))%nat;
  inv_active : tracked limit arr = true ->
               forall k t, nth_error (ret s) k = Some t ->
               active t = true -> In k (executing s);
  inv_done : forall k v, nth_error (ret s) k = Some (Finished (Ok v)) ->
             ~ In k (executing s);
  inv_untracked : tracked limit arr = false -> executing s = []
}.

(** What is left to do: the stages each task still has to go through,
    and the turns of the loop. *)
Definition rank (t : task A B) : nat :=
  match t with
  | Scheduled _ => 3
  | Running _ => 2
  | Settled _ => 1
  | Finished _ => 0
  end.

Definition pc_rank (c : loop) : nat :=
  match c with
  | Iter i => 6 * (length arr - i) + 2
  | Awaiting i _ => 6 * (length arr - i) + 3
  | Returned => 1
  | Threw _ => 0
  end.

Definition measure (s : pool A B) : nat :=
  list_sum (map rank (ret s)) + pc_rank (pc s).
End PoolInvariant.

(* ================================================================= *)
(** ** Vocabulary of the ranking's properties *)

(** Newest first. *)
Definition descending (l : list NewsItem) : Prop :=
  StronglySorted (fun a b => publishedTs b <= publishedTs a) l.

Definition has_ts (k : Z) (it : NewsItem) : bool := publishedTs it =? k.

Definition same_link (k : jsstring) (it : NewsItem) : bool :=
  jsstring_eqb (link it) k.

Definition is_prefix (T : Type) (l1 l2 : list T) : Prop :=
  exists l3, l2 = l1 ++ l3.

(** No item without a timestamp comes before an item with one. *)
Definition zeros_last (l : list NewsItem) : Prop :=
  forall l1 x l2 y l3,
    l = l1 ++ x :: l2 ++ y :: l3 -> publishedTs x = 0 -> publishedTs y = 0.

(** [a] can be read in [b] from left to right, skipping entries. *)
Fixpoint subseqb (a b : list jsstring) : bool :=
  match a, b with
  | [], _ => true
  | _ :: _, [] => false
  | x :: a', y :: b' =>
      if jsstring_eqb x y then subseqb a' b' else subseqb a b'
  end.

(** Items of equal timestamp stand in [out] in the order they have in
    [reference]; an item is known by its link. *)
Definition ties_follow (reference out : list NewsItem) : Prop :=
  forall k,
    subseqb (map link (filter (has_ts k) out)) (map link reference) = true.

(** The array the enriching script sorts last: the first ranking with its
    head enriched. *)
Definition enriched_ranking (c : Enrich.Config) (h : Host) (w : World)
  (feeds : list FeedSource) : list NewsItem :=
  map (fun item => snd (Enrich.enrichOne h w item))
    (firstn (Enrich.ENRICH_LIMIT c) (Enrich.ranked h w feeds))
  ++ skipn (Enrich.ENRICH_LIMIT c) (Enrich.ranked h w feeds).

(** What enrichment must leave alone. *)
Definition same_identity (a b : NewsItem) : Prop :=
  id a = id b /\ title a = title b /\ link a = link b
  /\ sourceId a = sourceId b /\ sourceName a = sourceName b
  /\ categories a = categories b /\ excerpt a = excerpt b.

(** A URL with nothing to trim and no entity to decode. *)
Definition clean_url (u : jsstring) : Prop :=
  trim u = u /\ Enrich.decodeUrlEntities u = u.

(** The strings of a raw item that [normalizeUrl] may be given. *)
Definition item_urls (it : RawItem) : list jsstring :=
  [ or_empty (or_else (raw_link it) (or_else (raw_guid it) (Some [])));
    or_empty (bind (mediaContent it) attr_url);
    or_empty (bind (mediaContent it) direct_url);
    or_empty (bind (mediaThumbnail it) attr_url);
    or_empty (bind (mediaThumbnail it) direct_url);
    or_empty (enclosure it);
    firstImageFromHtml (item_html it) ].

(** A raw item of [feed] on which the two scripts have no reason to differ:
    its URLs are clean, its image is no emoji, and it passes the category
    filter of the feed [mondosonoro]. *)
Definition plain_item (h : Host) (feed : FeedSource) (it : RawItem) : Prop :=
  Forall clean_url (item_urls it)
  /\ Enrich.isJunkImage (pickImage (BuildFeeds.normalizeUrl h) it) = false
  /\ (jsstring_eqb (feed_id feed) (u16 "mondosonoro") = false
      \/ existsb (fun c => jsstring_eqb (toLowerCase c) (u16 "discos"))
           (pickCategories it) = true).

(** The raw items of a feed that the loop gets to ([[]] when the fetch or
    the parse fails). *)
Definition parsed_items (h : Host) (w : World) (feed : FeedSource)
  : list RawItem :=
  match snd (parseFeedFromUrl h w (feed_url feed)) with
  | Ok parsed => reached (entries parsed)
  | Throw _ => []
  end.

(** The metadata [enrichOne] looks for in a page. *)
Definition meta_keys : list jsstring :=
  [ u16 "og:image"; u16 "og:image:url"; u16 "twitter:image";
    u16 "twitter:image:src"; u16 "article:published_time";
    u16 "og:updated_time"; u16 "article:modified_time" ].

(* ================================================================= *)
(** ** Vocabulary of the further properties *)

(** What fetching and parsing a feed gave. *)
Definition feed_outcome (h : Host) (w : World) (f : FeedSource)
  : result (option (list Entry)) :=
  snd (parseFeedFromUrl h w (feed_url f)).

(** The exception a feed ends with, if any: that of the fetch or of the
    parse, or the one thrown in the loop over its items. *)
Definition feed_error (h : Host) (w : World) (f : FeedSource) : option exn :=
  match feed_outcome h w f with
  | Throw e => Some e
  | Ok parsed => thrown (entries parsed)
  end.

Definition feed_failed (h : Host) (w : World) (f : FeedSource) : bool :=
  match feed_error h w f with
  | Some _ => true
  | None => false
  end.

(** The items a feed leaves in [items]: none when the fetch or the parse
    fails, else those pushed before the loop ends. *)
Definition feed_pushed (h : Host) (w : World)
  (mk : FeedSource -> RawItem -> option NewsItem) (f : FeedSource)
  : list NewsItem :=
  match feed_outcome h w f with
  | Ok parsed => feed_items mk f parsed
  | Throw _ => []
  end.

(** The errors a feed leaves in [errors]. *)
Definition feed_errors (h : Host) (w : World) (f : FeedSource)
  : list IngestError :=
  match feed_error h w f with
  | Some e => [ingest_error f e]
  | None => []
  end.

(** [item ? [item] : []] for the value of a loop body. *)
Definition pushed_by (mk : FeedSource -> RawItem -> option NewsItem)
  (f : FeedSource) (it : RawItem) : list NewsItem :=
  match mk f it with
  | Some x => [x]
  | None => []
  end.

(** What [res.text().catch(() => ...)] gives in [fetchXml]: the body, or
    the empty string when it cannot be read. *)
Definition body_or_empty (res : Response) : jsstring :=
  match body res with
  | Ok t => t
  | Throw _ => []
  end.

(** No whitespace in front. *)
Definition no_lead (s : jsstring) : Prop :=
  match s with
  | [] => True
  | c :: _ => is_space c = false
  end.

(** No whitespace at either end. *)
Definition trimmed (s : jsstring) : Prop := no_lead s /\ no_lead (rev s).

(** The category test of the feed [mondosonoro]. *)
Definition has_discos (cats : list jsstring) : bool :=
  existsb (fun c => jsstring_eqb (toLowerCase c) (u16 "discos")) cats.

(** A run of [n] steps of the pool. *)
Inductive steps_n (A B : Type) (limit : nat) (arr : list A)
  (fn : A -> result B) : nat -> pool A B -> pool A B -> Prop :=
| steps_n_O s : steps_n limit arr fn 0 s s
| steps_n_S n s s' s'' :
    step limit arr fn s s' -> steps_n limit arr fn n s' s'' ->
    steps_n limit arr fn (S n) s s''.

(** [p] is at the start of [s], letter case apart when [ci] is set. *)
Fixpoint ci_prefix (ci : bool) (p s : jsstring) : bool :=
  match p, s with
  | [], _ => true
  | c :: p', x :: s' => N.eqb (canon ci x) (canon ci c) && ci_prefix ci p' s'
  | _ :: _, [] => false
  end.

(** What a feed generator does to a URL: every [&] written as [entity]. *)
Definition escape_amp (entity s : jsstring) : jsstring :=
  flat_map (fun x => if N.eqb x 38 then entity else [x]) s.

(** Repetition of a character class as equations on the input: the greedy
    star takes a character before it tries the continuation, the lazy one
    tries the continuation first. *)
Fixpoint star_greedy (R : Type) (p : cu -> bool) (k : cont R) (s : jsstring)
  (cap : option jsstring) : option R :=
  match s with
  | x :: s' =>
      if p x then orelse (star_greedy p k s' cap) (k s cap) else k s cap
  | [] => k [] cap
  end.

Fixpoint star_lazy (R : Type) (p : cu -> bool) (k : cont R) (s : jsstring)
  (cap : option jsstring) : option R :=
  orelse (k s cap)
    match s with
    | x :: s' => if p x then star_lazy p k s' cap else None
    | [] => None
    end.

(** The first character is not whitespace. *)
Definition starts_solid (s : jsstring) : bool :=
  match s with
  | y :: _ => negb (is_space y)
  | [] => true
  end.

(** Whitespace occurs only as a single U+0020 with no whitespace after it. *)
Fixpoint single_spaced (s : jsstring) : bool :=
  match s with
  | [] => true
  | x :: t =>
      (if is_space x then N.eqb x 32 && starts_solid t else true)
      && single_spaced t
  end.

(** The input after the first [>]. *)
Fixpoint after_gt (s : jsstring) : option jsstring :=
  match s with
  | [] => None
  | x :: t => if N.eqb x 62 then Some t else after_gt t
  end.

(** What can follow a [<] that opens no tag: [>] at once, or no [>] at
    all. *)
Definition closes_nothing (t : jsstring) : bool :=
  match t with
  | [] => true
  | y :: _ =>
      N.eqb y 62 || match after_gt t with Some _ => false | None => true end
  end.

(** No [<] of [s] opens a tag. *)
Fixpoint tagless (s : jsstring) : bool :=
  match s with
  | [] => true
  | x :: t => (if N.eqb x 60 then closes_nothing t else true) && tagless t
  end.

(** [p] occurs somewhere in [s], letter case apart. *)
Fixpoint occurs_ci (p s : jsstring) : bool :=
  ci_prefix true p s ||
  match s with
  | [] => false
  | _ :: t => occurs_ci p t
  end.

(** The first character of [b], if any, is outside the class [p]. *)
Definition starts_with_none (p : cu -> bool) (b : jsstring) : bool :=
  match b with
  | [] => true
  | y :: _ => negb (p y)
  end.

(** [s] is [lit], letter case apart. *)
Definition ci_same (lit s : jsstring) : Prop :=
  ci_prefix true lit s = true /\ length s = length lit.

(* ================================================================= *)
(** * Properties *)

(** ** Strings *)

Lemma jsstring_eqb_spec a b : reflect (a = b) (jsstring_eqb a b).
Proof.
  revert b; induction a as [|x a IH]; intros [|y b]; simpl;
    try (constructor; congruence).
  destruct (N.eqb_spec x y) as [->|Hxy]; simpl.
  - destruct (IH b) as [->|Hab]; constructor; congruence.
  - constructor; congruence.
Qed.

Lemma jsstring_eqb_eq a b : jsstring_eqb a b = true <-> a = b.
Proof. destruct (jsstring_eqb_spec a b); split; congruence. Qed.

Lemma jsstring_eqb_refl a : jsstring_eqb a a = true.
Proof. now apply jsstring_eqb_eq. Qed.

Lemma jsstring_eqb_neq a b : jsstring_eqb a b = false <-> a <> b.
Proof. destruct (jsstring_eqb_spec a b); split; congruence. Qed.

Lemma nonempty_false s : nonempty s = false -> s = [].
Proof. destruct s; simpl; congruence. Qed.

Lemma slice0_length n s : (length (slice0 n s) <= n)%nat.
Proof. unfold slice0. rewrite length_firstn. lia. Qed.

Lemma slice0_length_exact n s :
  (n <= length s)%nat -> length (slice0 n s) = n.
Proof. unfold slice0. intros H. rewrite length_firstn. lia. Qed.

(* ================================================================= *)
(** ** Excerpts *)

(** C7. For every raw item, [pickExcerpt] returns at most 240 code units,
    the ellipsis included: when the stripped, whitespace-collapsed text is
    longer than 240 it returns the first 237 code units of the text followed
    by the ellipsis, and otherwise the text itself. *)
Theorem pickExcerpt_spec (item : RawItem) :
  let text := stripHtml (item_html item) in
  (length (pickExcerpt item) <= 240)%nat
  /\ pickExcerpt item =
       (if (240 <? length text)%nat then slice0 237 text ++ ellipsis else text).
Proof.
  intros text. unfold pickExcerpt. fold text.
  destruct (nonempty text) eqn:Hne; cbn [negb].
  - destruct (Nat.ltb_spec 240 (length text)) as [Hlt|Hle].
    + assert (Hlen : length (slice0 237 text ++ ellipsis) = 238%nat).
      { rewrite length_app, slice0_length_exact by lia. reflexivity. }
      rewrite Hlen. split; [lia | reflexivity].
    + split; [lia | reflexivity].
  - apply nonempty_false in Hne. rewrite Hne. cbn.
    split; [lia | reflexivity].
Qed.

(** A summary of 300 letters between two tags is cut to 237 of them and the
    ellipsis. *)
Example pickExcerpt_long :
  let item :=
    {| raw_link := None; raw_guid := None; raw_title := None;
       isoDate := None; pubDate := None; raw_published := None;
       mediaContent := None; mediaThumbnail := None; enclosure := None;
       contentEncoded := None; content_encoded := None; content := None;
       summary := Some (u16 "<p>" ++ repeat 97%N 300 ++ u16 "</p>");
       raw_categories := CatAbsent; raw_category := CatAbsent |} in
  pickExcerpt item = repeat 97%N 237 ++ ellipsis.
Proof. vm_compute. reflexivity. Qed.

(* ================================================================= *)
(** ** Timestamps *)

Lemma or0_id z : or0 z = z.
Proof. unfold or0. destruct (Z.eqb_spec z 0); congruence. Qed.

Lemma by_recency_eq a b : by_recency a b = publishedTs b - publishedTs a.
Proof. unfold by_recency. now rewrite !or0_id. Qed.

Lemma str_or_empty_absent : str_or_empty None = [].
Proof. reflexivity. Qed.

Lemma str_or_empty_some s : str_or_empty (Some s) = s.
Proof. destruct s; reflexivity. Qed.

Lemma toTimestamp_eq heuristic d :
  toTimestamp heuristic d =
    match Date_parse heuristic (str_or_empty d) with
    | Some t => t
    | None => 0
    end.
Proof. reflexivity. Qed.

(** C3, as the scripts have it. [toTimestamp] is a total function; it is [0]
    for an absent or empty date string and for one [Date.parse] does not
    understand, and it is the value of [Date.parse] otherwise, whatever its
    sign: so it is [0] exactly when the string is unusable or denotes the
    epoch itself, and it is negative exactly when [Date.parse] gives an
    instant before 1970. An item is built with the timestamp of the date
    string it records. *)
Theorem toTimestamp_spec (h : Host) (d : option jsstring) :
  let parsed := Date_parse (Date_heuristic h) (str_or_empty d) in
  toTimestamp (Date_heuristic h) None = 0
  /\ toTimestamp (Date_heuristic h) (Some []) = 0
  /\ (parsed = None -> toTimestamp (Date_heuristic h) d = 0)
  /\ (forall t, parsed = Some t -> toTimestamp (Date_heuristic h) d = t)
  /\ (toTimestamp (Date_heuristic h) d = 0 <-> parsed = None \/ parsed = Some 0)
  /\ (toTimestamp (Date_heuristic h) d < 0 <->
      exists t, parsed = Some t /\ t < 0)
  /\ (forall feed it x,
        BuildFeeds.make_item h feed it = Some x \/
        Enrich.make_item h feed it = Some x ->
        publishedTs x = toTimestamp (Date_heuristic h) (Some (published x))).
Proof.
  intros parsed.
  assert (E : toTimestamp (Date_heuristic h) d =
              match parsed with Some t => t | None => 0 end)
    by apply toTimestamp_eq.
  rewrite E. clear E.
  split; [reflexivity|]. split; [reflexivity|].
  split; [intros ->; reflexivity|].
  split; [intros t ->; reflexivity|].
  split; [|split].
  - destruct parsed as [t|]; split; intros H; auto.
    + right. now subst.
    + destruct H as [H|H]; [discriminate | now inversion H].
  - destruct parsed as [t|]; split; intros H.
    + now exists t.
    + destruct H as (t' & Ht & Hneg). now inversion Ht; subst.
    + lia.
    + destruct H as (t' & Ht & _). discriminate.
  - intros feed it x [H|H].
    + unfold BuildFeeds.make_item in H.
      destruct (negb (nonempty _)); [discriminate|].
      inversion H; subst; reflexivity.
    + unfold Enrich.make_item in H.
      destruct (negb (nonempty _)); [discriminate|].
      destruct (_ && _); [discriminate|].
      inversion H; subst; reflexivity.
Qed.

(** C3, the claim as stated fails: the epoch is a usable date whose
    timestamp is [0], and a date before 1970 has a negative timestamp. *)
Lemma toTimestamp_zero_and_negative :
  Date_parse (Date_heuristic Example.host) (u16 "1970-01-01T00:00:00.000Z") = Some 0
  /\ toTimestamp (Date_heuristic Example.host) (Some (u16 "1970-01-01T00:00:00.000Z")) = 0
  /\ toTimestamp (Date_heuristic Example.host) (Some Example.day1960) = -315619200000
  /\ option_map publishedTs (BuildFeeds.make_item Example.host Example.news Example.raw_c)
     = Some (-315619200000)
  /\ option_map publishedTs (Enrich.make_item Example.host Example.news Example.raw_c)
     = Some (-315619200000).
Proof. vm_compute. repeat split; reflexivity. Qed.

Lemma toTimestamp_spec_witness :
  toTimestamp (Date_heuristic Example.host) (Some Example.day2024) = 1704067200000.
Proof.
  apply (toTimestamp_spec Example.host (Some Example.day2024)).
  vm_compute. reflexivity.
Defined.

(* ================================================================= *)
(** ** The promise pool *)

Section ListFacts.
Variable T : Type.

Lemma NoDup_strictly_shorter (l l' : list nat) (k : nat) :
  NoDup l -> incl l l' -> In k l' -> ~ In k l ->
  (length l < length l')%nat.
Proof.
  intros Hnd Hincl Hk Hnk.
  assert (H : (length (k :: l) <= length l')%nat).
  { apply NoDup_incl_length.
    - now constructor.
    - intros x [<-|Hx]; auto. }
  simpl in H. lia.
Qed.

Lemma positions_length (p : T -> bool) (l : list T) off :
  length (positions p l off) = length (filter p l).
Proof.
  revert off; induction l as [|x l IH]; intros off; simpl; auto.
  destruct (p x); simpl; auto.
Qed.

Lemma positions_In (p : T -> bool) (l : list T) off k :
  In k (positions p l off) ->
  exists j t, k = (off + j)%nat /\ nth_error l j = Some t /\ p t = true.
Proof.
  revert off; induction l as [|x l IH]; intros off; simpl; [tauto|].
  destruct (p x) eqn:Hp.
  - intros [<-|H].
    + exists 0%nat, x. repeat split; auto; lia.
    + destruct (IH _ H) as (j & t & -> & Hj & Ht).
      exists (S j), t. repeat split; auto; lia.
  - intros H. destruct (IH _ H) as (j & t & -> & Hj & Ht).
    exists (S j), t. repeat split; auto; lia.
Qed.

Lemma positions_NoDup (p : T -> bool) (l : list T) off :
  NoDup (positions p l off).
Proof.
  revert off; induction l as [|x l IH]; intros off; simpl; [constructor|].
  destruct (p x); auto.
  constructor; auto.
  intros H. apply positions_In in H. destruct H as (j & _ & E & _). lia.
Qed.

Lemma filter_length_le_indices (p : T -> bool) (l : list T)
  (ex : list nat) :
  (forall k t, nth_error l k = Some t -> p t = true -> In k ex) ->
  (length (filter p l) <= length ex)%nat.
Proof.
  intros H. rewrite <- (positions_length p l 0).
  apply NoDup_incl_length; [apply positions_NoDup|].
  intros k Hk. apply positions_In in Hk.
  destruct Hk as (j & t & -> & Hj & Ht). simpl. eauto.
Qed.
End ListFacts.

Lemma indexOf_In k l :
  In k l ->
  exists l1 l2, l = l1 ++ k :: l2 /\ ~ In k l1
                /\ indexOf k l = Z.of_nat (length l1).
Proof.
  induction l as [|x l IH]; simpl; [tauto|].
  intros H. destruct (Nat.eqb_spec x k) as [->|Hne].
  - exists [], l. repeat split; auto.
  - destruct H as [H|H]; [congruence|].
    destruct (IH H) as (l1 & l2 & -> & Hn & E).
    exists (x :: l1), l2. rewrite E. repeat split.
    + simpl. intros [?|?]; auto.
    + destruct (Z.ltb_spec (Z.of_nat (length l1)) 0); [lia|].
      simpl length. lia.
Qed.

Lemma remove_at_middle (l1 l2 : list nat) k :
  remove_at (length l1) (l1 ++ k :: l2) = l1 ++ l2.
Proof.
  unfold remove_at. induction l1 as [|x l1 IH]; simpl; auto.
  simpl in IH. now rewrite IH.
Qed.

Lemma splice1_indexOf k l :
  In k l ->
  exists l1 l2, l = l1 ++ k :: l2 /\ splice1 (indexOf k l) l = l1 ++ l2.
Proof.
  intros H. destruct (indexOf_In k l H) as (l1 & l2 & E & _ & Hi).
  exists l1, l2. split; auto.
  rewrite Hi. unfold splice1.
  destruct (Z.ltb_spec (Z.of_nat (length l1)) 0); [lia|].
  rewrite Z.min_l by (rewrite E, length_app; simpl; lia).
  rewrite Nat2Z.id. rewrite E. apply remove_at_middle.
Qed.

Section SetNth.
Variables A B : Type.

Lemma set_nth_length k (t : task A B) l : length (set_nth k t l) = length l.
Proof.
  revert k; induction l as [|x l IH]; intros [|k]; simpl; auto.
Qed.

Lemma set_nth_same k (t t0 : task A B) l :
  nth_error l k = Some t0 -> nth_error (set_nth k t l) k = Some t.
Proof.
  revert k; induction l as [|x l IH]; intros [|k]; simpl;
    try discriminate; auto.
Qed.

Lemma set_nth_other k j (t : task A B) l :
  j <> k -> nth_error (set_nth k t l) j = nth_error l j.
Proof.
  revert k j; induction l as [|x l IH]; intros [|k] [|j]; simpl; auto;
    try congruence.
Qed.

Lemma set_nth_inv k j (t t' : task A B) l :
  nth_error (set_nth k t l) j = Some t' ->
  (j = k /\ t' = t) \/ (j <> k /\ nth_error l j = Some t').
Proof.
  intros H. destruct (Nat.eq_dec j k) as [->|Hne].
  - left. split; auto.
    destruct (nth_error l k) as [t0|] eqn:E.
    + rewrite (set_nth_same _ _ _ E) in H. congruence.
    + apply nth_error_None in E.
      assert (nth_error (set_nth k t l) k = None).
      { apply nth_error_None. now rewrite set_nth_length. }
      congruence.
  - right. split; auto. now rewrite set_nth_other in H.
Qed.
End SetNth.
Section PoolFacts.
Variables A B : Type.
Variable limit : nat.
Variable arr : list A.
Variable fn : A -> result B.

Local Abbreviation Inv := (Inv limit arr fn).
Local Abbreviation step := (step limit arr fn).
Local Abbreviation reachable := (reachable limit arr fn).
Local Abbreviation task_for := (task_for fn).

Lemma cap_pos : (1 <= cap limit)%nat.
Proof. unfold cap. lia. Qed.

Lemma Inv_init : Inv (init A B).
Proof.
  constructor; simpl; auto.
  - unfold pc_ok; simpl. pose proof cap_pos. repeat split; lia.
  - intros [|k] t; discriminate.
  - constructor.
  - lia.
  - tauto.
  - intros _ [|k] t; discriminate.
Qed.

(** A task moves to a later stage: everything but the stage stays. *)
Lemma Inv_advance s k t0 t1 :
  Inv s -> nth_error (ret s) k = Some t0 -> active t0 = true ->
  (forall a, task_for a t0 -> task_for a t1) ->
  (active t1 = true \/ exists e, t1 = Finished (Throw e)) ->
  Inv (set_task s k t1).
Proof.
  intros [Hpc Hal Hnd Hcap Hb Hact Hdone Hun] Hk Ht0 Hfor Hstage.
  constructor; simpl; auto.
  - unfold pc_ok in *; simpl. rewrite set_nth_length.
    destruct (pc s); auto.
  - intros j t Hj. apply set_nth_inv in Hj.
    destruct Hj as [[-> ->]|[Hne Hj]]; auto.
    destruct (Hal _ _ Hk) as (a & Ha & Hta). eauto.
  - rewrite set_nth_length. auto.
  - intros Htr j t Hj Ht. apply set_nth_inv in Hj.
    destruct Hj as [[-> ->]|[Hne Hj]]; eauto.
  - intros j v Hj. apply set_nth_inv in Hj.
    destruct Hj as [[-> E]|[Hne Hj]]; eauto.
    destruct Hstage as [Ht|[e ->]]; [|discriminate].
    rewrite <- E in Ht. discriminate.
Qed.

Lemma Inv_set_pc s c :
  Inv s -> pc_ok limit arr fn (set_pc s c) -> Inv (set_pc s c).
Proof.
  intros [Hpc Hal Hnd Hcap Hb Hact Hdone Hun] Hc.
  constructor; simpl; auto.
Qed.

Lemma Inv_launch s i item :
  Inv s -> pc s = Iter i -> nth_error arr i = Some item ->
  Inv (launch limit arr s i item).
Proof.
  intros [Hpc Hal Hnd Hcap Hb Hact Hdone Hun] Hi Hitem.
  unfold pc_ok in Hpc. rewrite Hi in Hpc. destruct Hpc as (Hlen & Hle & Hlt).
  assert (Hin : (i < length arr)%nat).
  { apply nth_error_Some. congruence. }
  assert (Hal' : forall k t,
             nth_error (ret s ++ [Scheduled item]) k = Some t ->
             exists a, nth_error arr k = Some a /\ task_for a t).
  { intros k t Hk.
    destruct (Nat.lt_ge_cases k (length (ret s))) as [Hlt'|Hge].
    - rewrite nth_error_app1 in Hk by auto. eauto.
    - rewrite nth_error_app2 in Hk by auto.
      destruct (k - length (ret s))%nat as [|d] eqn:Hd; simpl in Hk.
      + inversion Hk; subst t. exists item.
        replace k with i by lia. split; auto. now left.
      + destruct d; discriminate. }
  unfold launch. destruct (tracked limit arr) eqn:Htr.
  - assert (Hnd' : NoDup (executing s ++ [length (ret s)])).
    { apply NoDup_app; auto.
      - constructor; [tauto | constructor].
      - intros x Hx [<-|[]]. apply Hb in Hx. lia. }
    assert (Hb' : forall k, In k (executing s ++ [length (ret s)]) ->
                  (k < length (ret s ++ [Scheduled item]))%nat).
    { intros k Hk. rewrite length_app. simpl.
      apply in_app_or in Hk. destruct Hk as [Hk|[<-|[]]]; [|lia].
      apply Hb in Hk. lia. }
    constructor; simpl; auto.
    + unfold pc_ok; simpl. rewrite !length_app. simpl.
      destruct (Nat.leb_spec limit (length (executing s) + 1)).
      * repeat split; try lia.
        -- exact Htr.
        -- intros E. apply app_eq_nil in E. destruct E; discriminate.
        -- rewrite length_app. simpl. lia.
        -- apply incl_refl.
        -- intros k Hk. apply Hb' in Hk. rewrite length_app in Hk.
           simpl in Hk. lia.
      * repeat split; try lia. unfold cap. lia.
    + rewrite length_app. simpl. lia.
    + intros _ k t Hk Ht. apply in_or_app.
      destruct (Nat.lt_ge_cases k (length (ret s))) as [Hlt'|Hge].
      * rewrite nth_error_app1 in Hk by auto. left. eauto.
      * right. left. rewrite nth_error_app2 in Hk by auto.
        destruct (k - length (ret s))%nat as [|[|d]] eqn:Hd;
          simpl in Hk; try discriminate. lia.
    + intros k v Hk Hin'.
      destruct (Nat.lt_ge_cases k (length (ret s))) as [Hlt'|Hge].
      * rewrite nth_error_app1 in Hk by auto.
        apply in_app_or in Hin'. destruct Hin' as [Hin'|[<-|[]]]; [|lia].
        now apply (Hdone _ _ Hk).
      * rewrite nth_error_app2 in Hk by auto.
        destruct (k - length (ret s))%nat as [|[|d]]; discriminate.
    + intros E; congruence.
  - specialize (Hun eq_refl).
    constructor; simpl; auto.
    + unfold pc_ok; simpl. rewrite length_app. simpl.
      repeat split; lia.
    + intros k Hk. rewrite Hun in Hk. destruct Hk.
    + intros E; congruence.
    + intros k v Hk. rewrite Hun. tauto.
Qed.

Lemma Inv_detach s k v :
  Inv s -> tracked limit arr = true ->
  nth_error (ret s) k = Some (Settled (Ok v)) ->
  Inv (detach s k v).
Proof.
  intros [Hpc Hal Hnd Hcap Hb Hact Hdone Hun] Htr Hk.
  assert (Hin : In k (executing s)) by (apply (Hact Htr _ _ Hk); reflexivity).
  destruct (splice1_indexOf k (executing s) Hin) as (l1 & l2 & E & Hsp).
  assert (Hsub : incl (l1 ++ l2) (executing s)).
  { rewrite E. intros x Hx. apply in_app_or in Hx. apply in_or_app.
    destruct Hx; [left | right; right]; auto. }
  assert (Hnk : ~ In k (l1 ++ l2)).
  { rewrite E in Hnd. now apply NoDup_remove_2 in Hnd. }
  assert (Hlen : (length (l1 ++ l2) < length (executing s))%nat).
  { rewrite E, !length_app. simpl. lia. }
  unfold detach. rewrite Hsp.
  constructor; simpl.
  - unfold pc_ok in *; simpl. rewrite set_nth_length.
    destruct (pc s); auto.
    + destruct Hpc as (? & ? & ?). repeat split; auto. lia.
    + destruct Hpc as (? & ? & ? & ? & ? & Hincl & ?).
      repeat split; auto. intros x Hx. auto.
  - intros j t Hj. apply set_nth_inv in Hj.
    destruct Hj as [[-> ->]|[Hne Hj]]; auto.
    destruct (Hal _ _ Hk) as (a & Ha & Hta). exists a. split; auto.
    destruct Hta as [?|[?|[Hs|?]]]; try discriminate.
    right; right; right. congruence.
  - rewrite E in Hnd. now apply NoDup_remove_1 in Hnd.
  - lia.
  - intros j Hj. rewrite set_nth_length. auto.
  - intros _ j t Hj Ht. apply set_nth_inv in Hj.
    destruct Hj as [[-> ->]|[Hne Hj]]; [discriminate|].
    specialize (Hact Htr _ _ Hj Ht). rewrite E in Hact.
    apply in_app_or in Hact. apply in_or_app.
    destruct Hact as [?|[?|?]]; auto. congruence.
  - intros j v' Hj. apply set_nth_inv in Hj.
    destruct Hj as [[-> _]|[Hne Hj]]; auto.
    intros Hx. apply (Hdone _ _ Hj). auto.
  - intros E'. congruence.
Qed.

Lemma step_Inv s s' : Inv s -> step s s' -> Inv s'.
Proof.
  intros HI Hstep. destruct Hstep.
  - now apply Inv_launch.
  - apply Inv_set_pc; auto. destruct HI as [Hpc _ _ _ _ _ _ _].
    unfold pc_ok in *. rewrite H in Hpc. simpl.
    destruct Hpc as (Hlen & Hle & _). apply nth_error_None in H0. lia.
  - apply Inv_advance with (t0 := Scheduled a); auto.
    intros a' [E|[E|[E|E]]]; inversion E; subst. right; now left.
  - apply Inv_advance with (t0 := Running a); auto.
    intros a' [E|[E|[E|E]]]; inversion E; subst. right; right; now left.
  - now apply Inv_detach.
  - apply Inv_advance with (t0 := Settled (Throw e)); eauto.
    intros a' [E|[E|[E|E]]]; inversion E; subst. right; right; right.
    congruence.
  - apply Inv_set_pc; auto.
    destruct HI as [Hpc _ Hnd _ _ _ Hdone _].
    unfold pc_ok in *. rewrite H in Hpc. simpl.
    destruct Hpc as (Hlen & Hle & _ & _ & Hsnap & Hincl & _).
    repeat split; auto.
    pose proof (@NoDup_strictly_shorter _ _ k Hnd Hincl H0 (Hdone _ _ H1)). lia.
  - apply Inv_set_pc; auto.
    destruct HI as [Hpc Hal _ _ _ _ _ _].
    unfold pc_ok in *. rewrite H in Hpc. simpl.
    destruct Hpc as (Hlen & Hle & _). split; [lia|].
    destruct (Hal _ _ H1) as (a & Ha & Hta).
    exists a. split; [eapply nth_error_In; eauto|].
    destruct Hta as [E|[E|[E|E]]]; inversion E; auto.
  - apply Inv_set_pc; auto.
    destruct HI as [Hpc Hal _ _ _ _ _ _].
    unfold pc_ok in *. rewrite H in Hpc. simpl. split; [lia|].
    destruct (Hal _ _ H0) as (a & Ha & Hta).
    exists a. split; [eapply nth_error_In; eauto|].
    destruct Hta as [E|[E|[E|E]]]; subst t; simpl in H1; congruence.
Qed.

Lemma reachable_Inv s : reachable s -> Inv s.
Proof.
  induction 1 as [|s s' _ IH Hstep]; [apply Inv_init | eauto using step_Inv].
Qed.

(** The tasks in flight never outnumber [cap limit]. *)
Lemma Inv_in_flight s : Inv s -> (in_flight s <= cap limit)%nat.
Proof.
  intros [Hpc Hal Hnd Hcap Hb Hact Hdone Hun].
  destruct (tracked limit arr) eqn:Htr.
  - transitivity (length (executing s)); auto.
    apply filter_length_le_indices.
    intros k t Hk Ht. apply (Hact eq_refl _ _ Hk).
    destruct t; auto; discriminate.
  - unfold tracked in Htr. apply Nat.leb_gt in Htr.
    transitivity (length (ret s)); [apply filter_length_le|].
    assert ((length (ret s) <= length arr)%nat).
    { unfold pc_ok in Hpc. destruct (pc s); lia. }
    unfold cap. lia.
Qed.

(** *** Every schedule ends *)

Lemma rank_set_nth k (t t0 : task A B) l :
  nth_error l k = Some t0 ->
  (list_sum (map (@rank A B) (set_nth k t l)) + rank t0
   = list_sum (map (@rank A B) l) + rank t)%nat.
Proof.
  revert k; induction l as [|x l IH]; intros [|k] H; simpl in *;
    try discriminate.
  - inversion H; subst. lia.
  - specialize (IH _ H). lia.
Qed.

Lemma step_measure s s' :
  Inv s -> step s s' -> (measure arr s' < measure arr s)%nat.
Proof.
  intros [Hpc _ _ _ _ _ _ _] Hstep; unfold pc_ok in Hpc.
  destruct Hstep; unfold measure; simpl;
    try (match goal with
         | H : nth_error (ret _) _ = Some ?t0 |- context [set_nth ?k ?t _] =>
             pose proof (rank_set_nth k t _ H) as Hr; simpl in Hr; lia
         end).
  - rewrite H in Hpc. destruct Hpc as (Hlen & Hle & _).
    assert (Hin : (i < length arr)%nat) by (apply nth_error_Some; congruence).
    unfold launch.
    destruct (tracked limit arr); simpl;
      [destruct (limit <=? _)%nat|]; simpl;
      rewrite map_app, list_sum_app; simpl; rewrite H; simpl; lia.
  - rewrite H in *. simpl. lia.
  - rewrite H. simpl. lia.
  - rewrite H. simpl. lia.
  - rewrite H. simpl. lia.
Qed.

Lemma find_task_Some p (l : list (task A B)) off k t :
  find_task p l off = Some (k, t) ->
  exists j, k = (off + j)%nat /\ nth_error l j = Some t /\ p t = true.
Proof.
  revert off; induction l as [|x l IH]; intros off; simpl; [discriminate|].
  destruct (p x) eqn:Hp.
  - intros E; inversion E; subst. exists 0%nat. repeat split; auto; lia.
  - intros E. destruct (IH _ E) as (j & -> & Hj & Ht).
    exists (S j). repeat split; auto; lia.
Qed.

Lemma find_task_None p (l : list (task A B)) off :
  find_task p l off = None -> forall t, In t l -> p t = false.
Proof.
  revert off; induction l as [|x l IH]; intros off; simpl; [tauto|].
  destruct (p x) eqn:Hp; [discriminate|].
  intros E t [<-|Ht]; eauto.
Qed.

Lemma find_task_0 p (l : list (task A B)) k t :
  find_task p l 0 = Some (k, t) -> nth_error l k = Some t /\ p t = true.
Proof.
  intros H. apply find_task_Some in H. destruct H as (j & -> & ? & ?). auto.
Qed.

Lemma orelse_Some T (a b : option T) x :
  orelse a b = Some x -> a = Some x \/ b = Some x.
Proof. destruct a; simpl; auto. Qed.

Lemma orelse_None T (a b : option T) :
  orelse a b = None -> a = None /\ b = None.
Proof. destruct a; simpl; auto; discriminate. Qed.

(** The schedule [next] takes steps of the pool. *)
Lemma next_reaction_step s s' : next_reaction limit arr s = Some s' -> step s s'.
Proof.
  unfold next_reaction. intros H.
  destruct (find_task (@is_scheduled A B) (ret s) 0) as [[k t]|] eqn:F.
  - apply find_task_0 in F. destruct F as [Hk Ht].
    destruct t; try discriminate. inversion H; subst.
    now apply step_start.
  - destruct (tracked limit arr) eqn:Htr; [|discriminate].
    destruct (find_task (@is_settled A B) (ret s) 0) as [[k t]|] eqn:G;
      [|discriminate].
    apply find_task_0 in G. destruct G as [Hk Ht].
    destruct t as [| |[v|e]|]; try discriminate; inversion H; subst.
    + now apply step_detach.
    + now apply step_e_rejects.
Qed.

Lemma next_wake_step s s' : next_wake s = Some s' -> step s s'.
Proof.
  unfold next_wake. intros H.
  destruct (pc s) as [i|i snap| |e] eqn:Hpc; try discriminate.
  - destruct (find (is_finished_at (ret s)) snap) as [k|] eqn:F;
      [|discriminate].
    apply find_some in F. destruct F as [Hin Hf].
    destruct (nth_error (ret s) k) as [[| | |[v|e]]|] eqn:Hk;
      try discriminate; inversion H; subst.
    + eapply step_wake; eauto.
    + eapply step_race_rejects; eauto.
  - destruct (find_task (@is_rejected A B) (ret s) 0) as [[k t]|] eqn:F;
      [|discriminate].
    apply find_task_0 in F. destruct F as [Hk Ht].
    destruct t as [| |[v|e]|[v|e]]; try discriminate;
      inversion H; subst; eapply step_all_rejects; eauto; reflexivity.
Qed.

Lemma next_completion_step s s' :
  next_completion fn s = Some s' -> step s s'.
Proof.
  unfold next_completion. intros H.
  destruct (find_task (@is_running A B) (ret s) 0) as [[k t]|] eqn:F;
    [|discriminate].
  apply find_task_0 in F. destruct F as [Hk Ht].
  destruct t; try discriminate. inversion H; subst.
  now apply step_settle.
Qed.

Lemma next_step s s' : next limit arr fn s = Some s' -> step s s'.
Proof.
  unfold next. intros H.
  assert (Hrest :
    orelse (next_reaction limit arr s)
      (orelse (next_wake s) (next_completion fn s)) = Some s' ->
    step s s').
  { intros H'. apply orelse_Some in H'. destruct H' as [H'|H'].
    - now apply next_reaction_step.
    - apply orelse_Some in H'. destruct H' as [H'|H'].
      + now apply next_wake_step.
      + now apply next_completion_step. }
  destruct (pc s) as [i|i snap| |e] eqn:Hpc; auto.
  destruct (nth_error arr i) eqn:Hi; inversion H; subst.
  - now apply step_launch.
  - eapply step_return; eauto.
Qed.

Lemma all_values_Some (l : list (task A B)) :
  (forall t, In t l ->
     is_scheduled t = false /\ is_running t = false /\ is_rejected t = false) ->
  exists vs, all_values l = Some vs.
Proof.
  induction l as [|t l IH]; intros H; simpl; [eauto|].
  destruct IH as (vs & ->); [intros; apply H; now right|].
  destruct (H t (or_introl eq_refl)) as (H1 & H2 & H3).
  destruct t as [a|a|[v|e]|[v|e]]; simpl in *; try discriminate; eauto.
Qed.

(** The schedule [next] stops only once [asyncPool] has settled. *)
Lemma next_None_settled s :
  Inv s -> next limit arr fn s = None -> exists r, pool_result s = Some r.
Proof.
  intros [Hpc Hal _ _ _ _ _ _] H. unfold next in H. unfold pc_ok in Hpc.
  unfold pool_result.
  destruct (pc s) as [i|i snap| |e] eqn:Epc.
  - destruct (nth_error arr i); discriminate.
  - exfalso.
    apply orelse_None in H. destruct H as [Hr H].
    apply orelse_None in H. destruct H as [Hw Hc].
    destruct Hpc as (_ & _ & Htr & Hne & _ & _ & Hlt).
    unfold next_reaction in Hr. rewrite Htr in Hr.
    destruct (find_task (@is_scheduled A B) (ret s) 0) as [[k t]|] eqn:F.
    { apply find_task_0 in F. destruct F as [_ Ht].
      destruct t; discriminate. }
    destruct (find_task (@is_settled A B) (ret s) 0) as [[k t]|] eqn:G.
    { apply find_task_0 in G. destruct G as [_ Ht].
      destruct t as [| |[v|e]|]; discriminate. }
    unfold next_completion in Hc.
    destruct (find_task (@is_running A B) (ret s) 0) as [[k t]|] eqn:R.
    { apply find_task_0 in R. destruct R as [_ Ht].
      destruct t; discriminate. }
    destruct snap as [|k snap]; [congruence|].
    assert (Hk : (k < length (ret s))%nat) by (apply Hlt; now left).
    apply nth_error_Some in Hk.
    destruct (nth_error (ret s) k) as [t|] eqn:Ek; [|congruence].
    pose proof (nth_error_In _ _ Ek) as Hin.
    pose proof (find_task_None _ _ _ F _ Hin) as H1.
    pose proof (find_task_None _ _ _ G _ Hin) as H2.
    pose proof (find_task_None _ _ _ R _ Hin) as H3.
    unfold next_wake in Hw. rewrite Epc in Hw.
    destruct (find (is_finished_at (ret s)) (k :: snap)) as [j|] eqn:Fj.
    + apply find_some in Fj. destruct Fj as [_ Hf].
      unfold is_finished_at in Hf.
      destruct (nth_error (ret s) j) as [[| | |[v|e]]|]; discriminate.
    + apply find_none with (x := k) in Fj; [|now left].
      unfold is_finished_at in Fj. rewrite Ek in Fj.
      destruct t; discriminate.
  - apply orelse_None in H. destruct H as [Hr H].
    apply orelse_None in H. destruct H as [Hw Hc].
    destruct (@all_values_Some (ret s)) as (vs & ->); [|simpl; eauto].
    intros t Hin.
    unfold next_reaction in Hr.
    destruct (find_task (@is_scheduled A B) (ret s) 0) as [[k t']|] eqn:F.
    { apply find_task_0 in F. destruct F as [_ Ht].
      destruct t'; discriminate. }
    unfold next_completion in Hc.
    destruct (find_task (@is_running A B) (ret s) 0) as [[k t']|] eqn:R.
    { apply find_task_0 in R. destruct R as [_ Ht].
      destruct t'; discriminate. }
    unfold next_wake in Hw. rewrite Epc in Hw.
    destruct (find_task (@is_rejected A B) (ret s) 0) as [[k t']|] eqn:J.
    { apply find_task_0 in J. destruct J as [_ Ht].
      destruct t' as [| |[v|e]|[v|e]]; discriminate. }
    repeat split; eapply find_task_None; eauto.
  - eauto.
Qed.

Lemma run_steps fuel s : steps limit arr fn s (run limit arr fn fuel s).
Proof.
  revert s; induction fuel as [|fuel IH]; intros s; simpl;
    [constructor|].
  destruct (next limit arr fn s) as [s'|] eqn:E; [|constructor].
  econstructor; [apply next_step; eauto | apply IH].
Qed.

Lemma steps_reachable s s' :
  reachable s -> steps limit arr fn s s' -> reachable s'.
Proof.
  intros Hr Hs; induction Hs; auto.
  apply IHHs. econstructor; eauto.
Qed.

Lemma run_stops fuel s :
  Inv s -> (measure arr s < fuel)%nat ->
  next limit arr fn (run limit arr fn fuel s) = None.
Proof.
  revert s; induction fuel as [|fuel IH]; intros s HI Hm; [lia|].
  simpl. destruct (next limit arr fn s) as [s'|] eqn:E; auto.
  apply next_step in E.
  apply IH; [eapply step_Inv; eauto|].
  pose proof (step_measure HI E). lia.
Qed.

(** From any state the pool reaches, the promise of [asyncPool] can still
    settle, and it does under every schedule, for no schedule is longer
    than [measure]. *)
Lemma reachable_settles s :
  reachable s ->
  exists s' r, steps limit arr fn s s' /\ pool_result s' = Some r.
Proof.
  intros Hr.
  exists (run limit arr fn (S (measure arr s)) s).
  destruct (@next_None_settled (run limit arr fn (S (measure arr s)) s))
    as (r & Hres).
  - apply reachable_Inv. eapply steps_reachable; eauto. apply run_steps.
  - apply run_stops; [now apply reachable_Inv | lia].
  - exists r. split; auto. apply run_steps.
Qed.

(** *** What [asyncPool] settles to *)

Lemma all_values_aligned (l : list (task A B)) vs off :
  (forall k t, nth_error l k = Some t ->
     exists a, nth_error arr (off + k) = Some a /\ task_for a t) ->
  all_values l = Some vs ->
  Forall2 (fun a v => fn a = Ok v) (firstn (length l) (skipn off arr)) vs.
Proof.
  revert vs off; induction l as [|t l IH]; intros vs off Hal Hv; simpl in *.
  - inversion Hv; subst. constructor.
  - destruct (task_result t) as [[v|e]|] eqn:Et; try discriminate.
    destruct (all_values l) as [vs'|] eqn:El; [|discriminate].
    inversion Hv; subst vs.
    destruct (Hal 0%nat t eq_refl) as (a & Ha & Hta).
    rewrite Nat.add_0_r in Ha.
    assert (Hsk : skipn off arr = a :: skipn (S off) arr).
    { clear - Ha. revert off Ha. induction arr as [|x l' IH']; intros [|off] H;
        simpl in *; try discriminate.
      - now inversion H.
      - now apply IH'. }
    rewrite Hsk. cbn [length firstn]. constructor.
    + destruct Hta as [E|[E|[E|E]]]; subst t; simpl in Et; congruence.
    + apply (IH vs' (S off)); auto. intros k t' Hk.
      destruct (Hal (S k) t' Hk) as (a' & Ha' & Hta').
      exists a'. split; auto. rewrite <- Ha'. f_equal. lia.
Qed.

Lemma Inv_result_Ok s vs :
  Inv s -> pool_result s = Some (Ok vs) ->
  Forall2 (fun a v => fn a = Ok v) arr vs.
Proof.
  intros [Hpc Hal _ _ _ _ _ _] H. unfold pool_result, pc_ok in *.
  destruct (pc s); try discriminate.
  destruct (all_values (ret s)) as [vs'|] eqn:E; inversion H; subst.
  pose proof (@all_values_aligned (ret s) vs 0 Hal E) as HF.
  rewrite Hpc in HF. simpl in HF. now rewrite firstn_all in HF.
Qed.

Lemma Inv_result_Throw s e :
  Inv s -> pool_result s = Some (Throw e) ->
  exists a, In a arr /\ fn a = Throw e.
Proof.
  intros [Hpc _ _ _ _ _ _ _] H. unfold pool_result, pc_ok in *.
  destruct (pc s); try discriminate.
  - destruct (all_values (ret s)); discriminate.
  - inversion H; subst. tauto.
Qed.

Lemma measure_init : measure arr (init A B) = (6 * length arr + 2)%nat.
Proof. unfold measure. simpl. lia. Qed.

(** [asyncPool] settles. *)
Lemma asyncPool_settles : exists r, asyncPool limit arr fn = Some r.
Proof.
  unfold asyncPool. apply next_None_settled.
  - apply reachable_Inv. eapply steps_reachable; [constructor|].
    apply run_steps.
  - apply run_stops; [apply Inv_init|]. rewrite measure_init. lia.
Qed.

Lemma asyncPool_reachable :
  reachable (run limit arr fn (6 * length arr + 3) (init A B)).
Proof. eapply steps_reachable; [constructor | apply run_steps]. Qed.
End PoolFacts.

Lemma Forall2_Ok_map A B (f : A -> B) (arr : list A) vs :
  Forall2 (fun a v => @Ok B (f a) = Ok v) arr vs -> vs = map f arr.
Proof.
  induction 1 as [|a v arr vs E _ IH]; simpl; auto.
  inversion E; subst. reflexivity.
Qed.

(** A function that always fulfils: the pool returns its values in the
    order of [arr]. *)
Lemma asyncPool_map A B (limit : nat) (arr : list A) (f : A -> B) :
  asyncPool limit arr (fun a => Ok (f a)) = Some (Ok (map f arr)).
Proof.
  destruct (asyncPool_settles limit arr (fun a => Ok (f a))) as (r & Hr).
  rewrite Hr. f_equal.
  pose proof (reachable_Inv (asyncPool_reachable limit arr (fun a => Ok (f a))))
    as HI.
  destruct r as [vs|e].
  - f_equal. apply Forall2_Ok_map. eapply Inv_result_Ok; eauto.
  - destruct (Inv_result_Throw HI Hr) as (a & _ & E). discriminate.
Qed.

Lemma asyncPool_values A B (limit : nat) (arr : list A) (fn : A -> result B)
  (f : A -> B) :
  (forall a, In a arr -> fn a = Ok (f a)) ->
  asyncPool limit arr fn = Some (Ok (map f arr)).
Proof.
  intros Hf.
  destruct (asyncPool_settles limit arr fn) as (r & Hr).
  rewrite Hr. f_equal.
  pose proof (reachable_Inv (asyncPool_reachable limit arr fn)) as HI.
  destruct r as [vs|e].
  - f_equal. pose proof (Inv_result_Ok HI Hr) as HF.
    clear - HF Hf. induction HF as [|a v arr vs E _ IH]; simpl; auto.
    rewrite Hf in E by now left. inversion E; subst.
    f_equal. apply IH. intros; apply Hf; now right.
  - destruct (Inv_result_Throw HI Hr) as (a & Ha & E).
    rewrite Hf in E by auto. discriminate.
Qed.

(** C10. For every limit, array and function, [asyncPool(limit, arr, fn)]
    settles; whenever it is fulfilled, under any schedule, its value has the
    length of [arr] and holds at each position the value [fn] gave for the
    item at that position; it is rejected only with the error of a call of
    [fn] that was rejected; so when every call fulfils the value is the
    array of the results, in the order of [arr], whatever the order in
    which the calls complete. *)
Theorem asyncPool_aligned A B (limit : nat) (arr : list A)
  (fn : A -> result B) :
  (exists r, asyncPool limit arr fn = Some r)
  /\ (forall s vs, reachable limit arr fn s -> pool_result s = Some (Ok vs) ->
      length vs = length arr
      /\ forall i a, nth_error arr i = Some a ->
         exists v, nth_error vs i = Some v /\ fn a = Ok v)
  /\ (forall s e, reachable limit arr fn s -> pool_result s = Some (Throw e) ->
      exists a, In a arr /\ fn a = Throw e)
  /\ (forall s, reachable limit arr fn s ->
      exists s' r, steps limit arr fn s s' /\ pool_result s' = Some r)
  /\ (forall f, (forall a, In a arr -> fn a = Ok (f a)) ->
      asyncPool limit arr fn = Some (Ok (map f arr))).
Proof.
  split; [apply asyncPool_settles|].
  split; [|split; [|split]].
  - intros s vs Hr Hres.
    pose proof (Inv_result_Ok (reachable_Inv Hr) Hres) as HF.
    split; [symmetry; eapply Forall2_length; eauto|].
    clear - HF. induction HF as [|a v arr vs E _ IH]; intros [|i] a' Hi;
      simpl in *; try discriminate.
    + inversion Hi; subst. eauto.
    + eauto.
  - intros s e Hr Hres. eapply Inv_result_Throw; eauto using reachable_Inv.
  - intros s Hr. now apply reachable_settles.
  - intros f Hf. now apply asyncPool_values.
Qed.

(** The pool on three items, two at a time. *)
Lemma asyncPool_aligned_witness :
  asyncPool 2 [1; 2; 3]%nat (fun a => Ok (10 * a)%nat)
  = Some (Ok [10; 20; 30]%nat).
Proof.
  exact (proj2 (proj2 (proj2 (proj2
           (asyncPool_aligned 2 [1; 2; 3]%nat (fun a => Ok (10 * a)%nat)))))
           (fun a => 10 * a)%nat (fun a _ => eq_refl)).
Defined.

(** C8. While the enriching script runs its pool, at most
    [ENRICH_CONCURRENCY] calls of [enrichOne], hence at most that many page
    requests, are in flight, whatever the candidates and whatever the order
    in which the requests complete; and the bound is reached: with at least
    [ENRICH_CONCURRENCY] candidates that many are in flight together, with
    fewer all of them are. *)
Theorem enrichment_concurrency_bounded A B (arr : list A)
  (fn : A -> result B) :
  let limit := Enrich.ENRICH_CONCURRENCY Enrich.config in
  (forall s, reachable limit arr fn s -> (in_flight s <= limit)%nat)
  /\ (exists s, reachable limit arr fn s
               /\ in_flight s = Nat.min limit (length arr)).
Proof.
  intros limit. split.
  - intros s Hr. apply (Inv_in_flight (reachable_Inv Hr)).
  - subst limit.
    exists (run 4 arr fn (if (length arr <? 4)%nat
                          then 2 * length arr + 1 else 8)
              (init A B)).
    split.
    + eapply steps_reachable; [constructor | apply run_steps].
    + destruct arr as [|a [|b [|c [|d rest]]]]; reflexivity.
Qed.

(** Six candidates: after eight steps four are in flight, and no more. *)
Lemma enrichment_concurrency_witness :
  (in_flight
     (run 4 [1; 2; 3; 4; 5; 6]%nat (fun a => Ok a) 8 (init nat nat)) <= 4)%nat.
Proof.
  apply (enrichment_concurrency_bounded [1; 2; 3; 4; 5; 6]%nat (fun a => Ok a)).
  eapply steps_reachable; [constructor | apply run_steps].
Defined.

(* ================================================================= *)
(** ** Sorting by recency *)

Lemma insert_perm T (cmp : T -> T -> Z) x l :
  Permutation (insert cmp x l) (x :: l).
Proof.
  induction l as [|y l IH]; simpl; auto.
  destruct (cmp x y <=? 0); auto.
  rewrite IH. apply perm_swap.
Qed.

Lemma Array_sort_perm T (cmp : T -> T -> Z) l :
  Permutation (Array_sort cmp l) l.
Proof.
  induction l as [|x l IH]; simpl; auto.
  rewrite insert_perm. now constructor.
Qed.

Lemma insert_descending x l :
  descending l -> descending (insert by_recency x l).
Proof.
  unfold descending. induction l as [|y l IH]; intros H; simpl.
  - repeat constructor.
  - inversion H as [|? ? Hl Hy]; subst.
    rewrite by_recency_eq.
    destruct (Z.leb_spec (publishedTs y - publishedTs x) 0) as [Hle|Hgt].
    + constructor; auto. constructor; [lia|].
      eapply Forall_impl; [|exact Hy]. simpl. intros; lia.
    + constructor; auto.
      eapply Permutation_Forall; [symmetry; apply insert_perm|].
      constructor; auto. lia.
Qed.

Lemma Array_sort_descending l : descending (Array_sort by_recency l).
Proof.
  induction l as [|x l IH]; simpl; [constructor|].
  now apply insert_descending.
Qed.

(** The sort is stable: it keeps the order of the items of each
    timestamp. *)
Lemma insert_filter k x l :
  filter (has_ts k) (insert by_recency x l) = filter (has_ts k) (x :: l).
Proof.
  induction l as [|y l IH]; simpl; auto.
  rewrite by_recency_eq.
  destruct (Z.leb_spec (publishedTs y - publishedTs x) 0) as [Hle|Hgt]; auto.
  simpl. rewrite IH. simpl. unfold has_ts.
  destruct (Z.eqb_spec (publishedTs x) k), (Z.eqb_spec (publishedTs y) k);
    auto; lia.
Qed.

Lemma Array_sort_filter k l :
  filter (has_ts k) (Array_sort by_recency l) = filter (has_ts k) l.
Proof.
  induction l as [|x l IH]; simpl; auto.
  rewrite insert_filter. simpl. now rewrite IH.
Qed.

Lemma Array_sort_descending_id l :
  descending l -> Array_sort by_recency l = l.
Proof.
  unfold descending. induction l as [|x l IH]; intros H; simpl; auto.
  inversion H as [|? ? Hl Hx]; subst. rewrite IH by auto.
  destruct l as [|y l]; simpl; auto.
  rewrite by_recency_eq. inversion Hx; subst.
  destruct (Z.leb_spec (publishedTs y - publishedTs x) 0); auto. lia.
Qed.

Lemma filter_firstn_prefix T (p : T -> bool) n (l : list T) :
  is_prefix (filter p (firstn n l)) (filter p l).
Proof.
  exists (filter p (skipn n l)).
  rewrite <- filter_app. now rewrite firstn_skipn.
Qed.

Lemma descending_firstn n l : descending l -> descending (firstn n l).
Proof.
  unfold descending. revert n; induction l as [|x l IH]; intros [|n] H;
    simpl; try constructor.
  - inversion H; subst. auto.
  - inversion H as [|? ? _ Hx]; subst.
    rewrite Forall_forall in *. intros y Hy. apply Hx.
    rewrite <- (firstn_skipn n l). apply in_or_app. now left.
Qed.

(** In a ranking, what follows an item without a timestamp has no
    positive timestamp, and what precedes it has no negative one. *)
Lemma descending_zero l l1 x l2 y l3 :
  descending l -> l = l1 ++ x :: l2 ++ y :: l3 ->
  (publishedTs x = 0 -> publishedTs y <= 0)
  /\ (publishedTs y = 0 -> 0 <= publishedTs x).
Proof.
  unfold descending. intros H ->.
  assert (Hxy : publishedTs y <= publishedTs x).
  { clear - H. induction l1 as [|z l1 IH]; simpl in H.
    - inversion H as [|? ? _ Hx]; subst.
      rewrite Forall_forall in Hx. apply Hx.
      apply in_or_app. right. now left.
    - inversion H; subst. auto. }
  lia.
Qed.

(* ================================================================= *)
(** ** Deduplication by link *)

Lemma Map_set_fresh V (m : Map V) k v :
  Map_has m k = false -> Map_set m k v = m ++ [(k, v)].
Proof.
  induction m as [|e m IH]; simpl; auto.
  destruct (jsstring_eqb (fst e) k); simpl; [discriminate|].
  intros H. now rewrite IH.
Qed.

Lemma Map_has_app V (m1 m2 : Map V) k :
  Map_has (m1 ++ m2) k = Map_has m1 k || Map_has m2 k.
Proof. unfold Map_has. apply existsb_app. Qed.

Lemma byLink_snoc l x :
  byLink (l ++ [x]) =
    if Map_has (byLink l) (link x) then byLink l
    else byLink l ++ [(link x, x)].
Proof.
  unfold byLink. rewrite fold_left_app. simpl.
  destruct (Map_has _ (link x)) eqn:E; simpl; auto.
  now apply Map_set_fresh.
Qed.

Lemma byLink_has l k : Map_has (byLink l) k = existsb (same_link k) l.
Proof.
  induction l as [|x l IH] using rev_ind; [reflexivity|].
  rewrite byLink_snoc, existsb_app. simpl. rewrite orb_false_r.
  destruct (Map_has (byLink l) (link x)) eqn:E.
  - rewrite IH. destruct (same_link k x) eqn:S.
    + unfold same_link in S. apply jsstring_eqb_eq in S. subst k.
      rewrite <- IH, E. reflexivity.
    + now rewrite orb_false_r.
  - rewrite Map_has_app, IH. unfold Map_has, same_link. simpl.
    now rewrite orb_false_r.
Qed.

(** The entries of the map, one turn of the loop later. *)
Lemma dedupe_snoc l x :
  dedupe (l ++ [x]) =
    if existsb (same_link (link x)) l then dedupe l else dedupe l ++ [x].
Proof.
  unfold dedupe. rewrite byLink_snoc, byLink_has.
  destruct (existsb _ l); auto.
  unfold Map_values. now rewrite map_app.
Qed.

Lemma dedupe_incl l it : In it (dedupe l) -> In it l.
Proof.
  induction l as [|x l IH] using rev_ind; [simpl; tauto|].
  rewrite dedupe_snoc. intros H. apply in_or_app.
  destruct (existsb _ l); auto.
  apply in_app_or in H. destruct H as [H|[<-|[]]]; auto.
  right; now left.
Qed.

Lemma existsb_same_link k l :
  existsb (same_link k) l = true <-> In k (map link l).
Proof.
  rewrite existsb_exists, in_map_iff. unfold same_link.
  split; intros (x & H1 & H2).
  - apply jsstring_eqb_eq in H2. eauto.
  - exists x. split; auto. now apply jsstring_eqb_eq.
Qed.

Lemma dedupe_links l k : In k (map link (dedupe l)) <-> In k (map link l).
Proof.
  induction l as [|x l IH] using rev_ind; [reflexivity|].
  rewrite dedupe_snoc, !map_app, in_app_iff. simpl.
  destruct (existsb _ l) eqn:E.
  - rewrite IH. apply -> existsb_same_link in E.
    split; [tauto|]. intros [H|[<-|[]]]; auto.
  - rewrite map_app, in_app_iff, IH. simpl. tauto.
Qed.

Lemma dedupe_NoDup l : NoDup (map link (dedupe l)).
Proof.
  induction l as [|x l IH] using rev_ind; [constructor|].
  rewrite dedupe_snoc. destruct (existsb _ l) eqn:E; auto.
  rewrite map_app. simpl. apply NoDup_app; auto.
  - constructor; [tauto | constructor].
  - intros k Hk [<-|[]]. apply -> dedupe_links in Hk.
    apply <- existsb_same_link in Hk. congruence.
Qed.

Lemma find_snoc T (p : T -> bool) l x :
  find p (l ++ [x]) =
    match find p l with
    | Some y => Some y
    | None => if p x then Some x else None
    end.
Proof.
  induction l as [|y l IH]; simpl; auto.
  destruct (p y); auto.
Qed.

Lemma find_existsb_false T (p : T -> bool) l :
  existsb p l = false -> find p l = None.
Proof.
  induction l as [|y l IH]; simpl; auto.
  destruct (p y); simpl; [discriminate | auto].
Qed.

Lemma find_existsb_true T (p : T -> bool) l :
  existsb p l = true -> exists y, find p l = Some y.
Proof.
  induction l as [|y l IH]; simpl; [discriminate|].
  destruct (p y); simpl; eauto.
Qed.

(** An item is kept exactly when it is the first of its link. *)
Lemma dedupe_first l it :
  In it (dedupe l) <-> find (same_link (link it)) l = Some it.
Proof.
  induction l as [|x l IH] using rev_ind; [simpl; split; [tauto|discriminate]|].
  rewrite dedupe_snoc, find_snoc.
  destruct (existsb (same_link (link x)) l) eqn:E.
  - rewrite IH. destruct (find (same_link (link it)) l) eqn:F; [tauto|].
    split; [discriminate|]. intros H. exfalso.
    destruct (same_link (link it) x) eqn:S; [|discriminate].
    inversion H; subst x.
    apply find_existsb_true in E. destruct E as (y & Hy). congruence.
  - rewrite in_app_iff, IH. simpl.
    destruct (find (same_link (link it)) l) as [y|] eqn:F.
    + split; [intros [H|[<-|[]]]; auto|tauto].
      exfalso. apply find_some in F. destruct F as [Hin Hs].
      assert (existsb (same_link (link x)) l = true); [|congruence].
      apply existsb_exists. eauto.
    + split.
      * intros [H|[<-|[]]]; [discriminate|].
        unfold same_link. now rewrite jsstring_eqb_refl.
      * destruct (same_link (link it) x); [|discriminate].
        intros H; inversion H; auto.
Qed.
(* ================================================================= *)
(** ** Ingestion *)

Section IngestFacts.
Variable h : Host.
Variable w : World.
Variable mk : FeedSource -> RawItem -> option NewsItem.

Lemma ingest_feed_acc acc feed :
  ingest_feed h w mk acc feed =
    (fst acc ++ fst (ingest_feed h w mk ([], []) feed),
     snd acc ++ snd (ingest_feed h w mk ([], []) feed)).
Proof.
  unfold ingest_feed.
  destruct (snd (parseFeedFromUrl h w (feed_url feed)));
    cbn [fst snd app]; now rewrite ?app_nil_r.
Qed.

Lemma fold_ingest_acc feeds acc :
  fold_left (ingest_feed h w mk) feeds acc =
    (fst acc ++ fst (ingest h w mk feeds),
     snd acc ++ snd (ingest h w mk feeds)).
Proof.
  unfold ingest. revert acc.
  induction feeds as [|f feeds IH]; intros acc; simpl.
  - rewrite !app_nil_r. now destruct acc.
  - rewrite IH. rewrite (IH (ingest_feed h w mk ([], []) f)).
    rewrite (ingest_feed_acc acc f). simpl. now rewrite !app_assoc.
Qed.

Lemma ingest_app l1 l2 :
  ingest h w mk (l1 ++ l2) =
    (fst (ingest h w mk l1) ++ fst (ingest h w mk l2),
     snd (ingest h w mk l1) ++ snd (ingest h w mk l2)).
Proof.
  unfold ingest at 1. rewrite fold_left_app.
  fold (ingest h w mk l1). apply fold_ingest_acc.
Qed.

Lemma ingest_cons f l :
  ingest h w mk (f :: l) =
    (fst (ingest_feed h w mk ([], []) f) ++ fst (ingest h w mk l),
     snd (ingest_feed h w mk ([], []) f) ++ snd (ingest h w mk l)).
Proof. unfold ingest at 1. simpl. apply fold_ingest_acc. Qed.

Lemma ingest_feed_alone f :
  ingest_feed h w mk ([], []) f = (feed_pushed h w mk f, feed_errors h w f).
Proof.
  unfold ingest_feed, feed_pushed, feed_errors, feed_error, feed_outcome.
  destruct (snd (parseFeedFromUrl h w (feed_url f))) as [parsed|e];
    reflexivity.
Qed.

(** Each feed adds its items and its errors where it stands. *)
Lemma ingest_at pre f post :
  ingest h w mk (pre ++ f :: post) =
    (fst (ingest h w mk pre) ++ feed_pushed h w mk f
       ++ fst (ingest h w mk post),
     snd (ingest h w mk pre) ++ feed_errors h w f
       ++ snd (ingest h w mk post)).
Proof.
  rewrite ingest_app, ingest_cons, ingest_feed_alone. reflexivity.
Qed.

(** A feed that ends with an exception leaves one error, and the items
    pushed before it. *)
Lemma ingest_failed pre f post e :
  feed_error h w f = Some e ->
  ingest h w mk (pre ++ f :: post) =
    (fst (ingest h w mk pre) ++ feed_pushed h w mk f
       ++ fst (ingest h w mk post),
     snd (ingest h w mk pre) ++ ingest_error f e :: snd (ingest h w mk post)).
Proof.
  intros H. rewrite ingest_at. unfold feed_errors. now rewrite H.
Qed.

Lemma reached_before (before : list RawItem) (e : exn) (after : list Entry) :
  reached (map Obj before ++ Throws e :: after) = before
  /\ thrown (map Obj before ++ Throws e :: after) = Some e.
Proof.
  induction before as [|it before [IH1 IH2]]; [now split|].
  cbn [map app reached thrown]. now rewrite IH1, IH2.
Qed.

Lemma feed_items_flat_map f parsed :
  feed_items mk f parsed = flat_map (pushed_by mk f) (reached (entries parsed)).
Proof. reflexivity. Qed.
End IngestFacts.

Lemma ingest_ext h w mk1 mk2 feeds :
  (forall f it, In f feeds -> In it (parsed_items h w f) -> mk1 f it = mk2 f it) ->
  ingest h w mk1 feeds = ingest h w mk2 feeds.
Proof.
  induction feeds as [|f feeds IH]; intros H; [reflexivity|].
  rewrite !ingest_cons, IH by (intros; apply H; simpl; auto).
  assert (E : ingest_feed h w mk1 ([], []) f = ingest_feed h w mk2 ([], []) f).
  { unfold ingest_feed.
    assert (H' : forall it, In it (parsed_items h w f) -> mk1 f it = mk2 f it)
      by (intros; apply H; simpl; auto).
    unfold parsed_items in H'.
    destruct (snd (parseFeedFromUrl h w (feed_url f))) as [parsed|e]; auto.
    cbn [fst snd app]. f_equal. unfold feed_items.
    induction (reached (entries parsed)) as [|it l IHl]; simpl; auto.
    rewrite H' by (simpl; auto). f_equal.
    apply IHl. intros it' Hin. apply H'; simpl; auto. }
  now rewrite E.
Qed.

(** What the failures of [fetchXml] look like. *)
Lemma fetchXml_message w url res :
  http_get w (xml_request url) = Responds res -> ok res = false ->
  snd (fetchXml w url) =
    Throw (Error (u16 "Fetch failed " ++ show_Z (status res) ++ u16 " "
                  ++ statusText res ++ u16 " for " ++ url
                  ++ (if nonempty (body_or_empty res)
                      then u16 ": " ++ slice0 160 (body_or_empty res)
                      else []))).
Proof.
  intros Hget Hok. unfold fetchXml, net_bind, fetch. cbn [fst snd].
  rewrite Hget, Hok. reflexivity.
Qed.

Lemma fetchXml_rejects w url e :
  http_get w (xml_request url) = Rejects e -> snd (fetchXml w url) = Throw e.
Proof. intros H. unfold fetchXml, net_bind, fetch. simpl. now rewrite H. Qed.

Lemma parseFeedFromUrl_fetch_fails h w url e :
  snd (fetchXml w url) = Throw e -> snd (parseFeedFromUrl h w url) = Throw e.
Proof.
  intros H. unfold parseFeedFromUrl, net_bind. cbn [snd fst].
  now rewrite H.
Qed.

Lemma parseFeedFromUrl_parse_fails h w url xml e :
  snd (fetchXml w url) = Ok xml -> parseString h xml = Throw e ->
  snd (parseFeedFromUrl h w url) = Throw e.
Proof.
  intros H P. unfold parseFeedFromUrl, net_bind. cbn [snd fst].
  now rewrite H.
Qed.

(* ================================================================= *)
(** ** The enriching pipeline never fails *)

Lemma main_with_value c h w feeds :
  Enrich.main_with c h w feeds =
    Some (Ok {| generatedAt := now_iso w;
                total :=
                  length (firstn (Enrich.MAX_ITEMS c)
                            (Array_sort by_recency (enriched_ranking c h w feeds)));
                sources := feeds;
                errors := snd (ingest h w (Enrich.make_item h) feeds);
                items :=
                  firstn (Enrich.MAX_ITEMS c)
                    (Array_sort by_recency (enriched_ranking c h w feeds)) |}).
Proof.
  unfold Enrich.main_with. now rewrite asyncPool_map.
Qed.
(* ================================================================= *)
(** ** Enrichment of one item *)

Lemma enrich_image_identity h html item :
  same_identity item (Enrich.enrich_image h html item)
  /\ published (Enrich.enrich_image h html item) = published item
  /\ publishedTs (Enrich.enrich_image h html item) = publishedTs item.
Proof.
  unfold Enrich.enrich_image, same_identity.
  destruct (_ && _); simpl; repeat split; reflexivity.
Qed.

Lemma enrich_date_identity h html item :
  same_identity item (Enrich.enrich_date h html item)
  /\ image (Enrich.enrich_date h html item) = image item.
Proof.
  unfold Enrich.enrich_date, same_identity.
  destruct (negb _); simpl; repeat split; reflexivity.
Qed.

Lemma same_identity_refl a : same_identity a a.
Proof. unfold same_identity. repeat split; reflexivity. Qed.

Lemma same_identity_trans a b c :
  same_identity a b -> same_identity b c -> same_identity a c.
Proof.
  unfold same_identity.
  intros (?&?&?&?&?&?&?) (?&?&?&?&?&?&?). repeat split; congruence.
Qed.

Lemma enrichOne_page h w item :
  snd (Enrich.enrichOne h w item) =
    let needsImage :=
      negb (nonempty (image item)) || Enrich.isJunkImage (image item) in
    let needsDate := publishedTs item =? 0 in
    if negb needsImage && negb needsDate then item
    else match snd (Enrich.fetchText w (link item)) with
         | Ok html =>
             let item1 :=
               if needsImage then Enrich.enrich_image h html item else item in
             if needsDate then Enrich.enrich_date h html item1 else item1
         | Throw _ => item
         end.
Proof.
  unfold Enrich.enrichOne. cbv zeta.
  destruct (negb _ && negb _); [reflexivity|].
  unfold net_bind. cbn [snd fst].
  destruct (snd (Enrich.fetchText w (link item))); reflexivity.
Qed.

Lemma enrichOne_identity h w item :
  same_identity item (snd (Enrich.enrichOne h w item)).
Proof.
  rewrite enrichOne_page. cbv zeta.
  destruct (negb _ && negb _); [apply same_identity_refl|].
  destruct (snd (Enrich.fetchText w (link item))) as [html|e];
    [|apply same_identity_refl].
  destruct (negb (nonempty (image item)) || _), (publishedTs item =? 0);
    try apply same_identity_refl.
  - eapply same_identity_trans; [apply enrich_image_identity|].
    apply enrich_date_identity.
  - apply enrich_image_identity.
  - apply enrich_date_identity.
Qed.

Lemma enrichOne_link h w item :
  link (snd (Enrich.enrichOne h w item)) = link item.
Proof. symmetry. apply (enrichOne_identity h w item). Qed.

Lemma fetchText_requests w url : fst (Enrich.fetchText w url) = [url].
Proof.
  unfold Enrich.fetchText, net_bind, fetch. cbn [fst snd].
  destruct (http_get w (Enrich.text_request url)) as [e|res]; [reflexivity|].
  destruct (negb (ok res)); reflexivity.
Qed.

(** C5. [enrichOne] changes at most [image], [published] and
    [publishedTs]: [id], [title], [link], [sourceId], [sourceName],
    [categories] and [excerpt] are those of the item it was given. It
    requests nothing but the page of the item, at most once; and an item
    that has an image that is no junk and a timestamp other than [0] is
    returned as it is, with no request at all. *)
Theorem enrichOne_frame (h : Host) (w : World) (item : NewsItem) :
  same_identity item (snd (Enrich.enrichOne h w item))
  /\ (fst (Enrich.enrichOne h w item) = []
      \/ fst (Enrich.enrichOne h w item) = [link item])
  /\ (nonempty (image item) = true ->
      Enrich.isJunkImage (image item) = false ->
      publishedTs item <> 0 ->
      Enrich.enrichOne h w item = ([], item)).
Proof.
  split; [apply enrichOne_identity|]. split.
  - unfold Enrich.enrichOne. cbv zeta.
    destruct (negb _ && negb _); [now left|]. right.
    unfold net_bind. cbn [fst snd]. rewrite fetchText_requests.
    destruct (snd (Enrich.fetchText w (link item))); reflexivity.
  - intros Hi Hj Ht. unfold Enrich.enrichOne. cbv zeta.
    rewrite Hi, Hj. apply Z.eqb_neq in Ht. rewrite Ht. reflexivity.
Qed.

(** An item with a picture and a date: nothing is fetched for it. *)
Lemma enrichOne_frame_witness :
  let item :=
    {| id := u16 "1"; title := u16 "T"; link := u16 "https://n.example/a";
       published := Example.day2024; publishedTs := 1704067200000;
       sourceId := u16 "news"; sourceName := u16 "News"; categories := [];
       image := u16 "https://n.example/a.jpg"; excerpt := [] |} in
  Enrich.enrichOne Example.host Example.world item = ([], item).
Proof.
  intros item.
  apply (enrichOne_frame Example.host Example.world item);
    [reflexivity | reflexivity | discriminate].
Defined.

Lemma fetchText_rejects w url e :
  http_get w (Enrich.text_request url) = Rejects e -> snd (Enrich.fetchText w url) = Throw e.
Proof.
  intros H. unfold Enrich.fetchText, net_bind, fetch. cbn [fst snd].
  now rewrite H.
Qed.

Lemma fetchText_status w url res :
  http_get w (Enrich.text_request url) = Responds res -> ok res = false ->
  exists e, snd (Enrich.fetchText w url) = Throw e.
Proof.
  intros H Hok. unfold Enrich.fetchText, net_bind, fetch. cbn [fst snd].
  rewrite H, Hok. simpl. eauto.
Qed.

Lemma fetchText_body w url res :
  http_get w (Enrich.text_request url) = Responds res -> ok res = true ->
  snd (Enrich.fetchText w url) = body res.
Proof.
  intros H Hok. unfold Enrich.fetchText, net_bind, fetch. cbn [fst snd].
  rewrite H, Hok. reflexivity.
Qed.

Lemma enrichOne_fetch_fails h w item e :
  snd (Enrich.fetchText w (link item)) = Throw e ->
  snd (Enrich.enrichOne h w item) = item.
Proof.
  intros H. rewrite enrichOne_page. cbv zeta. rewrite H.
  destruct (negb _ && negb _); reflexivity.
Qed.

(** A page that names no image and no date changes nothing. *)
Lemma enrichOne_nothing_found h w item html :
  URL_parse h [] = None ->
  snd (Enrich.fetchText w (link item)) = Ok html ->
  Forall (fun key => Enrich.extractMeta html key = []) meta_keys ->
  snd (Enrich.enrichOne h w item) = item.
Proof.
  intros Hurl Hpage Hmeta. rewrite enrichOne_page. cbv zeta. rewrite Hpage.
  unfold meta_keys in Hmeta.
  repeat match goal with
         | H : Forall _ (_ :: _) |- _ => inversion H; clear H; subst
         end.
  assert (Hn : Enrich.normalizeUrl h [] = []).
  { unfold Enrich.normalizeUrl.
    replace (Enrich.decodeUrlEntities (trim [])) with (@nil cu)
      by (vm_compute; reflexivity).
    now rewrite Hurl. }
  assert (Hi : forall it, Enrich.enrich_image h html it = it).
  { intros it. unfold Enrich.enrich_image.
    repeat match goal with H : Enrich.extractMeta _ _ = [] |- _ =>
             rewrite H; clear H end.
    unfold Enrich.absolutizeMaybe. cbn [str_or nonempty]. rewrite Hn.
    reflexivity. }
  assert (Hd : forall it, Enrich.enrich_date h html it = it).
  { intros it. unfold Enrich.enrich_date.
    repeat match goal with H : Enrich.extractMeta _ _ = [] |- _ =>
             rewrite H; clear H end.
    reflexivity. }
  repeat match goal with
         | |- context [if ?b then _ else _] => destruct b
         end; rewrite ?Hi, ?Hd; reflexivity.
Qed.

(** C6. When the page of an enrichment candidate cannot be fetched (the
    request is rejected, as on a timeout or an abort; the status is not a
    success; the body cannot be read) or the page read names no image and no
    date, [enrichOne] returns the item with every field as it was. Nothing of
    this reaches the payload's [errors], which are those of the ingestion,
    and [main] is fulfilled with the payload. *)
Theorem enrichment_failure_silent (h : Host) (w : World) (item : NewsItem) :
  (forall e, http_get w (Enrich.text_request (link item)) = Rejects e ->
     snd (Enrich.enrichOne h w item) = item)
  /\ (forall res,
        http_get w (Enrich.text_request (link item)) = Responds res ->
        ok res = false ->
        snd (Enrich.enrichOne h w item) = item)
  /\ (forall res e,
        http_get w (Enrich.text_request (link item)) = Responds res ->
        body res = Throw e -> snd (Enrich.enrichOne h w item) = item)
  /\ (forall html, URL_parse h [] = None ->
     snd (Enrich.fetchText w (link item)) = Ok html ->
     Forall (fun key => Enrich.extractMeta html key = []) meta_keys ->
     snd (Enrich.enrichOne h w item) = item)
  /\ (forall c feeds, exists p,
     Enrich.main_with c h w feeds = Some (Ok p)
     /\ errors p = snd (ingest h w (Enrich.make_item h) feeds)).
Proof.
  repeat split.
  - intros e H. eapply enrichOne_fetch_fails, fetchText_rejects; eauto.
  - intros res H Hok. destruct (fetchText_status _ _ H Hok) as (e & He).
    eapply enrichOne_fetch_fails; eauto.
  - intros res e H Hb. destruct (ok res) eqn:Hok.
    + eapply enrichOne_fetch_fails. rewrite (fetchText_body _ _ H Hok). eauto.
    + destruct (fetchText_status _ _ H Hok) as (e' & He).
      eapply enrichOne_fetch_fails; eauto.
  - intros html. apply enrichOne_nothing_found.
  - intros c feeds. rewrite main_with_value. eexists. split; reflexivity.
Qed.

(** The page of [d] times out, that of [c] answers 404, that of [b] has no
    metadata: the three items come back as they were. *)
Lemma enrichment_failure_witness :
  snd (Enrich.enrichOne Example.host Example.world
         (Example.bare "https://n.example/d"))
    = Example.bare "https://n.example/d"
  /\ snd (Enrich.enrichOne Example.host Example.world
            (Example.bare "https://n.example/c"))
    = Example.bare "https://n.example/c"
  /\ snd (Enrich.enrichOne Example.host Example.world
            (Example.bare "https://n.example/b"))
    = Example.bare "https://n.example/b".
Proof.
  split; [|split].
  - eapply (proj1 (enrichment_failure_silent Example.host Example.world
              (Example.bare "https://n.example/d"))). reflexivity.
  - eapply (proj1 (proj2 (enrichment_failure_silent Example.host Example.world
              (Example.bare "https://n.example/c")))); reflexivity.
  - eapply (proj1 (proj2 (proj2 (proj2
              (enrichment_failure_silent Example.host Example.world
                 (Example.bare "https://n.example/b")))))).
    + reflexivity.
    + reflexivity.
    + repeat constructor.
Defined.
(* ================================================================= *)
(** ** The two pipelines *)

Lemma In_firstn T n (l : list T) x : In x (firstn n l) -> In x l.
Proof.
  intros H. rewrite <- (firstn_skipn n l). apply in_or_app. now left.
Qed.

Lemma NoDup_map_firstn T U (f : T -> U) n (l : list T) :
  NoDup (map f l) -> NoDup (map f (firstn n l)).
Proof.
  intros H. rewrite <- (firstn_skipn n l), map_app in H.
  now apply NoDup_app_remove_r in H.
Qed.

Lemma enriched_ranking_links c h w feeds :
  map link (enriched_ranking c h w feeds) = map link (Enrich.ranked h w feeds).
Proof.
  unfold enriched_ranking. rewrite map_app, map_map.
  rewrite (map_ext _ link) by (intros; apply enrichOne_link).
  now rewrite <- map_app, firstn_skipn.
Qed.

Lemma enriched_ranking_In c h w feeds x :
  In x (enriched_ranking c h w feeds) ->
  exists it, In it (Enrich.ranked h w feeds)
             /\ (x = it \/ x = snd (Enrich.enrichOne h w it)).
Proof.
  unfold enriched_ranking. intros H. apply in_app_or in H.
  destruct H as [H|H].
  - apply in_map_iff in H. destruct H as (it & <- & Hin).
    exists it. split; [eapply In_firstn; eauto | now right].
  - exists x. split; [|now left].
    rewrite <- (firstn_skipn (Enrich.ENRICH_LIMIT c)). apply in_or_app.
    now right.
Qed.

Lemma ranked_In h w feeds it :
  In it (Enrich.ranked h w feeds) <->
  In it (dedupe (fst (ingest h w (Enrich.make_item h) feeds))).
Proof.
  unfold Enrich.ranked. split; apply Permutation_in;
    [|symmetry]; apply Array_sort_perm.
Qed.

(** Every item of the plain script's payload is an item kept by the
    deduplication. *)
Lemma BuildFeeds_items_In h w feeds x :
  In x (items (BuildFeeds.main h w feeds)) ->
  In x (dedupe (fst (ingest h w (BuildFeeds.make_item h) feeds))).
Proof.
  unfold BuildFeeds.main. cbn [items]. intros H. apply In_firstn in H.
  eapply Permutation_in; [apply Array_sort_perm | exact H].
Qed.

(** Every item of the enriching script's payload is an item kept by the
    deduplication, as it was or enriched. *)
Lemma Enrich_items_In c h w feeds p x :
  Enrich.main_with c h w feeds = Some (Ok p) -> In x (items p) ->
  exists it, In it (dedupe (fst (ingest h w (Enrich.make_item h) feeds)))
             /\ (x = it \/ x = snd (Enrich.enrichOne h w it)).
Proof.
  rewrite main_with_value. intros E; inversion E; subst p; clear E.
  cbn [items].
  intros H. apply In_firstn in H.
  apply (Permutation_in _ (Array_sort_perm _ _)) in H.
  apply enriched_ranking_In in H. destruct H as (it & Hin & Hx).
  exists it. split; auto. now apply ranked_In.
Qed.

(** C4. A feed that ends with an exception, be it in the fetch, in the
    parse or in the loop over its items, leaves exactly one error, and the
    ingestion goes on with the other feeds: the items and the errors are
    those of the feeds before, then what this feed pushed and its error,
    then those of the feeds after. When the fetch or the parse fails the
    feed pushed nothing. When the exception is thrown in the loop, at an
    element of [parsed.items], the items built from the elements before it
    stay, and nothing of the elements after it is built. Both scripts then
    complete: the payload carries these errors, and each of its items comes
    from one of the other feeds or is one this feed pushed. A status that is
    no success fails the fetch with a message that ends with the first 160
    code units of the body, if there is a body. *)
Theorem feed_failure_isolated (h : Host) (w : World)
  (pre post : list FeedSource) (f : FeedSource) (e : exn) :
  feed_error h w f = Some e ->
  (forall mk,
     ingest h w mk (pre ++ f :: post) =
       (fst (ingest h w mk pre) ++ feed_pushed h w mk f
          ++ fst (ingest h w mk post),
        snd (ingest h w mk pre) ++ ingest_error f e :: snd (ingest h w mk post)))
  /\ (forall e', feed_outcome h w f = Throw e' ->
        e' = e /\ forall mk, feed_pushed h w mk f = [])
  /\ (forall before e' after,
        feed_outcome h w f = Ok (Some (map Obj before ++ Throws e' :: after)) ->
        e' = e
        /\ forall mk, feed_pushed h w mk f = flat_map (pushed_by mk f) before)
  /\ (let mk := BuildFeeds.make_item h in
      let p := BuildFeeds.main h w (pre ++ f :: post) in
      errors p =
        snd (ingest h w mk pre) ++ ingest_error f e :: snd (ingest h w mk post)
      /\ forall x, In x (items p) ->
           In x (fst (ingest h w mk pre) ++ feed_pushed h w mk f
                   ++ fst (ingest h w mk post)))
  /\ (let mk := Enrich.make_item h in
      exists p,
        Enrich.main h w (pre ++ f :: post) = Some (Ok p)
        /\ errors p =
             snd (ingest h w mk pre) ++ ingest_error f e :: snd (ingest h w mk post)
        /\ forall x, In x (items p) ->
             exists it,
               In it (fst (ingest h w mk pre) ++ feed_pushed h w mk f
                        ++ fst (ingest h w mk post))
               /\ same_identity it x)
  /\ (forall res,
        http_get w (xml_request (feed_url f)) = Responds res ->
        ok res = false ->
        feed_outcome h w f = Throw e
        /\ e = Error (u16 "Fetch failed " ++ show_Z (status res) ++ u16 " "
                      ++ statusText res ++ u16 " for " ++ feed_url f
                      ++ (if nonempty (body_or_empty res)
                          then u16 ": " ++ slice0 160 (body_or_empty res)
                          else []))
        /\ (length (slice0 160 (body_or_empty res)) <= 160)%nat).
Proof.
  intros Hfail.
  split; [intros mk; now apply ingest_failed|].
  split; [|split; [|split; [|split]]].
  - intros e' Hout. unfold feed_error in Hfail. unfold feed_pushed.
    rewrite Hout in *. split; [congruence | reflexivity].
  - intros before e' after Hout. unfold feed_error in Hfail.
    unfold feed_pushed. rewrite Hout in *. cbn [entries] in Hfail.
    destruct (reached_before before e' after) as [Hr Ht].
    rewrite Ht in Hfail. split; [congruence|].
    intros mk. rewrite feed_items_flat_map. cbn [entries]. now rewrite Hr.
  - cbv zeta. split.
    + unfold BuildFeeds.main. cbn [errors].
      now rewrite ingest_failed with (e := e).
    + intros x Hx. apply BuildFeeds_items_In, dedupe_incl in Hx.
      now rewrite ingest_failed with (e := e) in Hx.
  - cbv zeta. unfold Enrich.main. rewrite main_with_value.
    eexists. split; [reflexivity|]. cbn [errors items]. split.
    + now rewrite ingest_failed with (e := e).
    + intros x Hx.
      destruct (@Enrich_items_In Enrich.config h w (pre ++ f :: post) _ x
                  (main_with_value _ _ _ _) Hx) as (it & Hin & Hit).
      apply dedupe_incl in Hin.
      rewrite ingest_failed with (e := e) in Hin by auto.
      exists it. split; auto.
      destruct Hit as [->| ->];
        [apply same_identity_refl | apply enrichOne_identity].
  - intros res Hget Hok.
    pose proof (fetchXml_message _ _ Hget Hok) as Hx.
    apply parseFeedFromUrl_fetch_fails with (h := h) in Hx.
    unfold feed_error, feed_outcome in *. rewrite Hx in Hfail.
    injection Hfail as <-.
    split; [exact Hx|]. split; [reflexivity | apply slice0_length].
Qed.

(** The feed [down] answers 500 between two feeds that work. *)
Lemma feed_failure_witness :
  map error (errors (BuildFeeds.main Example.host Example.world
                       [Example.news; Example.down; Example.emoji]))
  = [u16 "Fetch failed 500 Internal Server Error for https://down.example/feed: oops"].
Proof.
  pose proof (@feed_failure_isolated Example.host Example.world
                [Example.news] [Example.emoji] Example.down
                (Error (u16 "Fetch failed 500 Internal Server Error for https://down.example/feed: oops"))
                eq_refl) as H.
  destruct H as (_ & _ & _ & (H & _) & _). cbv zeta in H.
  change ([Example.news; Example.down; Example.emoji])
    with ([Example.news] ++ Example.down :: [Example.emoji]).
  rewrite H. reflexivity.
Defined.

(** The feed [broken] is fetched and parsed, and its second element is
    [null]: the exception is recorded, once, and the item built from the
    first element is in the payload of both scripts all the same, so the
    feed does not contribute zero items. *)
Lemma feed_failure_keeps_items :
  feed_error Example.host Example.world Example.broken
  = Some Example.null_read
  /\ map (fun x => (err_sourceId x, error x))
       (errors (BuildFeeds.main Example.host Example.world [Example.broken]))
     = [(u16 "broken",
         u16 "Cannot read properties of null (reading 'link')")]
  /\ map (fun x => (sourceId x, link x))
       (items (BuildFeeds.main Example.host Example.world [Example.broken]))
     = [(u16 "broken", u16 "https://b.example/1")]
  /\ option_map
       (fun r => match r with
                 | Ok p => (map err_sourceId (errors p),
                            map (fun x => (sourceId x, link x)) (items p))
                 | Throw _ => ([], [])
                 end)
       (Enrich.main Example.host Example.world [Example.broken])
     = Some ([u16 "broken"], [(u16 "broken", u16 "https://b.example/1")]).
Proof.
  split; [reflexivity|].
  split; [vm_compute; reflexivity|].
  split; vm_compute; reflexivity.
Qed.

Lemma BuildFeeds_items_NoDup h w feeds :
  NoDup (map link (items (BuildFeeds.main h w feeds))).
Proof.
  unfold BuildFeeds.main. cbn [items]. apply NoDup_map_firstn.
  eapply Permutation_NoDup; [|apply dedupe_NoDup].
  apply Permutation_map. symmetry. apply Array_sort_perm.
Qed.

Lemma ranked_NoDup h w feeds : NoDup (map link (Enrich.ranked h w feeds)).
Proof.
  unfold Enrich.ranked.
  eapply Permutation_NoDup; [|apply dedupe_NoDup].
  apply Permutation_map. symmetry. apply Array_sort_perm.
Qed.

Lemma Enrich_items_NoDup c h w feeds p :
  Enrich.main_with c h w feeds = Some (Ok p) -> NoDup (map link (items p)).
Proof.
  rewrite main_with_value. intros E; inversion E; subst p; clear E.
  cbn [items]. apply NoDup_map_firstn.
  eapply Permutation_NoDup;
    [apply Permutation_map; symmetry; apply Array_sort_perm|].
  rewrite enriched_ranking_links. apply ranked_NoDup.
Qed.

(** C2. The deduplication keeps, of the items of each link, the first in
    the order of ingestion, as it is, and drops the others: the links it
    keeps are pairwise distinct, every link ingested is kept, and an item is
    kept exactly when it is the first item of its link. This carries to the
    payloads: no two items of a payload have the same link, and each is the
    first ingested item of its link (enriched or not, in the enriching
    script, which changes neither link nor identity). *)
Theorem dedupe_first_wins (h : Host) (w : World) (feeds : list FeedSource)
  (c : Enrich.Config) :
  (forall l : list NewsItem,
     NoDup (map link (dedupe l))
     /\ (forall k, In k (map link (dedupe l)) <-> In k (map link l))
     /\ (forall it, In it (dedupe l) <->
                    find (same_link (link it)) l = Some it))
  /\ (let ingested := fst (ingest h w (BuildFeeds.make_item h) feeds) in
      let p := BuildFeeds.main h w feeds in
      NoDup (map link (items p))
      /\ forall x, In x (items p) ->
           find (same_link (link x)) ingested = Some x)
  /\ (let ingested := fst (ingest h w (Enrich.make_item h) feeds) in
      exists p,
        Enrich.main_with c h w feeds = Some (Ok p)
        /\ NoDup (map link (items p))
        /\ forall x, In x (items p) ->
             exists it,
               find (same_link (link x)) ingested = Some it
               /\ same_identity it x
               /\ (x = it \/ x = snd (Enrich.enrichOne h w it))).
Proof.
  split; [|split].
  - intros l. split; [apply dedupe_NoDup|].
    split; [apply dedupe_links | apply dedupe_first].
  - cbv zeta. split; [apply BuildFeeds_items_NoDup|].
    intros x Hx. now apply dedupe_first, BuildFeeds_items_In.
  - cbv zeta. eexists. split; [apply main_with_value|].
    split; [eapply Enrich_items_NoDup; apply main_with_value|].
    intros x Hx.
    destruct (@Enrich_items_In c h w feeds _ x (main_with_value _ _ _ _) Hx)
      as (it & Hin & Hit).
    exists it. apply dedupe_first in Hin.
    assert (Hid : same_identity it x).
    { destruct Hit as [->| ->];
        [apply same_identity_refl | apply enrichOne_identity]. }
    split; [|split]; auto.
    destruct Hid as (_ & _ & <- & _). exact Hin.
Qed.

(** C1, as the scripts have it. The items of a payload are in descending
    order of [publishedTs]: an item without a timestamp comes after every
    item with a positive one, and before every item with a negative one.
    The sort is stable. In the plain script items of equal timestamp keep
    the order of the deduplication. In the enriching script they keep the
    order of the array sorted last, which is the first ranking with its head
    enriched; the first ranking keeps, among items of equal timestamp, the
    order of the deduplication. *)
Theorem ranking_spec (h : Host) (w : World) (feeds : list FeedSource)
  (c : Enrich.Config) :
  (let merged := dedupe (fst (ingest h w (BuildFeeds.make_item h) feeds)) in
   let out := items (BuildFeeds.main h w feeds) in
   descending out
   /\ forall k, is_prefix (filter (has_ts k) out) (filter (has_ts k) merged))
  /\ (let merged := dedupe (fst (ingest h w (Enrich.make_item h) feeds)) in
      exists p,
        Enrich.main_with c h w feeds = Some (Ok p)
        /\ descending (items p)
        /\ (forall k, is_prefix (filter (has_ts k) (items p))
                        (filter (has_ts k) (enriched_ranking c h w feeds)))
        /\ (forall k, filter (has_ts k) (Enrich.ranked h w feeds)
                      = filter (has_ts k) merged))
  /\ (forall l l1 x l2 y l3,
        descending l -> l = l1 ++ x :: l2 ++ y :: l3 ->
        (publishedTs x = 0 -> publishedTs y <= 0)
        /\ (publishedTs y = 0 -> 0 <= publishedTs x)).
Proof.
  split; [|split].
  - cbv zeta. unfold BuildFeeds.main. cbn [items]. split.
    + apply descending_firstn, Array_sort_descending.
    + intros k. rewrite <- (Array_sort_filter k (dedupe _)).
      apply filter_firstn_prefix.
  - cbv zeta. eexists. split; [apply main_with_value|]. cbn [items].
    split; [apply descending_firstn, Array_sort_descending|].
    split.
    + intros k. rewrite <- (Array_sort_filter k (enriched_ranking _ _ _ _)).
      apply filter_firstn_prefix.
    + intros k. apply Array_sort_filter.
  - intros l l1 x l2 y l3 H E. eapply descending_zero; eauto.
Qed.

(** C1, the claim as stated fails. In the example world the feed [news]
    lists [a] (dated only on its page), [b] (dated 2024), [c] (dated 1960)
    and [d] (never dated). Both scripts put [d], which has no timestamp,
    before [c], which has one; and the enriching script puts [b] before [a],
    which now have the same timestamp, although [a] was ingested first. *)
Lemma ranking_counterexample :
  Example.brief (dedupe (fst (ingest Example.host Example.world
                                (Enrich.make_item Example.host) [Example.news])))
  = [ (u16 "https://n.example/a", 0);
      (u16 "https://n.example/b", 1704067200000);
      (u16 "https://n.example/c", -315619200000);
      (u16 "https://n.example/d", 0) ]
  /\ Example.brief (items (BuildFeeds.main Example.host Example.world [Example.news]))
  = [ (u16 "https://n.example/b", 1704067200000);
      (u16 "https://n.example/a", 0);
      (u16 "https://n.example/d", 0);
      (u16 "https://n.example/c", -315619200000) ]
  /\ ~ zeros_last (items (BuildFeeds.main Example.host Example.world [Example.news]))
  /\ exists p,
       Enrich.main Example.host Example.world [Example.news] = Some (Ok p)
       /\ Example.brief (items p)
          = [ (u16 "https://n.example/b", 1704067200000);
              (u16 "https://n.example/a", 1704067200000);
              (u16 "https://n.example/d", 0);
              (u16 "https://n.example/c", -315619200000) ]
       /\ ~ zeros_last (items p)
       /\ ~ ties_follow
              (dedupe (fst (ingest Example.host Example.world
                              (Enrich.make_item Example.host) [Example.news])))
              (items p).
Proof.
  split; [vm_compute; reflexivity|].
  split; [vm_compute; reflexivity|].
  split.
  - intros H.
    assert (E : exists b a d c,
               items (BuildFeeds.main Example.host Example.world [Example.news])
               = [b; a; d; c] /\ publishedTs d = 0 /\ publishedTs c <> 0).
    { vm_compute. do 4 eexists. split; [reflexivity|].
      split; [reflexivity | discriminate]. }
    destruct E as (b & a & d & c & E & Hd & Hc).
    apply Hc. apply (H [b; a] d [] c []); auto.
  - eexists. split; [vm_compute; reflexivity|].
    split; [vm_compute; reflexivity|]. split.
    + intros H. cbn [items] in H.
      match type of H with
      | zeros_last [?b; ?a; ?d; ?c] =>
          specialize (H [b; a] d [] c [] eq_refl eq_refl)
      end.
      vm_compute in H. discriminate.
    + intros H. specialize (H 1704067200000).
      vm_compute in H. discriminate.
Qed.
(* ================================================================= *)
(** ** The two scripts compared *)

Lemma normalizeUrl_clean h u :
  clean_url u -> Enrich.normalizeUrl h u = BuildFeeds.normalizeUrl h u.
Proof.
  intros [Ht Hd]. unfold Enrich.normalizeUrl, BuildFeeds.normalizeUrl.
  rewrite Ht, Hd. reflexivity.
Qed.

Lemma pickImage_clean h it :
  Forall clean_url (item_urls it) ->
  pickImage (Enrich.normalizeUrl h) it = pickImage (BuildFeeds.normalizeUrl h) it.
Proof.
  unfold item_urls. intros H.
  repeat match goal with
         | H : Forall _ (_ :: _) |- _ => inversion H; clear H; subst
         end.
  unfold pickImage. cbv zeta.
  repeat match goal with
         | |- context [if ?b then _ else _] => destruct b
         | |- context [match ?o with Some _ => _ | None => _ end] =>
             destruct o eqn:?
         end;
    try reflexivity; apply normalizeUrl_clean; auto;
    match goal with
    | E : bind ?m direct_url = Some ?u, C : clean_url (or_empty (bind ?m direct_url)) |- _ =>
        rewrite E in C; exact C
    end.
Qed.

Lemma make_item_plain h f it :
  plain_item h f it -> Enrich.make_item h f it = BuildFeeds.make_item h f it.
Proof.
  intros (Hurls & Hjunk & Hcat).
  unfold Enrich.make_item, BuildFeeds.make_item. cbv zeta.
  rewrite (pickImage_clean h Hurls), Hjunk.
  assert (Hlink : clean_url
            (or_empty (or_else (raw_link it) (or_else (raw_guid it) (Some []))))).
  { unfold item_urls in Hurls. now inversion Hurls. }
  rewrite (normalizeUrl_clean h Hlink).
  destruct (negb (nonempty _)); [reflexivity|].
  destruct Hcat as [-> | ->]; [reflexivity|].
  now rewrite andb_false_r.
Qed.

(** C9, as the scripts have it. The two scripts differ in more than
    enrichment and entity decoding: the enriching one also trims a URL
    before it parses it, blanks a junk image, and drops the items of the
    feed [mondosonoro] that lack the category [discos]. With no item
    eligible for enrichment ([ENRICH_LIMIT] at [0]), the same output size,
    and on feeds all of whose raw items are plain in these respects, the
    two scripts write the same payload: same items, same order, same
    errors. *)
Theorem variants_agree (h : Host) (w : World) (feeds : list FeedSource)
  (c : Enrich.Config) :
  Enrich.ENRICH_LIMIT c = 0%nat ->
  Enrich.MAX_ITEMS c = BuildFeeds.MAX_ITEMS ->
  (forall f it, In f feeds -> In it (parsed_items h w f) -> plain_item h f it) ->
  Enrich.main_with c h w feeds = Some (Ok (BuildFeeds.main h w feeds)).
Proof.
  intros Hlimit Hmax Hplain.
  rewrite main_with_value. unfold BuildFeeds.main.
  assert (Hing : ingest h w (Enrich.make_item h) feeds
                 = ingest h w (BuildFeeds.make_item h) feeds).
  { apply ingest_ext. intros f it Hf Hit. apply make_item_plain; auto. }
  assert (Hrank : enriched_ranking c h w feeds
                  = Array_sort by_recency
                      (dedupe (fst (ingest h w (BuildFeeds.make_item h) feeds)))).
  { unfold enriched_ranking, Enrich.ranked. rewrite Hlimit, Hing.
    reflexivity. }
  rewrite Hrank, Hing, Hmax.
  rewrite (Array_sort_descending_id (Array_sort_descending _)).
  reflexivity.
Qed.

(** The feed [news] alone, enrichment off: the two payloads are equal. *)
Lemma variants_agree_witness :
  Enrich.main_with Example.no_enrichment Example.host Example.world
    [Example.news]
  = Some (Ok (BuildFeeds.main Example.host Example.world [Example.news])).
Proof.
  apply variants_agree; [reflexivity | reflexivity |].
  intros f it [<-|[]] Hit.
  assert (E : parsed_items Example.host Example.world Example.news
              = [Example.raw_a; Example.raw_b; Example.raw_c; Example.raw_d])
    by (vm_compute; reflexivity).
  rewrite E in Hit.
  assert (Hplain : Forall (plain_item Example.host Example.news)
                     [Example.raw_a; Example.raw_b; Example.raw_c; Example.raw_d]).
  { repeat constructor. }
  rewrite Forall_forall in Hplain. now apply Hplain.
Defined.

(** C9, the claim as stated fails. With enrichment off and URLs that hold
    no entity, the plain script publishes the article of the feed
    [mondosonoro], which has no category, and the emoji picture of the feed
    [emoji]; the enriching script drops the first and blanks the second. *)
Lemma variants_differ :
  Forall clean_url (item_urls (Example.raw "https://m.example/1" (Some Example.day2024)))
  /\ Forall clean_url (item_urls Example.raw_emoji)
  /\ map (fun it => (link it, image it))
       (items (BuildFeeds.main Example.host Example.world
                 [Example.mondo; Example.emoji]))
     = [ (u16 "https://m.example/1", []);
         (u16 "https://m.example/e",
          u16 "https://s.w.org/images/core/emoji/2/72x72/1f3b5.png") ]
  /\ exists p,
       Enrich.main_with Example.no_enrichment Example.host Example.world
         [Example.mondo; Example.emoji] = Some (Ok p)
       /\ map (fun it => (link it, image it)) (items p)
          = [ (u16 "https://m.example/e", []) ]
       /\ items p <> items (BuildFeeds.main Example.host Example.world
                              [Example.mondo; Example.emoji]).
Proof.
  split; [repeat constructor|].
  split; [repeat constructor|].
  split; [vm_compute; reflexivity|].
  eexists. split; [vm_compute; reflexivity|].
  split; [vm_compute; reflexivity|].
  intros E. apply (f_equal (@length NewsItem)) in E.
  vm_compute in E. discriminate.
Qed.

(* ================================================================= *)
(** * Further properties of the scripts *)

(** ** Ingestion, feed by feed *)

Lemma ingest_nil h w mk : ingest h w mk [] = ([], []).
Proof. reflexivity. Qed.

Lemma ingest_items_flat_map h w mk feeds :
  fst (ingest h w mk feeds) = flat_map (feed_pushed h w mk) feeds.
Proof.
  induction feeds as [|f feeds IH]; [reflexivity|].
  rewrite ingest_cons, ingest_feed_alone. cbn [fst flat_map]. now rewrite IH.
Qed.

Lemma ingest_errors_flat_map h w mk feeds :
  snd (ingest h w mk feeds) = flat_map (feed_errors h w) feeds.
Proof.
  induction feeds as [|f feeds IH]; [reflexivity|].
  rewrite ingest_cons, ingest_feed_alone. cbn [snd flat_map]. now rewrite IH.
Qed.

(** Where an ingested item comes from. *)
Lemma ingest_In h w mk feeds x :
  In x (fst (ingest h w mk feeds)) ->
  exists f it, In f feeds /\ In it (parsed_items h w f) /\ mk f it = Some x.
Proof.
  rewrite ingest_items_flat_map. intros H. apply in_flat_map in H.
  destruct H as (f & Hf & Hx). exists f.
  unfold parsed_items. unfold feed_pushed, feed_outcome in Hx.
  destruct (snd (parseFeedFromUrl h w (feed_url f))) as [parsed|e];
    [|destruct Hx].
  unfold feed_items in Hx. apply in_flat_map in Hx.
  destruct Hx as (it & Hit & Hx). exists it.
  destruct (mk f it) as [y|] eqn:E; [|destruct Hx].
  destruct Hx as [<-|[]]. auto.
Qed.

(** X1. The ingestion loop treats the feeds one by one, in order. Its items
    are, feed after feed, what each feed pushed: nothing when its fetch or
    its parse failed, else the items built from the elements of
    [parsed.items] up to the first one that throws. Its errors are one per
    feed that ended with an exception, in the fetch, in the parse or in the
    loop over its items, in the order of the feeds, each with the id and the
    URL of its feed. Every item comes from an element the loop got to, and
    ingesting two lists of feeds one after the other is ingesting them
    apart. *)
Theorem ingest_by_feed (h : Host) (w : World)
  (mk : FeedSource -> RawItem -> option NewsItem) (feeds : list FeedSource) :
  fst (ingest h w mk feeds) = flat_map (feed_pushed h w mk) feeds
  /\ snd (ingest h w mk feeds) = flat_map (feed_errors h w) feeds
  /\ (forall f, feed_pushed h w mk f
                = flat_map (pushed_by mk f) (parsed_items h w f))
  /\ map err_sourceId (snd (ingest h w mk feeds))
     = map feed_id (filter (feed_failed h w) feeds)
  /\ map err_url (snd (ingest h w mk feeds))
     = map feed_url (filter (feed_failed h w) feeds)
  /\ length (snd (ingest h w mk feeds))
     = length (filter (feed_failed h w) feeds)
  /\ (forall x, In x (fst (ingest h w mk feeds)) ->
        exists f it,
          In f feeds /\ In it (parsed_items h w f) /\ mk f it = Some x)
  /\ (forall more,
        ingest h w mk (feeds ++ more) =
          (fst (ingest h w mk feeds) ++ fst (ingest h w mk more),
           snd (ingest h w mk feeds) ++ snd (ingest h w mk more))).
Proof.
  split; [apply ingest_items_flat_map|].
  split; [apply ingest_errors_flat_map|].
  split.
  { intros f. unfold feed_pushed, parsed_items, feed_outcome.
    now destruct (snd (parseFeedFromUrl h w (feed_url f))). }
  assert (Hmap : forall (T : Type) (g : IngestError -> T) (g' : FeedSource -> T),
             (forall f e, g (ingest_error f e) = g' f) ->
             map g (snd (ingest h w mk feeds))
             = map g' (filter (feed_failed h w) feeds)).
  { intros T g g' Hg. rewrite ingest_errors_flat_map.
    induction feeds as [|f feeds IH]; [reflexivity|].
    cbn [flat_map filter]. rewrite map_app, IH.
    unfold feed_failed, feed_errors.
    destruct (feed_error h w f); simpl; [|reflexivity].
    now rewrite Hg. }
  split; [apply Hmap; reflexivity|].
  split; [apply Hmap; reflexivity|].
  split.
  - rewrite <- (length_map err_sourceId), (Hmap _ err_sourceId feed_id)
      by reflexivity.
    apply length_map.
  - split.
    + intros x. apply ingest_In.
    + intros more. apply ingest_app.
Qed.

(** The three feeds of the example that work, and the two that end with an
    exception: [down] in the fetch, [broken] at its second element. *)
Example ingest_by_feed_example :
  let r := ingest Example.host Example.world
             (BuildFeeds.make_item Example.host)
             [Example.down; Example.broken; Example.emoji] in
  map link (fst r) = [u16 "https://b.example/1"; u16 "https://m.example/e"]
  /\ map err_sourceId (snd r) = [u16 "down"; u16 "broken"].
Proof. vm_compute. split; reflexivity. Qed.

Lemma BuildFeeds_items_origin h w feeds x :
  In x (items (BuildFeeds.main h w feeds)) ->
  exists f it, In f feeds /\ In it (parsed_items h w f)
               /\ BuildFeeds.make_item h f it = Some x.
Proof.
  intros H. apply BuildFeeds_items_In, dedupe_incl in H.
  now apply ingest_In.
Qed.

Lemma Enrich_items_origin c h w feeds x :
  In x (firstn (Enrich.MAX_ITEMS c)
          (Array_sort by_recency (enriched_ranking c h w feeds))) ->
  exists f it y, In f feeds /\ In it (parsed_items h w f)
                 /\ Enrich.make_item h f it = Some y
                 /\ (x = y \/ x = snd (Enrich.enrichOne h w y)).
Proof.
  intros H.
  destruct (@Enrich_items_In c h w feeds _ x (main_with_value _ _ _ _) H)
    as (y & Hy & Hx).
  apply dedupe_incl, ingest_In in Hy. destruct Hy as (f & it & ? & ? & ?).
  exists f, it, y. auto.
Qed.

(** A property of every item the enriching script builds, that enrichment
    keeps, holds of every item of its payload. *)
Lemma Enrich_items_Forall (P : NewsItem -> Prop) c h w feeds :
  (forall f it y, Enrich.make_item h f it = Some y -> P y) ->
  (forall y, P y -> P (snd (Enrich.enrichOne h w y))) ->
  exists p, Enrich.main_with c h w feeds = Some (Ok p)
            /\ forall x, In x (items p) -> P x.
Proof.
  intros Hmk Hen. eexists. split; [apply main_with_value|].
  cbn [items]. intros x Hx. apply Enrich_items_origin in Hx.
  destruct Hx as (f & it & y & _ & _ & Hy & [->| ->]); eauto.
Qed.

Lemma BuildFeeds_items_Forall (P : NewsItem -> Prop) h w feeds :
  (forall f it y, BuildFeeds.make_item h f it = Some y -> P y) ->
  forall x, In x (items (BuildFeeds.main h w feeds)) -> P x.
Proof.
  intros Hmk x Hx. apply BuildFeeds_items_origin in Hx.
  destruct Hx as (f & it & _ & _ & Hy). eauto.
Qed.

(** ** What every item of a payload satisfies *)

Lemma BuildFeeds_make_item_inv h f it x :
  BuildFeeds.make_item h f it = Some x ->
  nonempty (link x) = true
  /\ id x = sha1 h (feed_id f ++ u16 "|" ++ link x)
  /\ sourceId x = feed_id f /\ sourceName x = feed_name f
  /\ title x = trim (str_or_empty (raw_title it))
  /\ publishedTs x = toTimestamp (Date_heuristic h) (Some (published x))
  /\ categories x = pickCategories it
  /\ excerpt x = pickExcerpt it
  /\ image x = pickImage (BuildFeeds.normalizeUrl h) it.
Proof.
  unfold BuildFeeds.make_item. cbv zeta.
  destruct (nonempty _) eqn:E; cbn [negb]; [|discriminate].
  intros H; inversion H; subst x; clear H.
  cbn [link id sourceId sourceName title publishedTs published categories
       excerpt image].
  repeat split; auto.
Qed.

Lemma Enrich_make_item_inv h f it x :
  Enrich.make_item h f it = Some x ->
  nonempty (link x) = true
  /\ id x = sha1 h (feed_id f ++ u16 "|" ++ link x)
  /\ sourceId x = feed_id f /\ sourceName x = feed_name f
  /\ title x = trim (str_or_empty (raw_title it))
  /\ publishedTs x = toTimestamp (Date_heuristic h) (Some (published x))
  /\ categories x = pickCategories it
  /\ excerpt x = pickExcerpt it
  /\ Enrich.isJunkImage (image x) = false
  /\ (feed_id f = u16 "mondosonoro" -> has_discos (categories x) = true).
Proof.
  unfold Enrich.make_item. cbv zeta.
  destruct (nonempty _) eqn:E; cbn [negb]; [|discriminate].
  destruct (jsstring_eqb (feed_id f) (u16 "mondosonoro") && _) eqn:M;
    [discriminate|].
  intros H; inversion H; subst x; clear H.
  cbn [link id sourceId sourceName title publishedTs published categories
       excerpt image].
  repeat split; auto.
  - destruct (Enrich.isJunkImage (pickImage _ it)) eqn:J; auto.
  - intros Hf. rewrite Hf, jsstring_eqb_refl in M. cbn [andb] in M.
    apply negb_false_iff in M. exact M.
Qed.

(** X2. No item of a payload has an empty link, in either script: an entry
    whose link and guid are both missing or empty is skipped at ingestion,
    and nothing later touches a link. *)
Theorem payload_links_nonempty (h : Host) (w : World)
  (feeds : list FeedSource) (c : Enrich.Config) :
  (forall x, In x (items (BuildFeeds.main h w feeds)) ->
     nonempty (link x) = true)
  /\ exists p, Enrich.main_with c h w feeds = Some (Ok p)
               /\ forall x, In x (items p) -> nonempty (link x) = true.
Proof.
  split.
  - apply BuildFeeds_items_Forall. intros f it y Hy.
    apply (BuildFeeds_make_item_inv _ _ _ Hy).
  - apply Enrich_items_Forall.
    + intros f it y Hy. apply (Enrich_make_item_inv _ _ _ Hy).
    + intros y Hy. now rewrite enrichOne_link.
Qed.

(** X3. In both scripts [total] is the number of items of the payload,
    which is the number of distinct links ingested, capped at [MAX_ITEMS]:
    ranking and enrichment neither lose nor repeat an item. *)
Theorem payload_total (h : Host) (w : World) (feeds : list FeedSource)
  (c : Enrich.Config) :
  (let p := BuildFeeds.main h w feeds in
   total p = length (items p)
   /\ length (items p) =
        Nat.min BuildFeeds.MAX_ITEMS
          (length (dedupe (fst (ingest h w (BuildFeeds.make_item h) feeds)))))
  /\ exists p,
       Enrich.main_with c h w feeds = Some (Ok p)
       /\ total p = length (items p)
       /\ length (items p) =
            Nat.min (Enrich.MAX_ITEMS c)
              (length (dedupe (fst (ingest h w (Enrich.make_item h) feeds)))).
Proof.
  split.
  - cbv zeta. unfold BuildFeeds.main. cbn [total items].
    split; [reflexivity|]. rewrite length_firstn.
    now rewrite (Permutation_length (Array_sort_perm by_recency _)).
  - eexists. split; [apply main_with_value|]. cbn [total items].
    split; [reflexivity|]. rewrite length_firstn.
    rewrite (Permutation_length (Array_sort_perm by_recency _)).
    rewrite <- (length_map link), enriched_ranking_links, length_map.
    unfold Enrich.ranked.
    now rewrite (Permutation_length (Array_sort_perm by_recency _)).
Qed.

(** X4. In both scripts every item of the payload carries the id and name
    of a configured feed as [sourceId] and [sourceName], and its [id] is the
    hash of [sourceId|link]: the id is a function of the source and the
    link, and enrichment does not disturb it. *)
Theorem payload_ids (h : Host) (w : World) (feeds : list FeedSource)
  (c : Enrich.Config) :
  let good x :=
    id x = sha1 h (sourceId x ++ u16 "|" ++ link x)
    /\ exists f, In f feeds /\ sourceId x = feed_id f
                 /\ sourceName x = feed_name f in
  (forall x, In x (items (BuildFeeds.main h w feeds)) -> good x)
  /\ exists p, Enrich.main_with c h w feeds = Some (Ok p)
               /\ forall x, In x (items p) -> good x.
Proof.
  cbv zeta. split.
  - intros x Hx. apply BuildFeeds_items_origin in Hx.
    destruct Hx as (f & it & Hf & _ & Hy).
    destruct (BuildFeeds_make_item_inv _ _ _ Hy) as (_ & Hid & Hs & Hn & _).
    rewrite Hs. split; eauto.
  - eexists. split; [apply main_with_value|]. cbn [items].
    intros x Hx. apply Enrich_items_origin in Hx.
    destruct Hx as (f & it & y & Hf & _ & Hy & Hx).
    destruct (Enrich_make_item_inv _ _ _ Hy) as (_ & Hid & Hs & Hn & _).
    assert (Hsame : same_identity y x).
    { destruct Hx as [->| ->];
        [apply same_identity_refl | apply enrichOne_identity]. }
    destruct Hsame as (Ei & _ & El & Es & En & _).
    rewrite <- Ei, <- El, <- Es, <- En, Hs. split; eauto.
Qed.

(** ** Trimming *)

Lemma trimStart_suffix s : exists pre, s = pre ++ trimStart s.
Proof.
  induction s as [|c s IH]; [now exists []|]. simpl.
  destruct (is_space c); [|now exists []].
  destruct IH as (pre & E). exists (c :: pre). simpl. now rewrite <- E.
Qed.

Lemma trimStart_no_lead s : no_lead (trimStart s).
Proof.
  induction s as [|c s IH]; simpl; auto.
  destruct (is_space c) eqn:E; auto.
Qed.

Lemma no_lead_trimStart s : no_lead s -> trimStart s = s.
Proof. destruct s as [|c s]; simpl; auto. intros H. now rewrite H. Qed.

Lemma no_lead_app_l s t : s <> [] -> no_lead (s ++ t) -> no_lead s.
Proof. destruct s; simpl; auto; congruence. Qed.

Lemma trim_trimmed s : trimmed (trim s).
Proof.
  unfold trimmed, trim. rewrite rev_involutive.
  split; [|apply trimStart_no_lead].
  set (t := trimStart s).
  destruct (trimStart_suffix (rev t)) as (pre & E).
  destruct (trimStart (rev t)) as [|c u]; [exact I|].
  assert (Ht : t = rev (c :: u) ++ rev pre).
  { rewrite <- rev_app_distr, <- E. now rewrite rev_involutive. }
  apply no_lead_app_l with (t := rev pre).
  - simpl. intros H. apply app_eq_nil in H. destruct H; discriminate.
  - rewrite <- Ht. apply trimStart_no_lead.
Qed.

Lemma trim_id s : trimmed s -> trim s = s.
Proof.
  intros [H1 H2]. unfold trim.
  now rewrite (no_lead_trimStart _ H1), (no_lead_trimStart _ H2), rev_involutive.
Qed.

(** ** Categories and excerpts *)

Lemma pickCategories_length (item : RawItem) :
  (length (pickCategories item) <= 12)%nat.
Proof. unfold pickCategories. cbv zeta. apply firstn_le_length. Qed.

Lemma pickCategories_Forall (item : RawItem) :
  Forall (fun c => nonempty c = true /\ trimmed c) (pickCategories item).
Proof.
  unfold pickCategories. cbv zeta.
  apply Forall_forall. intros c Hc. apply In_firstn in Hc.
  apply filter_In in Hc. destruct Hc as [Hin Hne]. split; auto.
  apply in_map_iff in Hin. destruct Hin as (o & <- & _).
  apply trim_trimmed.
Qed.

(** X5. [pickCategories] gives at most 12 categories, none of them empty and
    none with whitespace at either end (an entry made of whitespace is
    dropped). An array under [categories], even an empty one, hides the
    field [category]; with neither field the list is empty. *)
Theorem pickCategories_spec (item : RawItem) :
  (length (pickCategories item) <= 12)%nat
  /\ Forall (fun c => nonempty c = true /\ trimmed c) (pickCategories item)
  /\ (forall l, raw_categories item = CatMany l ->
        pickCategories item =
          firstn 12 (filter nonempty (map (fun c => trim (str_or_empty c)) l)))
  /\ (raw_categories item = CatMany [] -> pickCategories item = [])
  /\ (raw_categories item = CatAbsent -> raw_category item = CatAbsent ->
      pickCategories item = []).
Proof.
  split; [apply pickCategories_length|].
  split; [apply pickCategories_Forall|].
  unfold pickCategories. cbv zeta. split; [|split].
  - intros l ->. reflexivity.
  - intros ->. reflexivity.
  - intros -> ->. reflexivity.
Qed.

Lemma no_lead_firstn n s : no_lead s -> no_lead (firstn n s).
Proof. destruct s, n; simpl; auto. Qed.

(** An excerpt has no whitespace at either end, cut or not: the text is
    trimmed before it is cut, and a cut text ends with the ellipsis. *)
Lemma pickExcerpt_no_edges (item : RawItem) : trimmed (pickExcerpt item).
Proof.
  unfold pickExcerpt. cbv zeta.
  pose proof (trim_trimmed
    (replace_all false re_spaces (u16 " ")
       (replace_all false re_tag (u16 " ")
          (replace_all true re_style []
             (replace_all true re_script [] (item_html item)))))) as Ht.
  fold (stripHtml (item_html item)) in Ht.
  set (text := stripHtml (item_html item)) in *.
  destruct (nonempty text) eqn:Hne; cbn [negb]; [|now split].
  destruct (240 <? length text)%nat eqn:Hlen; auto.
  destruct Ht as [H1 _]. split.
  - unfold slice0. destruct text as [|c text]; [discriminate|].
    exact H1.
  - rewrite rev_app_distr. reflexivity.
Qed.

Lemma pickExcerpt_length (item : RawItem) :
  (length (pickExcerpt item) <= 240)%nat.
Proof.
  unfold pickExcerpt. cbv zeta.
  destruct (negb _); [simpl; lia|].
  destruct (Nat.ltb_spec 240 (length (stripHtml (item_html item))));
    [|assumption].
  rewrite length_app.
  pose proof (slice0_length 237 (stripHtml (item_html item))) as H237.
  unfold ellipsis. cbn [length]. lia.
Qed.

(** ** Enrichment only fills gaps *)

Lemma isJunkImage_empty : Enrich.isJunkImage [] = false.
Proof. reflexivity. Qed.

Lemma enrich_image_cases h html item :
  Enrich.enrich_image h html item = item
  \/ (nonempty (image (Enrich.enrich_image h html item)) = true
      /\ Enrich.isJunkImage (image (Enrich.enrich_image h html item)) = false).
Proof.
  unfold Enrich.enrich_image. cbv zeta.
  destruct (nonempty _ && negb _) eqn:E; [|now left].
  right. apply andb_prop in E. destruct E as [E1 E2].
  cbn [image Enrich.set_image]. split; auto.
  now apply negb_true_iff in E2.
Qed.

Lemma enrich_date_cases h html item :
  Enrich.enrich_date h html item = item
  \/ (publishedTs (Enrich.enrich_date h html item) <> 0
      /\ publishedTs (Enrich.enrich_date h html item)
         = toTimestamp (Date_heuristic h)
             (Some (published (Enrich.enrich_date h html item)))).
Proof.
  unfold Enrich.enrich_date. cbv zeta.
  destruct (negb (_ =? 0)) eqn:E; [|now left].
  right. cbn [publishedTs published Enrich.set_published].
  split; auto. apply negb_true_iff in E. now apply Z.eqb_neq.
Qed.

Lemma enrichOne_image_cases h w item :
  image (snd (Enrich.enrichOne h w item)) = image item
  \/ (nonempty (image (snd (Enrich.enrichOne h w item))) = true
      /\ Enrich.isJunkImage (image (snd (Enrich.enrichOne h w item))) = false).
Proof.
  rewrite enrichOne_page. cbv zeta.
  destruct (negb _ && negb _); [now left|].
  destruct (snd (Enrich.fetchText w (link item))) as [html|e]; [|now left].
  set (item1 := if negb (nonempty (image item)) || _
                then Enrich.enrich_image h html item else item).
  assert (H2 : image (if publishedTs item =? 0
                      then Enrich.enrich_date h html item1 else item1)
               = image item1).
  { destruct (publishedTs item =? 0); auto. apply enrich_date_identity. }
  rewrite H2. unfold item1.
  destruct (negb (nonempty (image item)) || _); [|now left].
  destruct (enrich_image_cases h html item) as [->|?]; auto.
Qed.

Lemma enrichOne_date_cases h w item :
  (publishedTs (snd (Enrich.enrichOne h w item)) = publishedTs item
   /\ published (snd (Enrich.enrichOne h w item)) = published item)
  \/ (publishedTs (snd (Enrich.enrichOne h w item)) <> 0
      /\ publishedTs (snd (Enrich.enrichOne h w item))
         = toTimestamp (Date_heuristic h)
             (Some (published (snd (Enrich.enrichOne h w item))))).
Proof.
  rewrite enrichOne_page. cbv zeta.
  destruct (negb _ && negb _); [now left|].
  destruct (snd (Enrich.fetchText w (link item))) as [html|e]; [|now left].
  set (item1 := if negb (nonempty (image item)) || _
                then Enrich.enrich_image h html item else item).
  assert (H1 : published item1 = published item
               /\ publishedTs item1 = publishedTs item).
  { unfold item1. destruct (negb (nonempty (image item)) || _); auto.
    now destruct (enrich_image_identity h html item) as (_ & -> & ->). }
  destruct H1 as [H1p H1t].
  destruct (publishedTs item =? 0); [|left; auto].
  destruct (enrich_date_cases h html item1) as [->|?]; auto.
Qed.

(** X6. [enrichOne] fills gaps and overwrites nothing that was good. An image
    that is present and no junk is kept; a timestamp other than [0] is kept,
    with its date string. An image that changes becomes a non-empty image
    that is no junk; a timestamp that changes becomes the timestamp, other
    than [0], of the date string stored with it. *)
Theorem enrichOne_fills_gaps (h : Host) (w : World) (item : NewsItem) :
  let item' := snd (Enrich.enrichOne h w item) in
  (nonempty (image item) = true -> Enrich.isJunkImage (image item) = false ->
   image item' = image item)
  /\ (publishedTs item <> 0 ->
      publishedTs item' = publishedTs item /\ published item' = published item)
  /\ (image item' = image item
      \/ (nonempty (image item') = true
          /\ Enrich.isJunkImage (image item') = false))
  /\ ((publishedTs item' = publishedTs item /\ published item' = published item)
      \/ (publishedTs item' <> 0
          /\ publishedTs item'
             = toTimestamp (Date_heuristic h) (Some (published item')))).
Proof.
  cbv zeta. rewrite enrichOne_page. cbv zeta.
  set (needsImage := negb (nonempty (image item))
                     || Enrich.isJunkImage (image item)).
  set (needsDate := publishedTs item =? 0).
  assert (Hgood : nonempty (image item) = true ->
                  Enrich.isJunkImage (image item) = false ->
                  needsImage = false).
  { intros H1 H2. unfold needsImage. now rewrite H1, H2. }
  assert (Hdated : publishedTs item <> 0 -> needsDate = false).
  { intros H. now apply Z.eqb_neq. }
  destruct (negb needsImage && negb needsDate) eqn:Hskip.
  { repeat split; auto. }
  destruct (snd (Enrich.fetchText w (link item))) as [html|e];
    [|repeat split; auto].
  set (item1 := if needsImage then Enrich.enrich_image h html item else item).
  assert (H1 : published item1 = published item
               /\ publishedTs item1 = publishedTs item).
  { unfold item1. destruct needsImage; auto.
    now destruct (enrich_image_identity h html item) as (_ & -> & ->). }
  assert (H1i : image item1 = image item
                \/ (nonempty (image item1) = true
                    /\ Enrich.isJunkImage (image item1) = false)).
  { unfold item1. destruct needsImage; auto.
    destruct (enrich_image_cases h html item) as [->|?]; auto. }
  assert (H2i : image (if needsDate then Enrich.enrich_date h html item1
                       else item1) = image item1).
  { destruct needsDate; auto. apply enrich_date_identity. }
  rewrite H2i. destruct H1 as [H1p H1t].
  split; [|split; [|split]].
  - intros Hi Hj. unfold item1. now rewrite (Hgood Hi Hj).
  - intros Ht. rewrite (Hdated Ht). auto.
  - exact H1i.
  - destruct needsDate; [|left; auto].
    destruct (enrich_date_cases h html item1) as [->|?]; auto.
Qed.

(** ** Literal patterns *)

Lemma rmatch_Lit R ci p s cap (k : cont R) :
  rmatch ci (Lit p) s cap k =
    if ci_prefix ci p s then k (skipn (length p) s) cap else None.
Proof.
  revert s; induction p as [|c p IH]; intros s; [reflexivity|].
  destruct s as [|x s]; [reflexivity|].
  cbn [Lit rmatch ci_prefix length skipn].
  destruct (N.eqb (canon ci x) (canon ci c)); [apply IH | reflexivity].
Qed.

Lemma match_here_Lit ci p s :
  match_here ci (Lit p) s =
    if ci_prefix ci p s then Some (skipn (length p) s, None) else None.
Proof. unfold match_here. apply rmatch_Lit. Qed.

(** The fuel of [replace_all] is enough: more changes nothing. *)
Lemma replace_all_fuel_enough ci r repl s f1 f2 :
  (length s < f1)%nat -> (length s < f2)%nat ->
  replace_all_fuel f1 ci r repl s = replace_all_fuel f2 ci r repl s.
Proof.
  revert s f2; induction f1 as [|f1 IH]; intros s f2 H1 H2; [lia|].
  destruct f2 as [|f2]; [lia|]. cbn [replace_all_fuel].
  destruct (match_here ci r s) as [[rest cap]|].
  - destruct (Nat.ltb_spec (length rest) (length s)) as [Hlt|Hge].
    + f_equal. apply IH; lia.
    + destruct s as [|x s]; [reflexivity|]. f_equal. f_equal.
      simpl in *. apply IH; lia.
  - destruct s as [|x s]; [reflexivity|]. f_equal.
    simpl in *. apply IH; lia.
Qed.

Lemma replace_all_fuel_S f ci r repl s :
  replace_all_fuel (S f) ci r repl s =
    match match_here ci r s with
    | Some (rest, _) =>
        if (length rest <? length s)%nat
        then repl ++ replace_all_fuel f ci r repl rest
        else match s with
             | [] => repl
             | x :: s' => repl ++ x :: replace_all_fuel f ci r repl s'
             end
    | None =>
        match s with
        | [] => []
        | x :: s' => x :: replace_all_fuel f ci r repl s'
        end
    end.
Proof. reflexivity. Qed.

Lemma replace_all_nomatch ci r repl x s :
  match_here ci r (x :: s) = None ->
  replace_all ci r repl (x :: s) = x :: replace_all ci r repl s.
Proof.
  intros H. unfold replace_all.
  rewrite (replace_all_fuel_S (length (x :: s))), H.
  reflexivity.
Qed.

Lemma replace_all_match ci r repl s rest cap :
  match_here ci r s = Some (rest, cap) -> (length rest < length s)%nat ->
  replace_all ci r repl s = repl ++ replace_all ci r repl rest.
Proof.
  intros H Hlt. unfold replace_all.
  rewrite (replace_all_fuel_S (length s)), H.
  apply Nat.ltb_lt in Hlt. rewrite Hlt. f_equal.
  apply Nat.ltb_lt in Hlt. apply replace_all_fuel_enough; lia.
Qed.

Lemma replace_all_nil_Lit ci c p repl :
  replace_all ci (Lit (c :: p)) repl [] = [].
Proof. reflexivity. Qed.

Lemma ci_prefix_In ci p s c :
  ci_prefix ci p s = true -> In c p ->
  exists x, In x s /\ canon ci x = canon ci c.
Proof.
  revert s; induction p as [|d p IH]; intros s H Hc; [destruct Hc|].
  destruct s as [|x s]; [discriminate|]. simpl in H.
  apply andb_prop in H. destruct H as [H1 H2].
  destruct Hc as [->|Hc].
  - exists x. split; [now left | now apply N.eqb_eq].
  - destruct (IH _ H2 Hc) as (y & Hy & E). exists y. split; auto. now right.
Qed.

(** A pattern with a character the string lacks replaces nothing. *)
Lemma replace_all_absent ci p repl c s :
  p <> [] -> In c p -> (forall x, In x s -> canon ci x <> canon ci c) ->
  replace_all ci (Lit p) repl s = s.
Proof.
  intros Hp Hc. induction s as [|x s IH]; intros Hs.
  - destruct p; [congruence | reflexivity].
  - rewrite replace_all_nomatch.
    + f_equal. apply IH. intros y Hy. apply Hs. now right.
    + rewrite match_here_Lit.
      destruct (ci_prefix ci p (x :: s)) eqn:E; [|reflexivity].
      destruct (@ci_prefix_In ci p (x :: s) c E Hc) as (y & Hy & Ey).
      exfalso. now apply (Hs y).
Qed.

(** Folding the case of letters does not touch [&] or [#]. *)
Lemma canon_amp ci x : canon ci x = canon ci 38 <-> x = 38%N.
Proof.
  replace (canon ci 38) with 38%N by (destruct ci; reflexivity).
  unfold canon.
  destruct (ci && (97 <=? x)%N && (x <=? 122)%N) eqn:E; [|tauto].
  apply andb_prop in E. destruct E as [E E2]. apply andb_prop in E.
  destruct E as [_ E1]. apply N.leb_le in E1, E2. split; lia.
Qed.

Lemma canon_hash ci x : canon ci x = canon ci 35 <-> x = 35%N.
Proof.
  replace (canon ci 35) with 35%N by (destruct ci; reflexivity).
  unfold canon.
  destruct (ci && (97 <=? x)%N && (x <=? 122)%N) eqn:E; [|tauto].
  apply andb_prop in E. destruct E as [E E2]. apply andb_prop in E.
  destruct E as [_ E1]. apply N.leb_le in E1, E2. split; lia.
Qed.

Lemma replace_all_no_amp ci p repl s :
  ~ In 38%N s -> replace_all ci (Lit (38%N :: p)) repl s = s.
Proof.
  intros H. apply replace_all_absent with (c := 38%N).
  - discriminate.
  - now left.
  - intros x Hx E. apply canon_amp in E. subst x. auto.
Qed.

Lemma decodeUrlEntities_no_amp s :
  ~ In 38%N s -> Enrich.decodeUrlEntities s = s.
Proof.
  intros H. unfold Enrich.decodeUrlEntities.
  change (Lit (u16 "&amp;")) with (Lit (38%N :: u16 "amp;")).
  change (Lit (u16 "&#038;")) with (Lit (38%N :: u16 "#038;")).
  change (Lit (u16 "&#x26;")) with (Lit (38%N :: u16 "#x26;")).
  rewrite (@replace_all_no_amp false (u16 "amp;") (u16 "&") s H).
  rewrite (@replace_all_no_amp false (u16 "#038;") (u16 "&") s H).
  apply (@replace_all_no_amp true (u16 "#x26;") (u16 "&") s H).
Qed.

(** X7. A string without [&] is left as it is by [decodeUrlEntities]; so a
    URL without [&] and without whitespace at its ends is normalised in the
    same way by the two scripts, whatever the URL parser does with it. *)
Theorem normalizeUrl_plain (h : Host) (u : jsstring) :
  ~ In 38%N u -> trimmed u ->
  Enrich.decodeUrlEntities u = u
  /\ clean_url u
  /\ Enrich.normalizeUrl h u = BuildFeeds.normalizeUrl h u.
Proof.
  intros Hamp Htrim.
  assert (Hc : clean_url u).
  { split; [now apply trim_id | now apply decodeUrlEntities_no_amp]. }
  split; [apply Hc|]. split; [exact Hc | now apply normalizeUrl_clean].
Qed.

Lemma normalizeUrl_plain_witness :
  Enrich.normalizeUrl Example.host (u16 "https://n.example/a?x=1")
  = BuildFeeds.normalizeUrl Example.host (u16 "https://n.example/a?x=1").
Proof.
  apply (fun H1 H2 =>
           proj2 (proj2 (@normalizeUrl_plain Example.host
                           (u16 "https://n.example/a?x=1") H1 H2))).
  - cbn. intuition discriminate.
  - split; reflexivity.
Defined.

(** ** Escaped ampersands *)

Lemma match_here_not_amp ci p x s :
  x <> 38%N -> match_here ci (Lit (38%N :: p)) (x :: s) = None.
Proof.
  intros H. rewrite match_here_Lit. cbn [ci_prefix].
  destruct (N.eqb_spec (canon ci x) (canon ci 38)) as [E|_]; [|reflexivity].
  apply canon_amp in E. congruence.
Qed.

Lemma replace_all_app_no_amp ci p repl a t :
  ~ In 38%N a ->
  replace_all ci (Lit (38%N :: p)) repl (a ++ t)
  = a ++ replace_all ci (Lit (38%N :: p)) repl t.
Proof.
  induction a as [|x a IH]; intros H; [reflexivity|]. simpl.
  rewrite replace_all_nomatch.
  - f_equal. apply IH. intros Hin. apply H. now right.
  - apply match_here_not_amp. intros ->. apply H. now left.
Qed.

Lemma ci_prefix_app ci p e t :
  ci_prefix ci p e = true -> ci_prefix ci p (e ++ t) = true.
Proof.
  revert e; induction p as [|c p IH]; intros e H; [reflexivity|].
  destruct e as [|x e]; [discriminate|]. simpl in *.
  apply andb_prop in H. destruct H as [H1 H2].
  now rewrite H1, IH.
Qed.

Lemma skipn_length_app {A} (a t : list A) n :
  n = length a -> skipn n (a ++ t) = t.
Proof.
  intros ->. now rewrite skipn_app, skipn_all, Nat.sub_diag.
Qed.

Lemma escape_amp_cons e x s :
  escape_amp e (x :: s) = (if N.eqb x 38 then e else [x]) ++ escape_amp e s.
Proof. reflexivity. Qed.

(** A pass whose pattern does not fit the entity leaves the escaped string
    as it is. *)
Lemma replace_all_escape_skip ci p repl e' s :
  ~ In 38%N e' ->
  (forall t, ci_prefix ci (38%N :: p) ((38%N :: e') ++ t) = false) ->
  replace_all ci (Lit (38%N :: p)) repl (escape_amp (38%N :: e') s)
  = escape_amp (38%N :: e') s.
Proof.
  intros He Hno. induction s as [|x s IH]; [reflexivity|].
  rewrite escape_amp_cons. destruct (N.eqb_spec x 38) as [->|Hx].
  - cbn [app]. rewrite replace_all_nomatch.
    + f_equal. rewrite replace_all_app_no_amp by exact He. now rewrite IH.
    + rewrite match_here_Lit.
      pose proof (Hno (escape_amp (38%N :: e') s)) as E. cbn [app] in E.
      match goal with
      | |- (if ?b then _ else _) = _ =>
          replace b with false by (symmetry; exact E)
      end. reflexivity.
  - cbn [app]. rewrite replace_all_nomatch by now apply match_here_not_amp.
    now rewrite IH.
Qed.

(** The pass whose pattern fits the entity gives the string back. *)
Lemma replace_all_escape_decode ci p e s :
  ci_prefix ci (38%N :: p) e = true -> length e = length (38%N :: p) ->
  replace_all ci (Lit (38%N :: p)) [38%N] (escape_amp e s) = s.
Proof.
  intros Hfit Hlen. induction s as [|x s IH]; [reflexivity|].
  rewrite escape_amp_cons. destruct (N.eqb_spec x 38) as [->|Hx].
  - rewrite (@replace_all_match ci (Lit (38%N :: p)) [38%N]
               (e ++ escape_amp e s) (escape_amp e s) None).
    + now rewrite IH.
    + rewrite match_here_Lit.
      pose proof (@ci_prefix_app ci (38%N :: p) e (escape_amp e s) Hfit) as E.
      match goal with
      | |- (if ?b then _ else _) = _ =>
          replace b with true by (symmetry; exact E)
      end.
      refine (f_equal (fun r => Some (r, None)) _).
      apply skipn_length_app. symmetry. exact Hlen.
    + rewrite length_app, Hlen. simpl. lia.
  - cbn [app]. rewrite replace_all_nomatch by now apply match_here_not_amp.
    now rewrite IH.
Qed.

Lemma replace_all_no_hash ci p repl s :
  In 35%N p -> p <> [] -> ~ In 35%N s -> replace_all ci (Lit p) repl s = s.
Proof.
  intros Hp Hne H. apply replace_all_absent with (c := 35%N); auto.
  intros x Hx E. apply canon_hash in E. subst x. auto.
Qed.

(** X8. [decodeUrlEntities] undoes the escaping of ampersands: take a
    string without [#] and write each of its [&] as [&amp;], as [&#038;], as
    [&#x26;] or as [&#X26;]; decoding gives the string back. *)
Theorem decodeUrlEntities_unescapes (s : jsstring) :
  ~ In 35%N s ->
  Enrich.decodeUrlEntities (escape_amp (u16 "&amp;") s) = s
  /\ Enrich.decodeUrlEntities (escape_amp (u16 "&#038;") s) = s
  /\ Enrich.decodeUrlEntities (escape_amp (u16 "&#x26;") s) = s
  /\ Enrich.decodeUrlEntities (escape_amp (u16 "&#X26;") s) = s.
Proof.
  intros H. unfold Enrich.decodeUrlEntities.
  change (Lit (u16 "&amp;")) with (Lit (38%N :: u16 "amp;")).
  change (Lit (u16 "&#038;")) with (Lit (38%N :: u16 "#038;")).
  change (Lit (u16 "&#x26;")) with (Lit (38%N :: u16 "#x26;")).
  change (u16 "&") with [38%N].
  assert (H2 : replace_all false (Lit (38%N :: u16 "#038;")) [38%N] s = s).
  { apply replace_all_no_hash; auto; [cbn; tauto | discriminate]. }
  assert (H3 : replace_all true (Lit (38%N :: u16 "#x26;")) [38%N] s = s).
  { apply replace_all_no_hash; auto; [cbn; tauto | discriminate]. }
  repeat split.
  - rewrite replace_all_escape_decode by reflexivity. now rewrite H2.
  - change (u16 "&#038;") with (38%N :: u16 "#038;").
    rewrite replace_all_escape_skip;
      [|cbn; intuition discriminate | reflexivity].
    rewrite replace_all_escape_decode by reflexivity. exact H3.
  - change (u16 "&#x26;") with (38%N :: u16 "#x26;").
    rewrite replace_all_escape_skip;
      [|cbn; intuition discriminate | reflexivity].
    rewrite replace_all_escape_skip;
      [|cbn; intuition discriminate | reflexivity].
    now rewrite replace_all_escape_decode by reflexivity.
  - change (u16 "&#X26;") with (38%N :: u16 "#X26;").
    rewrite replace_all_escape_skip;
      [|cbn; intuition discriminate | reflexivity].
    rewrite replace_all_escape_skip;
      [|cbn; intuition discriminate | reflexivity].
    now rewrite replace_all_escape_decode by reflexivity.
Qed.

(** A query string with two parameters, escaped in the two usual ways. *)
Lemma decodeUrlEntities_unescapes_witness :
  Enrich.decodeUrlEntities (u16 "https://n.example/a?x=1&amp;y=2")
  = u16 "https://n.example/a?x=1&y=2"
  /\ Enrich.decodeUrlEntities (u16 "https://n.example/a?x=1&#038;y=2")
     = u16 "https://n.example/a?x=1&y=2".
Proof.
  assert (H : ~ In 35%N (u16 "https://n.example/a?x=1&y=2")).
  { cbn. intuition discriminate. }
  split.
  - exact (proj1 (@decodeUrlEntities_unescapes _ H)).
  - exact (proj1 (proj2 (@decodeUrlEntities_unescapes _ H))).
Defined.

(** ** The quantifiers of the regular expressions *)

Lemma orelse_None_r {R} (a : option R) : orelse a None = a.
Proof. now destruct a. Qed.

Lemma rmatch_Seq R ci r1 r2 s cap (k : cont R) :
  rmatch ci (Seq r1 r2) s cap k
  = rmatch ci r1 s cap (fun s' cap' => rmatch ci r2 s' cap' k).
Proof. reflexivity. Qed.

Lemma rmatch_Cls R ci p s cap (k : cont R) :
  rmatch ci (Cls p) s cap k
  = match s with
    | x :: s' => if p x then k s' cap else None
    | [] => None
    end.
Proof. reflexivity. Qed.

Lemma rmatch_Chr R ci c s cap (k : cont R) :
  rmatch ci (Chr c) s cap k
  = match s with
    | x :: s' => if N.eqb (canon ci x) (canon ci c) then k s' cap else None
    | [] => None
    end.
Proof. reflexivity. Qed.

(** The fuel of a star, the length of the input, is never used up. *)
Lemma rmatch_star_greedy R ci p s cap (k : cont R) :
  rmatch ci (Star true (Cls p)) s cap k = star_greedy p k s cap.
Proof.
  cbn [rmatch].
  remember (length s) as n eqn:E.
  assert (Hn : (length s <= n)%nat) by lia. clear E.
  revert s cap Hn. induction n as [|n IH]; intros s cap Hn.
  - destruct s; [reflexivity | simpl in Hn; lia].
  - destruct s as [|x s]; [reflexivity|].
    cbn [star_greedy]. cbn [length] in *.
    cbv beta iota zeta fix. cbn [length].
    destruct (p x); [|reflexivity].
    replace (length s <? S (length s))%nat with true
      by (symmetry; apply Nat.ltb_lt; lia).
    now rewrite (IH s cap) by lia.
Qed.

Lemma rmatch_star_lazy R ci p s cap (k : cont R) :
  rmatch ci (Star false (Cls p)) s cap k = star_lazy p k s cap.
Proof.
  cbn [rmatch].
  remember (length s) as n eqn:E.
  assert (Hn : (length s <= n)%nat) by lia. clear E.
  revert s cap Hn. induction n as [|n IH]; intros s cap Hn.
  - destruct s; [reflexivity | simpl in Hn; lia].
  - destruct s as [|x s]; [reflexivity|].
    cbn [star_lazy]. cbn [length] in *.
    cbv beta iota zeta fix. cbn [length].
    destruct (p x); [|reflexivity].
    replace (length s <? S (length s))%nat with true
      by (symmetry; apply Nat.ltb_lt; lia).
    now rewrite (IH s cap) by lia.
Qed.

(** ** Whitespace in the stripped text *)

Lemma star_greedy_spaces s cap :
  star_greedy is_space (fun s' cap' => Some (s', cap')) s cap
  = Some (trimStart s, cap).
Proof.
  induction s as [|x s IH]; [reflexivity|]. cbn [star_greedy trimStart].
  destruct (is_space x); [|reflexivity]. now rewrite IH.
Qed.

(** [\s+] takes the whole run of whitespace. *)
Lemma match_here_spaces x s :
  match_here false re_spaces (x :: s)
  = if is_space x then Some (trimStart s, None) else None.
Proof.
  unfold match_here, re_spaces, Plus.
  rewrite rmatch_Seq, rmatch_Cls.
  destruct (is_space x); [|reflexivity].
  now rewrite rmatch_star_greedy, star_greedy_spaces.
Qed.

Lemma trimStart_length s : (length (trimStart s) <= length s)%nat.
Proof.
  induction s as [|x s IH]; simpl; [lia|].
  destruct (is_space x); simpl; lia.
Qed.

Lemma collapse_space x s :
  is_space x = true ->
  replace_all false re_spaces (u16 " ") (x :: s)
  = 32%N :: replace_all false re_spaces (u16 " ") (trimStart s).
Proof.
  intros H.
  rewrite (@replace_all_match false re_spaces (u16 " ") (x :: s)
             (trimStart s) None).
  - reflexivity.
  - now rewrite match_here_spaces, H.
  - pose proof (trimStart_length s). simpl. lia.
Qed.

Lemma collapse_solid x s :
  is_space x = false ->
  replace_all false re_spaces (u16 " ") (x :: s)
  = x :: replace_all false re_spaces (u16 " ") s.
Proof.
  intros H. apply replace_all_nomatch. now rewrite match_here_spaces, H.
Qed.

Lemma starts_solid_no_lead s : starts_solid s = true <-> no_lead s.
Proof.
  destruct s as [|x s]; simpl; [tauto|]. now destruct (is_space x).
Qed.

Lemma collapse_no_lead s :
  no_lead s -> no_lead (replace_all false re_spaces (u16 " ") s).
Proof.
  destruct s as [|x s]; [intros _; exact I|]. simpl. intros H.
  now rewrite collapse_solid.
Qed.

Lemma collapse_single_spaced s :
  single_spaced (replace_all false re_spaces (u16 " ") s) = true.
Proof.
  remember (length s) as n eqn:E.
  assert (Hn : (length s <= n)%nat) by lia. clear E.
  revert s Hn. induction n as [|n IH]; intros s Hn.
  - destruct s; [reflexivity | simpl in Hn; lia].
  - destruct s as [|x s]; [reflexivity|]. simpl in Hn.
    destruct (is_space x) eqn:Ex.
    + rewrite collapse_space by exact Ex. cbn [single_spaced].
      change (is_space 32) with true. change (N.eqb 32 32) with true.
      cbn [andb].
      rewrite IH by (pose proof (trimStart_length s); lia).
      rewrite andb_true_r. apply starts_solid_no_lead, collapse_no_lead,
        trimStart_no_lead.
    + rewrite collapse_solid by exact Ex. cbn [single_spaced].
      rewrite Ex. apply IH. lia.
Qed.

(** A single-spaced text is left as it is. *)
Lemma collapse_id s :
  single_spaced s = true -> replace_all false re_spaces (u16 " ") s = s.
Proof.
  induction s as [|x s IH]; [reflexivity|]. cbn [single_spaced].
  intros H. apply andb_prop in H. destruct H as [Hx Hs].
  destruct (is_space x) eqn:Ex.
  - apply andb_prop in Hx. destruct Hx as [H32 Hsolid].
    apply N.eqb_eq in H32. subst x.
    rewrite collapse_space by exact Ex.
    rewrite no_lead_trimStart by now apply starts_solid_no_lead.
    now rewrite IH.
  - rewrite collapse_solid by exact Ex. now rewrite IH.
Qed.

Lemma single_spaced_tail a s :
  single_spaced (a ++ s) = true -> single_spaced s = true.
Proof.
  induction a as [|x a IH]; [auto|]. cbn [app single_spaced]. intros H.
  apply andb_prop in H. now apply IH.
Qed.

Lemma starts_solid_app_l s b :
  starts_solid (s ++ b) = true -> starts_solid s = true.
Proof. destruct s; auto. Qed.

Lemma single_spaced_front s b :
  single_spaced (s ++ b) = true -> single_spaced s = true.
Proof.
  induction s as [|x s IH]; [auto|]. cbn [app single_spaced]. intros H.
  apply andb_prop in H. destruct H as [Hx Hs].
  rewrite (IH Hs), andb_true_r.
  destruct (is_space x); [|reflexivity].
  apply andb_prop in Hx. destruct Hx as [H32 Hsolid].
  now rewrite H32, (starts_solid_app_l _ _ Hsolid).
Qed.

Lemma single_spaced_snoc s c :
  is_space c = false -> single_spaced s = true ->
  single_spaced (s ++ [c]) = true.
Proof.
  intros Hc. induction s as [|x s IH]; cbn [app single_spaced].
  - now rewrite Hc.
  - intros H. apply andb_prop in H. destruct H as [Hx Hs].
    rewrite (IH Hs), andb_true_r.
    destruct (is_space x); [|reflexivity].
    apply andb_prop in Hx. destruct Hx as [H32 Hsolid]. rewrite H32.
    destruct s; simpl in *; [now rewrite Hc | exact Hsolid].
Qed.

(** [trim] cuts a piece out of the middle. *)
Lemma trim_infix s : exists a b, s = a ++ trim s ++ b.
Proof.
  unfold trim.
  destruct (trimStart_suffix s) as (a & Ea).
  destruct (trimStart_suffix (rev (trimStart s))) as (b & Eb).
  exists a, (rev b).
  rewrite <- rev_app_distr, <- Eb, rev_involutive. exact Ea.
Qed.

Lemma trim_single_spaced s :
  single_spaced s = true -> single_spaced (trim s) = true.
Proof.
  intros H. destruct (trim_infix s) as (a & b & E). rewrite E in H.
  apply single_spaced_tail in H. now apply single_spaced_front in H.
Qed.

Lemma stripHtml_single_spaced html : single_spaced (stripHtml html) = true.
Proof. apply trim_single_spaced, collapse_single_spaced. Qed.

Lemma stripHtml_trimmed html : trimmed (stripHtml html).
Proof. apply trim_trimmed. Qed.

Lemma pickExcerpt_single_spaced item :
  single_spaced (pickExcerpt item) = true.
Proof.
  unfold pickExcerpt. cbv zeta.
  pose proof (stripHtml_single_spaced (item_html item)) as H.
  destruct (negb _); [reflexivity|].
  destruct (_ <? _)%nat; [|exact H].
  apply single_spaced_snoc; [reflexivity|].
  unfold slice0.
  rewrite <- (firstn_skipn 237 (stripHtml (item_html item))) in H.
  now apply single_spaced_front in H.
Qed.

(** ** Tags in the stripped text *)

Lemma canon_symbol ci x c :
  (c < 65)%N -> canon ci x = canon ci c <-> x = c.
Proof.
  intros Hc. unfold canon.
  replace ((97 <=? c)%N) with false by (symmetry; apply N.leb_gt; lia).
  rewrite andb_false_r. cbn [andb].
  destruct (ci && (97 <=? x)%N && (x <=? 122)%N) eqn:E; [|tauto].
  apply andb_prop in E. destruct E as [E1 E2].
  apply andb_prop in E1. destruct E1 as [_ E1].
  apply N.leb_le in E1, E2. split; intros H; lia.
Qed.

Lemma rmatch_Opt R ci r s cap (k : cont R) :
  rmatch ci (Opt r) s cap k = orelse (rmatch ci r s cap k) (k s cap).
Proof. reflexivity. Qed.

Lemma star_greedy_until_gt R ci (k : cont R) s cap :
  star_greedy (not_cu 62) (fun u c => rmatch ci (Chr 62) u c k) s cap
  = match after_gt s with
    | Some rest => k rest cap
    | None => None
    end.
Proof.
  induction s as [|x s IH]; [reflexivity|].
  cbn [star_greedy after_gt]. unfold not_cu at 1.
  rewrite rmatch_Chr.
  destruct (N.eqb_spec x 62) as [->|Hx]; cbn [negb].
  - now rewrite N.eqb_refl.
  - rewrite IH.
    destruct (N.eqb_spec (canon ci x) (canon ci 62)) as [E|_].
    + apply canon_symbol in E; [contradiction | lia].
    + apply orelse_None_r.
Qed.

(** [[^>]+>]: at least one character, then up to the first [>]. *)
Lemma rmatch_until_gt R ci (k : cont R) s cap :
  rmatch ci (Seq (Plus true (Cls (not_cu 62))) (Chr 62)) s cap k
  = match s with
    | x :: s' =>
        if N.eqb x 62 then None
        else match after_gt s' with
             | Some rest => k rest cap
             | None => None
             end
    | [] => None
    end.
Proof.
  unfold Plus. rewrite !rmatch_Seq, rmatch_Cls.
  destruct s as [|x s]; [reflexivity|]. unfold not_cu at 1.
  destruct (N.eqb x 62); cbn [negb]; [reflexivity|].
  now rewrite rmatch_star_greedy, star_greedy_until_gt.
Qed.

(** A tag is [<], a character that is not [>], and everything up to the
    first [>] after it. *)
Lemma match_here_tag s :
  match_here false re_tag s
  = match s with
    | x :: y :: t =>
        if N.eqb x 60 && negb (N.eqb y 62)
        then option_map (fun r => (r, None)) (after_gt t)
        else None
    | _ => None
    end.
Proof.
  unfold match_here, re_tag. rewrite rmatch_Seq, rmatch_Chr.
  destruct s as [|x s]; [reflexivity|].
  change (canon false x) with x. change (canon false 60) with 60%N.
  destruct (N.eqb x 60); cbn [andb]; [|now destruct s].
  rewrite rmatch_Seq, rmatch_Opt, rmatch_Chr.
  destruct s as [|y t]; [reflexivity|].
  rewrite (@rmatch_until_gt _ false _ (y :: t)).
  change (canon false y) with y. change (canon false 47) with 47%N.
  destruct (N.eqb_spec y 47) as [->|Hy].
  - rewrite rmatch_until_gt. cbn [N.eqb Pos.eqb negb after_gt].
    destruct t as [|z t]; [reflexivity|]. cbn [after_gt].
    destruct (N.eqb z 62); [reflexivity|].
    now destruct (after_gt t).
  - cbn [orelse]. destruct (N.eqb y 62); cbn [negb]; [reflexivity|].
    now destruct (after_gt t).
Qed.

Lemma after_gt_length s r :
  after_gt s = Some r -> (length r < length s)%nat.
Proof.
  induction s as [|x s IH]; [discriminate|]. cbn [after_gt length].
  destruct (N.eqb x 62).
  - intros E. injection E as <-. lia.
  - intros E. apply IH in E. lia.
Qed.

Lemma after_gt_tail a s : after_gt (a ++ s) = None -> after_gt s = None.
Proof.
  induction a as [|x a IH]; [auto|]. cbn [app after_gt].
  destruct (N.eqb x 62); [discriminate | exact IH].
Qed.

Lemma after_gt_front s b : after_gt (s ++ b) = None -> after_gt s = None.
Proof.
  induction s as [|x s IH]; [auto|]. cbn [app after_gt].
  destruct (N.eqb x 62); [discriminate | exact IH].
Qed.

Lemma after_gt_skipn n s : after_gt s = None -> after_gt (skipn n s) = None.
Proof.
  intros H. rewrite <- (firstn_skipn n s) in H.
  now apply after_gt_tail in H.
Qed.

Lemma no_gt_closes_nothing t : after_gt t = None -> closes_nothing t = true.
Proof.
  destruct t as [|y t]; [reflexivity|]. unfold closes_nothing.
  intros ->. apply orb_true_r.
Qed.

Lemma closes_nothing_cases t :
  closes_nothing t = true ->
  t = [] \/ (exists t', t = 62%N :: t') \/ after_gt t = None.
Proof.
  destruct t as [|y t]; [now left|]. unfold closes_nothing. intros H.
  apply orb_prop in H. destruct H as [H|H].
  - apply N.eqb_eq in H. subst y. right; left. now exists t.
  - right; right. now destruct (after_gt (y :: t)).
Qed.

Lemma untag_solid (x : cu) (s : jsstring) :
  x <> 60%N ->
  replace_all false re_tag (u16 " ") (x :: s)
  = x :: replace_all false re_tag (u16 " ") s.
Proof.
  intros H. apply replace_all_nomatch. rewrite match_here_tag.
  destruct s; [reflexivity|].
  destruct (N.eqb_spec x 60); [contradiction | reflexivity].
Qed.

Lemma untag_open (x : cu) (t : jsstring) :
  closes_nothing t = true ->
  replace_all false re_tag (u16 " ") (x :: t)
  = x :: replace_all false re_tag (u16 " ") t.
Proof.
  intros H. apply replace_all_nomatch. rewrite match_here_tag.
  destruct t as [|y t]; [reflexivity|].
  destruct (N.eqb x 60); [|reflexivity]. cbn [andb].
  apply closes_nothing_cases in H.
  destruct H as [H|[(t' & H)|H]]; [discriminate| |].
  - injection H as -> _. reflexivity.
  - cbn [after_gt] in H. destruct (N.eqb y 62); [discriminate|].
    now rewrite H.
Qed.

Lemma untag_tag (x : cu) (t : jsstring) :
  x = 60%N -> closes_nothing t = false ->
  exists rest, (length rest < length t)%nat
    /\ replace_all false re_tag (u16 " ") (x :: t)
       = 32%N :: replace_all false re_tag (u16 " ") rest.
Proof.
  intros Hx.
  destruct t as [|y t]; [discriminate|]. unfold closes_nothing.
  intros H. apply orb_false_elim in H. destruct H as [Hy H].
  cbn [after_gt] in H. rewrite Hy in H.
  destruct (after_gt t) as [rest|] eqn:E; [|discriminate].
  exists rest. split.
  - apply after_gt_length in E. simpl. lia.
  - rewrite (@replace_all_match false re_tag (u16 " ") (x :: y :: t)
               rest None).
    + reflexivity.
    + rewrite match_here_tag, Hy, E, Hx. reflexivity.
    + apply after_gt_length in E. simpl. lia.
Qed.

Lemma untag_nil : replace_all false re_tag (u16 " ") [] = [].
Proof. reflexivity. Qed.

(** Without a [>] nothing is a tag. *)
Lemma untag_no_gt s :
  after_gt s = None -> replace_all false re_tag (u16 " ") s = s.
Proof.
  induction s as [|x s IH]; [reflexivity|]. cbn [after_gt].
  destruct (N.eqb x 62); [discriminate|]. intros H.
  rewrite untag_open by now apply no_gt_closes_nothing.
  now rewrite IH.
Qed.

Lemma untag_closes_nothing t :
  closes_nothing t = true ->
  closes_nothing (replace_all false re_tag (u16 " ") t) = true.
Proof.
  intros H. destruct (closes_nothing_cases _ H) as [->|[(t' & ->)|E]].
  - reflexivity.
  - rewrite untag_solid by discriminate. reflexivity.
  - now rewrite untag_no_gt.
Qed.

Lemma untag_tagless s :
  tagless (replace_all false re_tag (u16 " ") s) = true.
Proof.
  remember (length s) as n eqn:E.
  assert (Hn : (length s <= n)%nat) by lia. clear E.
  revert s Hn. induction n as [|n IH]; intros s Hn.
  - destruct s; [reflexivity | simpl in Hn; lia].
  - destruct s as [|x t]; [reflexivity|]. simpl in Hn.
    destruct (N.eqb_spec x 60) as [Ex|Hx].
    + destruct (closes_nothing t) eqn:Ec.
      * rewrite untag_open by exact Ec. cbn [tagless].
        rewrite untag_closes_nothing by exact Ec.
        destruct (N.eqb x 60); apply IH; lia.
      * destruct (@untag_tag x t Ex Ec) as (rest & Hlen & ->).
        cbn [tagless N.eqb Pos.eqb andb]. apply IH. lia.
    + rewrite untag_solid by exact Hx. cbn [tagless].
      destruct (N.eqb_spec x 60); [contradiction|]. apply IH. lia.
Qed.

Lemma tagless_untag_id s :
  tagless s = true -> replace_all false re_tag (u16 " ") s = s.
Proof.
  induction s as [|x s IH]; [reflexivity|]. cbn [tagless]. intros H.
  apply andb_prop in H. destruct H as [Hx Hs].
  destruct (N.eqb_spec x 60) as [Ex|Hx'].
  - rewrite untag_open by exact Hx. now rewrite IH.
  - rewrite untag_solid by exact Hx'. now rewrite IH.
Qed.

Lemma tagless_no_match s :
  tagless s = true -> re_search false re_tag s = None.
Proof.
  induction s as [|x s IH]; [reflexivity|]. cbn [tagless]. intros H.
  apply andb_prop in H. destruct H as [Hx Hs].
  cbn [re_search]. rewrite match_here_tag.
  assert (E : match s with
              | [] => None
              | y :: t =>
                  if N.eqb x 60 && negb (N.eqb y 62)
                  then option_map (fun r => (r, @None jsstring)) (after_gt t)
                  else None
              end = None).
  { destruct s as [|y t]; [reflexivity|].
    destruct (N.eqb x 60); [|reflexivity]. cbn [andb].
    apply closes_nothing_cases in Hx.
    destruct Hx as [Hx|[(t' & Hx)|Hx]]; [discriminate| |].
    - injection Hx as -> _. reflexivity.
    - cbn [after_gt] in Hx. destruct (N.eqb y 62); [discriminate|].
      now rewrite Hx. }
  rewrite E. now apply IH.
Qed.

Lemma tagless_tail a s : tagless (a ++ s) = true -> tagless s = true.
Proof.
  induction a as [|x a IH]; [auto|]. cbn [app tagless]. intros H.
  apply andb_prop in H. now apply IH.
Qed.

Lemma closes_nothing_front t b :
  closes_nothing (t ++ b) = true -> closes_nothing t = true.
Proof.
  destruct t as [|y t]; [reflexivity|]. intros H.
  destruct (closes_nothing_cases _ H) as [E|[(t' & E)|E]].
  - discriminate.
  - cbn [app] in E. injection E as -> _. reflexivity.
  - apply no_gt_closes_nothing. now apply after_gt_front in E.
Qed.

Lemma tagless_front s b : tagless (s ++ b) = true -> tagless s = true.
Proof.
  induction s as [|x s IH]; [auto|]. cbn [app tagless]. intros H.
  apply andb_prop in H. destruct H as [Hx Hs].
  rewrite (IH Hs), andb_true_r.
  destruct (N.eqb x 60); [|reflexivity].
  now apply closes_nothing_front in Hx.
Qed.

Lemma trimStart_tail s : exists a, s = a ++ trimStart s.
Proof. apply trimStart_suffix. Qed.

Lemma collapse_no_gt s :
  after_gt s = None ->
  after_gt (replace_all false re_spaces (u16 " ") s) = None.
Proof.
  remember (length s) as n eqn:E.
  assert (Hn : (length s <= n)%nat) by lia. clear E.
  revert s Hn. induction n as [|n IH]; intros s Hn.
  - destruct s; [reflexivity | simpl in Hn; lia].
  - destruct s as [|x t]; [reflexivity|]. simpl in Hn.
    cbn [after_gt]. destruct (N.eqb x 62) eqn:Ex; [discriminate|].
    intros H. destruct (is_space x) eqn:Es.
    + rewrite collapse_space by exact Es. cbn [after_gt N.eqb Pos.eqb].
      apply IH.
      * pose proof (trimStart_length t). lia.
      * destruct (trimStart_tail t) as (a & Ea). rewrite Ea in H.
        now apply after_gt_tail in H.
    + rewrite collapse_solid by exact Es. cbn [after_gt]. rewrite Ex.
      apply IH; [lia | exact H].
Qed.

Lemma collapse_closes_nothing t :
  closes_nothing t = true ->
  closes_nothing (replace_all false re_spaces (u16 " ") t) = true.
Proof.
  intros H. destruct (closes_nothing_cases _ H) as [->|[(t' & ->)|E]].
  - reflexivity.
  - rewrite collapse_solid by reflexivity. reflexivity.
  - now apply no_gt_closes_nothing, collapse_no_gt.
Qed.

Lemma collapse_tagless s :
  tagless s = true ->
  tagless (replace_all false re_spaces (u16 " ") s) = true.
Proof.
  remember (length s) as n eqn:E.
  assert (Hn : (length s <= n)%nat) by lia. clear E.
  revert s Hn. induction n as [|n IH]; intros s Hn.
  - destruct s; [reflexivity | simpl in Hn; lia].
  - destruct s as [|x t]; [reflexivity|]. simpl in Hn.
    cbn [tagless]. intros H. apply andb_prop in H. destruct H as [Hx Ht].
    destruct (is_space x) eqn:Es.
    + rewrite collapse_space by exact Es. cbn [tagless N.eqb Pos.eqb andb].
      apply IH.
      * pose proof (trimStart_length t). lia.
      * destruct (trimStart_tail t) as (a & Ea). rewrite Ea in Ht.
        now apply tagless_tail in Ht.
    + rewrite collapse_solid by exact Es. cbn [tagless].
      rewrite (IH t) by (lia || exact Ht). rewrite andb_true_r.
      destruct (N.eqb x 60); [|reflexivity].
      now apply collapse_closes_nothing.
Qed.

Lemma trim_tagless s : tagless s = true -> tagless (trim s) = true.
Proof.
  intros H. destruct (trim_infix s) as (a & b & E). rewrite E in H.
  apply tagless_tail in H. now apply tagless_front in H.
Qed.

Lemma stripHtml_tagless html : tagless (stripHtml html) = true.
Proof. apply trim_tagless, collapse_tagless, untag_tagless. Qed.

(** ** Stripping twice *)

Lemma star_lazy_no_gt R ci p (k : cont R) s cap :
  after_gt s = None ->
  star_lazy p (fun u c => rmatch ci (Chr 62) u c k) s cap = None.
Proof.
  induction s as [|x s IH]; [reflexivity|]. cbn [after_gt star_lazy].
  destruct (N.eqb_spec x 62) as [|Hx]; [discriminate|]. intros H.
  rewrite rmatch_Chr.
  destruct (N.eqb_spec (canon ci x) (canon ci 62)) as [E|_].
  - apply canon_symbol in E; [contradiction | lia].
  - cbn [orelse]. destruct (p x); [now apply IH | reflexivity].
Qed.

(** A [<s...>] block needs a [>] somewhere after its [<s]. *)
Lemma match_here_block p q (s : jsstring) :
  tagless s = true ->
  match_here true
    (Seq (Lit (60%N :: 115%N :: p))
       (Seq (Star false (Cls any_cu)) (Seq (Chr 62) q))) s = None.
Proof.
  intros Ht. unfold match_here. rewrite rmatch_Seq, rmatch_Lit.
  destruct (ci_prefix true (60%N :: 115%N :: p) s) eqn:E; [|reflexivity].
  destruct s as [|x [|y s]]; try discriminate.
  - cbn [ci_prefix] in E. now rewrite andb_false_r in E.
  - cbn [ci_prefix] in E.
    apply andb_prop in E. destruct E as [Ex E].
    apply andb_prop in E. destruct E as [Ey _].
    apply N.eqb_eq in Ex. apply canon_symbol in Ex; [|lia].
    cbn [tagless] in Ht. apply andb_prop in Ht. destruct Ht as [Hx _].
    rewrite (proj2 (N.eqb_eq x 60) Ex) in Hx.
    apply closes_nothing_cases in Hx.
    destruct Hx as [Hx|[(t' & Hx)|Hx]]; [discriminate| |].
    { injection Hx as -> _. discriminate. }
    cbn [after_gt] in Hx. destruct (N.eqb y 62); [discriminate|].
    cbn [length skipn].
    rewrite rmatch_Seq, rmatch_star_lazy.
    exact (@star_lazy_no_gt _ true any_cu
             (fun s' c' => rmatch true q s' c' (fun s'' cap => Some (s'', cap)))
             (skipn (length p) s) None (after_gt_skipn _ _ Hx)).
Qed.

Lemma match_here_script s :
  tagless s = true -> match_here true re_script s = None.
Proof. apply (match_here_block (u16 "cript")). Qed.

Lemma match_here_style s :
  tagless s = true -> match_here true re_style s = None.
Proof. apply (match_here_block (u16 "tyle")). Qed.

Lemma replace_all_tagless ci r repl s :
  (forall u, tagless u = true -> match_here ci r u = None) ->
  tagless s = true -> replace_all ci r repl s = s.
Proof.
  intros Hr. induction s as [|x s IH]; intros Ht.
  - unfold replace_all. cbn [length]. rewrite replace_all_fuel_S.
    now rewrite (Hr [] Ht).
  - rewrite replace_all_nomatch by now apply Hr.
    cbn [tagless] in Ht. apply andb_prop in Ht. now rewrite IH.
Qed.

(** A text in normal form is left as it is. *)
Lemma stripHtml_fixed s :
  tagless s = true -> single_spaced s = true -> trimmed s ->
  stripHtml s = s.
Proof.
  intros Ht Hs Hm. unfold stripHtml.
  rewrite (@replace_all_tagless true re_script [] s match_here_script Ht).
  rewrite (@replace_all_tagless true re_style [] s match_here_style Ht).
  rewrite (tagless_untag_id _ Ht), (collapse_id _ Hs).
  now apply trim_id.
Qed.

Lemma no_lt_tagless s : ~ In 60%N s -> tagless s = true.
Proof.
  induction s as [|x s IH]; [reflexivity|]. cbn [tagless]. intros H.
  rewrite IH by (intros Hin; apply H; now right).
  destruct (N.eqb_spec x 60) as [->|_]; [|reflexivity].
  exfalso. apply H. now left.
Qed.

Lemma no_lt_search ci p r s :
  ~ In 60%N s -> re_search ci (Seq (Lit (60%N :: p)) r) s = None.
Proof.
  assert (Hm : forall u : jsstring, ~ In 60%N u ->
            match_here ci (Seq (Lit (60%N :: p)) r) u = None).
  { intros u Hu. unfold match_here. rewrite rmatch_Seq, rmatch_Lit.
    destruct u as [|x u]; [reflexivity|]. cbn [ci_prefix].
    destruct (N.eqb_spec (canon ci x) (canon ci 60)) as [E|_];
      [|reflexivity].
    apply canon_symbol in E; [|lia]. exfalso. apply Hu. now left. }
  induction s as [|x s IH]; intros H; cbn [re_search]; rewrite (Hm _ H).
  - reflexivity.
  - apply IH. intros Hin. apply H. now right.
Qed.

(** X9. The text [stripHtml] returns is in normal form, whatever the
    input: no whitespace at either end, whitespace inside only as single
    U+0020 characters, and nothing left that the tag pattern matches. An
    excerpt, cut or not, has no whitespace at either end and is
    single-spaced as well. *)
Theorem stripHtml_normal_form (html : jsstring) :
  trimmed (stripHtml html)
  /\ single_spaced (stripHtml html) = true
  /\ re_search false re_tag (stripHtml html) = None
  /\ (forall item,
        trimmed (pickExcerpt item) /\ single_spaced (pickExcerpt item) = true).
Proof.
  split; [apply stripHtml_trimmed|].
  split; [apply stripHtml_single_spaced|].
  split; [apply tagless_no_match, stripHtml_tagless|].
  intros item. split; [apply pickExcerpt_no_edges|].
  apply pickExcerpt_single_spaced.
Qed.

(** X10. [stripHtml] is idempotent: stripping a stripped text changes
    nothing; none of the five passes finds anything to do. *)
Theorem stripHtml_idempotent (html : jsstring) :
  stripHtml (stripHtml html) = stripHtml html.
Proof.
  apply stripHtml_fixed.
  - apply stripHtml_tagless.
  - apply stripHtml_single_spaced.
  - apply stripHtml_trimmed.
Qed.

(** X11. Text without [<] holds no markup: no image is found in it, no
    metadata under any key [enrichOne] asks for, and [stripHtml] only
    collapses its whitespace and trims it. *)
Theorem plain_text_has_no_markup (html : jsstring) :
  ~ In 60%N html ->
  firstImageFromHtml html = []
  /\ (forall key, In key meta_keys -> Enrich.extractMeta html key = [])
  /\ stripHtml html = trim (replace_all false re_spaces (u16 " ") html).
Proof.
  intros H. split; [|split].
  - unfold firstImageFromHtml, re_img.
    change (u16 "<img") with (60%N :: u16 "img").
    now rewrite no_lt_search.
  - intros key _. unfold Enrich.extractMeta, Enrich.re_meta.
    change (u16 "<meta") with (60%N :: u16 "meta").
    now rewrite no_lt_search.
  - pose proof (no_lt_tagless _ H) as Ht. unfold stripHtml.
    rewrite (@replace_all_tagless true re_script [] html match_here_script Ht).
    rewrite (@replace_all_tagless true re_style [] html match_here_style Ht).
    now rewrite (tagless_untag_id _ Ht).
Qed.

Lemma plain_text_witness :
  firstImageFromHtml (u16 "Two  words ") = []
  /\ stripHtml (u16 "Two  words ") = u16 "Two words".
Proof.
  assert (H : ~ In 60%N (u16 "Two  words ")).
  { cbn. intuition discriminate. }
  split.
  - exact (proj1 (@plain_text_has_no_markup _ H)).
  - rewrite (proj2 (proj2 (@plain_text_has_no_markup _ H))). reflexivity.
Defined.

(** ** Reading an attribute of a tag *)

Lemma rmatch_Grp R ci r s cap (k : cont R) :
  rmatch ci (Grp r) s cap k
  = rmatch ci r s cap
      (fun s' _ => k s' (Some (firstn (length s - length s') s))).
Proof. reflexivity. Qed.

(** A greedy star goes on over characters of the class when what lies
    further on succeeds. *)
Lemma star_greedy_skip R p (k : cont R) (a b : jsstring) cap r :
  Forall (fun x => p x = true) a ->
  star_greedy p k b cap = Some r -> star_greedy p k (a ++ b) cap = Some r.
Proof.
  intros Ha Hb. induction Ha as [|x a Hx Ha IH]; [exact Hb|].
  cbn [app star_greedy]. now rewrite Hx, IH.
Qed.

Lemma star_greedy_cons R p (k : cont R) (x : cu) (s : jsstring) cap :
  star_greedy p k (x :: s) cap
  = if p x then orelse (star_greedy p k s cap) (k (x :: s) cap)
    else k (x :: s) cap.
Proof. reflexivity. Qed.

(** It fails when the continuation fails wherever the star can stop. *)
Lemma star_greedy_none R p (k : cont R) (a b : jsstring) cap :
  starts_with_none p b = true ->
  (forall n, k (skipn n a ++ b) cap = None) ->
  star_greedy p k (a ++ b) cap = None.
Proof.
  intros Hb. induction a as [|x a IH]; intros Hk.
  - cbn [app]. specialize (Hk 0%nat). cbn [skipn app] in Hk.
    destruct b as [|y b]; [exact Hk|]. cbn [star_greedy].
    cbn [starts_with_none] in Hb. apply negb_true_iff in Hb.
    now rewrite Hb.
  - cbn [app star_greedy].
    rewrite (IH (fun n => Hk (S n))).
    pose proof (Hk 0%nat) as H0. cbn [skipn app] in H0.
    rewrite H0. now destruct (p x).
Qed.

Lemma firstn_app_exact {A} (a b : list A) :
  firstn (length (a ++ b) - length b) (a ++ b) = a.
Proof.
  rewrite length_app. replace (length a + length b - length b)%nat
    with (length a + 0)%nat by lia.
  rewrite firstn_app_2. cbn [firstn]. apply app_nil_r.
Qed.

Lemma ci_prefix_cut ci p (a : jsstring) (x : cu) t :
  (forall c, In c p -> canon ci x <> canon ci c) ->
  ci_prefix ci p (a ++ x :: t) = true -> ci_prefix ci p a = true.
Proof.
  revert a; induction p as [|c p IH]; intros a Hx H; [reflexivity|].
  destruct a as [|y a]; cbn [app ci_prefix] in *.
  - apply andb_prop in H. destruct H as [H _]. apply N.eqb_eq in H.
    exfalso. apply (Hx c); [now left | exact H].
  - apply andb_prop in H. destruct H as [H1 H2]. rewrite H1.
    apply IH; [|exact H2]. intros d Hd. apply Hx. now right.
Qed.

Lemma occurs_ci_skipn p n s :
  occurs_ci p s = false -> ci_prefix true p (skipn n s) = false.
Proof.
  revert s; induction n as [|n IH]; intros s H.
  - cbn [skipn]. destruct s; cbn [occurs_ci] in H;
      now apply orb_false_elim in H.
  - destruct s as [|x s]; cbn [skipn].
    + cbn [occurs_ci] in H. now apply orb_false_elim in H.
    + apply IH. cbn [occurs_ci] in H. now apply orb_false_elim in H.
Qed.

Lemma match_here_needs_lt ci p r (s : jsstring) :
  match s with x :: _ => x <> 60%N | [] => True end ->
  match_here ci (Seq (Lit (60%N :: p)) r) s = None.
Proof.
  intros H. unfold match_here. rewrite rmatch_Seq, rmatch_Lit.
  destruct s as [|x s]; [reflexivity|]. cbn [ci_prefix].
  destruct (N.eqb_spec (canon ci x) (canon ci 60)) as [E|_]; [|reflexivity].
  apply canon_symbol in E; [contradiction | lia].
Qed.

Lemma re_search_skip ci p r (pre s : jsstring) :
  ~ In 60%N pre -> s <> [] ->
  re_search ci (Seq (Lit (60%N :: p)) r) (pre ++ s)
  = re_search ci (Seq (Lit (60%N :: p)) r) s.
Proof.
  intros H Hs. induction pre as [|x pre IH]; [reflexivity|].
  cbn [app re_search]. rewrite match_here_needs_lt.
  - apply IH. intros Hin. apply H. now right.
  - intros ->. apply H. now left.
Qed.

Lemma quote_cu_cases (q : cu) : quote_cu q = true -> q = 34%N \/ q = 39%N.
Proof.
  unfold quote_cu. intros H. apply orb_prop in H.
  destruct H as [H|H]; apply N.eqb_eq in H; auto.
Qed.

Lemma not_gt_Forall (s : jsstring) :
  ~ In 62%N s -> Forall (fun x => not_cu 62 x = true) s.
Proof.
  intros H. apply Forall_forall. intros x Hx. unfold not_cu.
  apply negb_true_iff. apply N.eqb_neq. intros ->. contradiction.
Qed.

Lemma no_quote_Forall (s : jsstring) :
  ~ In 34%N s -> ~ In 39%N s ->
  Forall (fun x => not_quote_cu x = true) s.
Proof.
  intros H1 H2. apply Forall_forall. intros x Hx.
  unfold not_quote_cu, quote_cu. apply negb_true_iff, orb_false_intro;
    apply N.eqb_neq; intros ->; contradiction.
Qed.

Lemma rmatch_Alt R ci r1 r2 s cap (k : cont R) :
  rmatch ci (Alt r1 r2) s cap k
  = orelse (rmatch ci r1 s cap k) (rmatch ci r2 s cap k).
Proof. reflexivity. Qed.

(** A greedy star stops at the last place where the continuation
    succeeds. *)
Lemma star_greedy_last R p (k : cont R) (before : jsstring) (x : cu)
  (a b : jsstring) cap r :
  Forall (fun y => p y = true) before -> p x = true ->
  starts_with_none p b = true ->
  (forall n, k (skipn n a ++ b) cap = None) ->
  k (x :: a ++ b) cap = Some r ->
  star_greedy p k (before ++ x :: a ++ b) cap = Some r.
Proof.
  intros Hb Hx Hs Hnone Hk. apply star_greedy_skip; [exact Hb|].
  rewrite star_greedy_cons, Hx.
  now rewrite (star_greedy_none p k a b cap Hs Hnone).
Qed.

(** A literal that does not occur in [a] matches at no place of [a], also
    when [>] follows. *)
Lemma ci_prefix_later (lit a rest : jsstring) n :
  forallb (fun c => negb (N.eqb (canon true 62) (canon true c))) lit = true ->
  occurs_ci lit a = false ->
  ci_prefix true lit (skipn n a ++ 62%N :: rest) = false.
Proof.
  intros Hlit Hocc.
  destruct (ci_prefix true lit (skipn n a ++ 62%N :: rest)) eqn:E;
    [|reflexivity].
  apply ci_prefix_cut in E.
  - now rewrite (occurs_ci_skipn _ n _ Hocc) in E.
  - intros c Hc. rewrite forallb_forall in Hlit. specialize (Hlit c Hc).
    apply negb_true_iff, N.eqb_neq in Hlit. exact Hlit.
Qed.

Lemma ci_prefix_snoc ci (a : jsstring) (c : cu) (t : jsstring) :
  ci_prefix ci (a ++ [c]) t
  = ci_prefix ci a t
    && match skipn (length a) t with
       | x :: _ => N.eqb (canon ci x) (canon ci c)
       | [] => false
       end.
Proof.
  revert t; induction a as [|d a IH]; intros t.
  - cbn [app length skipn ci_prefix]. destruct t as [|x t]; [reflexivity|].
    now rewrite andb_true_r.
  - cbn [app length ci_prefix]. destruct t as [|x t]; [reflexivity|].
    cbn [skipn]. rewrite IH. now rewrite andb_assoc.
Qed.

(** [lit=] read by the pattern: the literal, then [=]. *)
Lemma rmatch_Lit_eq R (lit : jsstring) rr (t : jsstring) cap (k : cont R) :
  ci_prefix true (lit ++ [61%N]) t = false ->
  rmatch true (Lit lit) t cap
    (fun s' cap' => rmatch true (Seq (Chr 61) rr) s' cap' k) = None.
Proof.
  intros H. rewrite rmatch_Lit. rewrite ci_prefix_snoc in H.
  destruct (ci_prefix true lit t); [|reflexivity]. cbn [andb] in H.
  rewrite rmatch_Seq, rmatch_Chr.
  destruct (skipn (length lit) t) as [|x u]; [reflexivity|].
  now rewrite H.
Qed.

Lemma after_gt_app (more rest : jsstring) :
  ~ In 62%N more -> after_gt (more ++ 62%N :: rest) = Some rest.
Proof.
  induction more as [|x more IH]; intros H; [reflexivity|].
  cbn [app after_gt]. destruct (N.eqb_spec x 62) as [->|_].
  - exfalso. apply H. now left.
  - apply IH. intros Hin. apply H. now right.
Qed.

(** An attribute [lit], a quote, the value, and what follows the value. *)
Lemma rmatch_quoted_value R (lit : jsstring) rr (key U : jsstring)
  (q1 q2 : cu) (T : jsstring) (k : cont R) r :
  ci_same lit key ->
  quote_cu q1 = true -> quote_cu q2 = true ->
  U <> [] -> ~ In 34%N U -> ~ In 39%N U ->
  rmatch true rr (q2 :: T) (Some U) k = Some r ->
  rmatch true
    (Seq (Lit lit)
       (Seq (Cls quote_cu) (Seq (Grp (Plus true (Cls not_quote_cu))) rr)))
    (key ++ q1 :: U ++ q2 :: T) None k
  = Some r.
Proof.
  intros [Hkey Hlen] Hq1 Hq2 HU H34 H39 Hk.
  pose proof (no_quote_Forall _ H34 H39) as Hnq.
  rewrite rmatch_Seq, rmatch_Lit.
  rewrite (@ci_prefix_app true lit key (q1 :: U ++ q2 :: T) Hkey).
  rewrite skipn_length_app by (symmetry; exact Hlen).
  rewrite rmatch_Seq, rmatch_Cls, Hq1.
  rewrite rmatch_Seq, rmatch_Grp. unfold Plus.
  rewrite rmatch_Seq, rmatch_Cls.
  destruct U as [|u0 U]; [contradiction|].
  inversion Hnq as [|? ? Hu0 HU']; subst.
  cbn [app]. rewrite Hu0. rewrite rmatch_star_greedy.
  apply star_greedy_skip; [exact HU'|].
  rewrite star_greedy_cons. unfold not_quote_cu at 1. rewrite Hq2.
  cbn [negb].
  change (u0 :: U ++ q2 :: T) with ((u0 :: U) ++ q2 :: T).
  rewrite firstn_app_exact. exact Hk.
Qed.

Lemma ci_same_cons (lit s : jsstring) (c : cu) :
  ci_same (c :: lit) s ->
  exists x s', s = x :: s' /\ canon true x = canon true c /\ ci_same lit s'.
Proof.
  intros [H Hlen]. destruct s as [|x s]; [discriminate|].
  cbn [ci_prefix] in H. apply andb_prop in H. destruct H as [H1 H2].
  apply N.eqb_eq in H1. exists x, s. split; [reflexivity|].
  split; [exact H1|]. split; [exact H2|]. simpl in Hlen. lia.
Qed.

Lemma letter_not_gt (x c : cu) :
  canon true x = canon true c -> N.eqb (canon true 62) (canon true c) = false ->
  not_cu 62 x = true.
Proof.
  intros E H. unfold not_cu. apply negb_true_iff, N.eqb_neq. intros ->.
  rewrite E, N.eqb_refl in H. discriminate.
Qed.

(** ** The first image of a text *)

Lemma src_key_letters (key : jsstring) :
  ci_prefix true (u16 "src=") key = true -> length key = 4%nat ->
  exists k0 k1 k2 k3,
    key = [k0; k1; k2; k3]
    /\ canon true k0 = 83%N /\ canon true k1 = 82%N
    /\ canon true k2 = 67%N /\ canon true k3 = 61%N.
Proof.
  intros H Hlen.
  destruct key as [|k0 [|k1 [|k2 [|k3 [|? ?]]]]]; try discriminate.
  exists k0, k1, k2, k3.
  change (u16 "src=") with [115%N; 114%N; 99%N; 61%N] in H.
  cbn [ci_prefix] in H.
  apply andb_prop in H. destruct H as [H0 H].
  apply andb_prop in H. destruct H as [H1 H].
  apply andb_prop in H. destruct H as [H2 H].
  apply andb_prop in H. destruct H as [H3 _].
  apply N.eqb_eq in H0, H1, H2, H3. auto.
Qed.

(** No attempt to read [src=] succeeds further on in the tag. *)
Lemma src_not_later (k1 k2 k3 q1 : cu) (M rest : jsstring) n :
  canon true k1 = 82%N -> canon true k2 = 67%N -> canon true k3 = 61%N ->
  quote_cu q1 = true ->
  occurs_ci (u16 "src=") M = false ->
  ci_prefix true (u16 "src=")
    (skipn n (k1 :: k2 :: k3 :: q1 :: M) ++ 62%N :: rest) = false.
Proof.
  intros H1 H2 H3 Hq Hocc.
  destruct (ci_prefix true (u16 "src=")
              (skipn n (k1 :: k2 :: k3 :: q1 :: M) ++ 62%N :: rest)) eqn:E;
    [|reflexivity].
  apply ci_prefix_cut in E.
  - destruct n as [|[|[|[|n]]]]; cbn [skipn] in E.
    + change (u16 "src=") with [115%N; 114%N; 99%N; 61%N] in E.
      cbn [ci_prefix] in E. rewrite H1 in E. discriminate.
    + change (u16 "src=") with [115%N; 114%N; 99%N; 61%N] in E.
      cbn [ci_prefix] in E. rewrite H2 in E. discriminate.
    + change (u16 "src=") with [115%N; 114%N; 99%N; 61%N] in E.
      cbn [ci_prefix] in E. rewrite H3 in E. discriminate.
    + destruct (quote_cu_cases _ Hq) as [-> | ->]; discriminate.
    + now rewrite (occurs_ci_skipn _ n _ Hocc) in E.
  - intros c Hc. cbn in Hc.
    destruct Hc as [<-|[<-|[<-|[<-|[]]]]]; discriminate.
Qed.

Lemma match_here_img (opn attrs key U more rest : jsstring) (q1 q2 : cu) :
  ci_prefix true (u16 "<img") opn = true -> length opn = 4%nat ->
  attrs <> [] -> ~ In 62%N attrs ->
  ci_prefix true (u16 "src=") key = true -> length key = 4%nat ->
  quote_cu q1 = true -> quote_cu q2 = true ->
  U <> [] -> ~ In 34%N U -> ~ In 39%N U ->
  occurs_ci (u16 "src=") (U ++ q2 :: more) = false ->
  match_here true re_img
    (opn ++ attrs ++ key ++ q1 :: U ++ q2 :: more ++ 62%N :: rest)
  = Some (more ++ 62%N :: rest, Some U).
Proof.
  intros Hopn Hopn4 Hattrs Hgt Hkey Hkey4 Hq1 Hq2 HU H34 H39 Hocc.
  unfold match_here, re_img.
  rewrite rmatch_Seq, rmatch_Lit.
  rewrite (@ci_prefix_app true (u16 "<img") opn _ Hopn).
  rewrite skipn_length_app by (symmetry; exact Hopn4).
  unfold Plus at 1. rewrite !rmatch_Seq, rmatch_Cls.
  destruct attrs as [|x attrs]; [contradiction|].
  apply not_gt_Forall in Hgt.
  inversion Hgt as [|? ? Hx Hattrs']; subst.
  cbn [app]. rewrite Hx. rewrite rmatch_star_greedy.
  apply star_greedy_skip; [exact Hattrs'|].
  destruct (src_key_letters _ Hkey Hkey4)
    as (k0 & k1 & k2 & k3 & Ekey & E0 & E1 & E2 & E3).
  assert (Hk0 : not_cu 62 k0 = true).
  { unfold not_cu. apply negb_true_iff, N.eqb_neq. intros ->. discriminate. }
  subst key.
  replace (U ++ q2 :: more ++ 62%N :: rest)
    with ((U ++ q2 :: more) ++ 62%N :: rest)
    by (now rewrite <- app_assoc).
  cbn [app]. rewrite star_greedy_cons, Hk0.
  match goal with
  | |- orelse ?a _ = _ => assert (Hnone : a = None)
  end.
  { apply (@star_greedy_none _ (not_cu 62) _
             (k1 :: k2 :: k3 :: q1 :: U ++ q2 :: more) (62%N :: rest) None);
      [reflexivity|].
    intros n. rewrite rmatch_Seq, rmatch_Lit.
    now rewrite (@src_not_later k1 k2 k3 q1 (U ++ q2 :: more) rest n). }
  rewrite Hnone. cbn [orelse]. rewrite <- app_assoc. cbn [app].
  apply (@rmatch_quoted_value _ (u16 "src=") (Cls quote_cu)
           [k0; k1; k2; k3] U q1 q2 (more ++ 62%N :: rest)); auto.
  - split; [exact Hkey | exact Hkey4].
  - now rewrite rmatch_Cls, Hq2.
Qed.

(** X12. [firstImageFromHtml] finds the image of the first [img] tag: in a
    text whose first [<] opens [<img ATTRS src=QUQ MORE>], with some
    attribute text before [src=], quotes of either kind around a non-empty
    [U] that holds no quote, and no further [src=] in [U] or in the rest of
    the tag, the result is [U]. Letter case does not matter in [<img] and
    [src=]. [ATTRS] may itself hold [src=]: the pattern is greedy, so of
    several [src=] in the tag the last is the one that is read. *)
Theorem firstImageFromHtml_finds
  (pre opn attrs key U more rest : jsstring) (q1 q2 : cu) :
  ~ In 60%N pre ->
  ci_prefix true (u16 "<img") opn = true -> length opn = 4%nat ->
  attrs <> [] -> ~ In 62%N attrs ->
  ci_prefix true (u16 "src=") key = true -> length key = 4%nat ->
  quote_cu q1 = true -> quote_cu q2 = true ->
  U <> [] -> ~ In 34%N U -> ~ In 39%N U ->
  occurs_ci (u16 "src=") (U ++ q2 :: more) = false ->
  firstImageFromHtml
    (pre ++ opn ++ attrs ++ key ++ q1 :: U ++ q2 :: more ++ 62%N :: rest)
  = U.
Proof.
  intros Hpre Hopn Hopn4 Hattrs Hgt Hkey Hkey4 Hq1 Hq2 HU H34 H39 Hocc.
  unfold firstImageFromHtml.
  unfold re_img. change (u16 "<img") with (60%N :: u16 "img").
  rewrite re_search_skip; [|exact Hpre|].
  - destruct opn as [|o opn]; [discriminate|]. cbn [app re_search].
    pose proof (@match_here_img (o :: opn) attrs key U more rest q1 q2
                  Hopn Hopn4 Hattrs Hgt Hkey Hkey4 Hq1 Hq2 HU H34 H39 Hocc)
      as Hm.
    unfold re_img in Hm. change (u16 "<img") with (60%N :: u16 "img") in Hm.
    cbn [app] in Hm. rewrite Hm. reflexivity.
  - destruct opn; discriminate.
Qed.

(** An upper-case tag with single quotes and a second attribute; and a
    tag with [src] and [data-src], where [data-src] is read. *)
Lemma firstImageFromHtml_finds_witness :
  firstImageFromHtml
    (u16 "Listen: <IMG class='c' SRC='https://n.example/i.png' alt='x'> now")
  = u16 "https://n.example/i.png"
  /\ firstImageFromHtml (u16 "<img src='a.png' data-src='b.png'>")
     = u16 "b.png".
Proof.
  split.
  - apply (@firstImageFromHtml_finds
             (u16 "Listen: ") (u16 "<IMG") (u16 " class='c' ") (u16 "SRC=")
             (u16 "https://n.example/i.png") (u16 " alt='x'") (u16 " now")
             39%N 39%N);
      try reflexivity; try discriminate; cbn; intuition discriminate.
  - apply (@firstImageFromHtml_finds
             [] (u16 "<img") (u16 " src='a.png' data-") (u16 "src=")
             (u16 "b.png") [] [] 39%N 39%N);
      try reflexivity; try discriminate; cbn; intuition discriminate.
Defined.

(** ** Metadata of a page *)

Ltac right_nest := cbn [app]; repeat (rewrite <- app_assoc; cbn [app]).

(** The end of the tag: the closing quote, the rest of the tag, [>]. *)
Lemma meta_tail (V more rest : jsstring) (q4 : cu) :
  quote_cu q4 = true -> ~ In 62%N more ->
  rmatch true
    (Seq (Cls quote_cu) (Seq (Star true (Cls (not_cu 62))) (Chr 62)))
    (q4 :: more ++ 62%N :: rest) (Some V) (fun s cap => Some (s, cap))
  = Some (rest, Some V).
Proof.
  intros Hq Hmore. rewrite rmatch_Seq, rmatch_Cls, Hq.
  rewrite rmatch_Seq, rmatch_star_greedy, star_greedy_until_gt.
  now rewrite after_gt_app.
Qed.

Lemma meta_content (ckey V more rest : jsstring) (q3 q4 : cu) :
  ci_same (u16 "content=") ckey ->
  quote_cu q3 = true -> quote_cu q4 = true ->
  V <> [] -> ~ In 34%N V -> ~ In 39%N V -> ~ In 62%N more ->
  rmatch true
    (Seq (Lit (u16 "content="))
       (Seq (Cls quote_cu)
          (Seq (Grp (Plus true (Cls not_quote_cu)))
             (Seq (Cls quote_cu)
                (Seq (Star true (Cls (not_cu 62))) (Chr 62))))))
    (ckey ++ q3 :: V ++ q4 :: more ++ 62%N :: rest) None
    (fun s cap => Some (s, cap))
  = Some (rest, Some V).
Proof.
  intros Hc Hq3 Hq4 HV H34 H39 Hmore.
  apply rmatch_quoted_value; auto. now apply meta_tail.
Qed.

Lemma meta_mid (mid ckey V more rest : jsstring) (q3 q4 : cu) :
  mid <> [] -> ~ In 62%N mid ->
  ci_same (u16 "content=") ckey ->
  quote_cu q3 = true -> quote_cu q4 = true ->
  V <> [] -> ~ In 34%N V -> ~ In 39%N V -> ~ In 62%N more ->
  occurs_ci (u16 "content=") (tl ckey ++ q3 :: V ++ q4 :: more) = false ->
  rmatch true
    (Seq (Plus true (Cls (not_cu 62)))
       (Seq (Lit (u16 "content="))
          (Seq (Cls quote_cu)
             (Seq (Grp (Plus true (Cls not_quote_cu)))
                (Seq (Cls quote_cu)
                   (Seq (Star true (Cls (not_cu 62))) (Chr 62)))))))
    (mid ++ ckey ++ q3 :: V ++ q4 :: more ++ 62%N :: rest) None
    (fun s cap => Some (s, cap))
  = Some (rest, Some V).
Proof.
  intros Hmid Hgt Hc Hq3 Hq4 HV H34 H39 Hmore Hocc.
  unfold Plus at 1. rewrite !rmatch_Seq, rmatch_Cls.
  destruct mid as [|m0 mid]; [contradiction|].
  apply not_gt_Forall in Hgt. inversion Hgt as [|? ? Hm0 Hmid']; subst.
  cbn [app]. rewrite Hm0, rmatch_star_greedy.
  change (u16 "content=") with (99%N :: u16 "ontent=") in Hc.
  destruct (@ci_same_cons _ _ _ Hc) as (c0 & ckey' & -> & Ec0 & Hc').
  cbn [tl] in Hocc.
  replace (mid ++ (c0 :: ckey') ++ q3 :: V ++ q4 :: more ++ 62%N :: rest)
    with (mid ++ c0 :: (ckey' ++ q3 :: V ++ q4 :: more) ++ 62%N :: rest)
    by (now right_nest).
  apply star_greedy_last.
  - exact Hmid'.
  - apply (@letter_not_gt c0 99%N Ec0). reflexivity.
  - reflexivity.
  - intros n. rewrite rmatch_Seq, rmatch_Lit.
    now rewrite ci_prefix_later.
  - replace (c0 :: (ckey' ++ q3 :: V ++ q4 :: more) ++ 62%N :: rest)
      with ((c0 :: ckey') ++ q3 :: V ++ q4 :: more ++ 62%N :: rest)
      by (now right_nest).
    apply meta_content; auto.
Qed.

Lemma meta_key (key key' mid ckey V more rest : jsstring) (q1 q2 q3 q4 : cu) :
  ci_same key key' ->
  quote_cu q1 = true -> quote_cu q2 = true ->
  mid <> [] -> ~ In 62%N mid ->
  ci_same (u16 "content=") ckey ->
  quote_cu q3 = true -> quote_cu q4 = true ->
  V <> [] -> ~ In 34%N V -> ~ In 39%N V -> ~ In 62%N more ->
  occurs_ci (u16 "content=") (tl ckey ++ q3 :: V ++ q4 :: more) = false ->
  rmatch true
    (Seq (Chr 61)
       (Seq (Cls quote_cu)
          (Seq (Lit key)
             (Seq (Cls quote_cu)
                (Seq (Plus true (Cls (not_cu 62)))
                   (Seq (Lit (u16 "content="))
                      (Seq (Cls quote_cu)
                         (Seq (Grp (Plus true (Cls not_quote_cu)))
                            (Seq (Cls quote_cu)
                               (Seq (Star true (Cls (not_cu 62)))
                                  (Chr 62)))))))))))
    (61%N :: q1 :: key' ++ q2 :: mid ++ ckey ++ q3 :: V ++ q4 :: more
       ++ 62%N :: rest) None
    (fun s cap => Some (s, cap))
  = Some (rest, Some V).
Proof.
  intros [Hk Hklen] Hq1 Hq2 Hmid Hgt Hc Hq3 Hq4 HV H34 H39 Hmore Hocc.
  rewrite rmatch_Seq, rmatch_Chr, N.eqb_refl.
  rewrite rmatch_Seq, rmatch_Cls, Hq1.
  rewrite rmatch_Seq, rmatch_Lit.
  rewrite (@ci_prefix_app true key key' _ Hk).
  rewrite skipn_length_app by (symmetry; exact Hklen).
  rewrite rmatch_Seq, rmatch_Cls, Hq2.
  now apply meta_mid.
Qed.

Lemma meta_attr (key pn key' mid ckey V more rest : jsstring)
  (q1 q2 q3 q4 : cu) :
  ci_same (u16 "property") pn \/ ci_same (u16 "name") pn ->
  ci_same key key' ->
  quote_cu q1 = true -> quote_cu q2 = true ->
  mid <> [] -> ~ In 62%N mid ->
  ci_same (u16 "content=") ckey ->
  quote_cu q3 = true -> quote_cu q4 = true ->
  V <> [] -> ~ In 34%N V -> ~ In 39%N V -> ~ In 62%N more ->
  occurs_ci (u16 "content=") (tl ckey ++ q3 :: V ++ q4 :: more) = false ->
  rmatch true
    (Seq (Alt (Lit (u16 "property")) (Lit (u16 "name")))
       (Seq (Chr 61)
          (Seq (Cls quote_cu)
             (Seq (Lit key)
                (Seq (Cls quote_cu)
                   (Seq (Plus true (Cls (not_cu 62)))
                      (Seq (Lit (u16 "content="))
                         (Seq (Cls quote_cu)
                            (Seq (Grp (Plus true (Cls not_quote_cu)))
                               (Seq (Cls quote_cu)
                                  (Seq (Star true (Cls (not_cu 62)))
                                     (Chr 62))))))))))))
    (pn ++ 61%N :: q1 :: key' ++ q2 :: mid ++ ckey ++ q3 :: V ++ q4 :: more
       ++ 62%N :: rest) None
    (fun s cap => Some (s, cap))
  = Some (rest, Some V).
Proof.
  intros Hpn Hk Hq1 Hq2 Hmid Hgt Hc Hq3 Hq4 HV H34 H39 Hmore Hocc.
  pose proof (@meta_key key key' mid ckey V more rest q1 q2 q3 q4
                Hk Hq1 Hq2 Hmid Hgt Hc Hq3 Hq4 HV H34 H39 Hmore Hocc) as Hrest.
  set (X := 61%N :: q1 :: key' ++ q2 :: mid ++ ckey ++ q3 :: V ++ q4 :: more
              ++ 62%N :: rest) in *.
  rewrite rmatch_Seq, rmatch_Alt, !rmatch_Lit.
  destruct Hpn as [[Hp Hplen]|[Hp Hplen]].
  - rewrite (@ci_prefix_app true (u16 "property") pn X Hp).
    rewrite skipn_length_app by (symmetry; exact Hplen).
    now rewrite Hrest.
  - assert (Hno : ci_prefix true (u16 "property") (pn ++ X) = false).
    { destruct pn as [|n0 pn']; [discriminate|].
      change (u16 "name") with (110%N :: u16 "ame") in Hp.
      cbn [ci_prefix] in Hp. apply andb_prop in Hp.
      destruct Hp as [H0 _]. apply N.eqb_eq in H0.
      change (u16 "property") with (112%N :: u16 "roperty").
      cbn [app ci_prefix]. now rewrite H0. }
    rewrite Hno. cbn [orelse].
    rewrite (@ci_prefix_app true (u16 "name") pn X Hp).
    rewrite skipn_length_app by (symmetry; exact Hplen).
    exact Hrest.
Qed.

Lemma match_here_meta (key opn attrs pn key' mid ckey V more rest : jsstring)
  (q1 q2 q3 q4 : cu) :
  ci_same (u16 "<meta") opn ->
  attrs <> [] -> ~ In 62%N attrs ->
  ci_same (u16 "property") pn \/ ci_same (u16 "name") pn ->
  ci_same key key' ->
  quote_cu q1 = true -> quote_cu q2 = true ->
  mid <> [] -> ~ In 62%N mid ->
  ci_same (u16 "content=") ckey ->
  quote_cu q3 = true -> quote_cu q4 = true ->
  V <> [] -> ~ In 34%N V -> ~ In 39%N V -> ~ In 62%N more ->
  occurs_ci (u16 "content=") (tl ckey ++ q3 :: V ++ q4 :: more) = false ->
  occurs_ci (u16 "property=")
    (tl pn ++ 61%N :: q1 :: key' ++ q2 :: mid ++ ckey ++ q3 :: V
       ++ q4 :: more) = false ->
  occurs_ci (u16 "name=")
    (tl pn ++ 61%N :: q1 :: key' ++ q2 :: mid ++ ckey ++ q3 :: V
       ++ q4 :: more) = false ->
  match_here true (Enrich.re_meta key)
    (opn ++ attrs ++ pn ++ 61%N :: q1 :: key' ++ q2 :: mid ++ ckey
       ++ q3 :: V ++ q4 :: more ++ 62%N :: rest)
  = Some (rest, Some V).
Proof.
  intros [Ho Holen] Hattrs Hgt Hpn Hk Hq1 Hq2 Hmid Hmgt Hc Hq3 Hq4
    HV H34 H39 Hmore Hocc HoccP HoccN.
  pose proof (@meta_attr key pn key' mid ckey V more rest q1 q2 q3 q4
                Hpn Hk Hq1 Hq2 Hmid Hmgt Hc Hq3 Hq4 HV H34 H39 Hmore Hocc)
    as Hhere.
  unfold match_here, Enrich.re_meta.
  rewrite rmatch_Seq, rmatch_Lit.
  rewrite (@ci_prefix_app true (u16 "<meta") opn _ Ho).
  rewrite skipn_length_app by (symmetry; exact Holen).
  unfold Plus at 1. rewrite !rmatch_Seq, rmatch_Cls.
  destruct attrs as [|x attrs]; [contradiction|].
  apply not_gt_Forall in Hgt. inversion Hgt as [|? ? Hx Hattrs']; subst.
  cbn [app]. rewrite Hx, rmatch_star_greedy.
  assert (Hn0 : exists n0 pn', pn = n0 :: pn' /\ not_cu 62 n0 = true).
  { destruct Hpn as [Hp|Hp].
    - change (u16 "property") with (112%N :: u16 "roperty") in Hp.
      destruct (@ci_same_cons _ _ _ Hp) as (n0 & pn' & -> & E & _).
      exists n0, pn'. split; [reflexivity|].
      apply (@letter_not_gt n0 112%N E). reflexivity.
    - change (u16 "name") with (110%N :: u16 "ame") in Hp.
      destruct (@ci_same_cons _ _ _ Hp) as (n0 & pn' & -> & E & _).
      exists n0, pn'. split; [reflexivity|].
      apply (@letter_not_gt n0 110%N E). reflexivity. }
  destruct Hn0 as (n0 & pn' & -> & Hn0). cbn [tl] in HoccP, HoccN.
  replace (attrs ++ (n0 :: pn') ++ 61%N :: q1 :: key' ++ q2 :: mid ++ ckey
             ++ q3 :: V ++ q4 :: more ++ 62%N :: rest)
    with (attrs ++ n0 :: (pn' ++ 61%N :: q1 :: key' ++ q2 :: mid ++ ckey
                            ++ q3 :: V ++ q4 :: more) ++ 62%N :: rest)
    by (now right_nest).
  apply star_greedy_last.
  - exact Hattrs'.
  - exact Hn0.
  - reflexivity.
  - intros n. rewrite rmatch_Seq, rmatch_Alt.
    rewrite (@rmatch_Lit_eq _ (u16 "property") _ _ _ _
               (@ci_prefix_later (u16 "property=") _ rest n eq_refl HoccP)).
    rewrite (@rmatch_Lit_eq _ (u16 "name") _ _ _ _
               (@ci_prefix_later (u16 "name=") _ rest n eq_refl HoccN)).
    reflexivity.
  - replace (n0 :: (pn' ++ 61%N :: q1 :: key' ++ q2 :: mid ++ ckey
                      ++ q3 :: V ++ q4 :: more) ++ 62%N :: rest)
      with ((n0 :: pn') ++ 61%N :: q1 :: key' ++ q2 :: mid ++ ckey
              ++ q3 :: V ++ q4 :: more ++ 62%N :: rest)
      by (now right_nest).
    exact Hhere.
Qed.

(** X13. [extractMeta] reads the content of a metadata tag, for each key
    [enrichOne] asks for: in a page whose first [<] opens
    [<meta ATTRS property=QkeyQ MID content=QVQ MORE>] (or [name=] for
    [property=]), with quotes of either kind, a non-empty [V] that holds no
    quote, and no further [property=], [name=] or [content=] in the rest of
    the tag, the result for [key] is [V]. Letter case does not matter, in
    [key] neither. *)
Theorem extractMeta_finds
  (key pre opn attrs pn key' mid ckey V more rest : jsstring)
  (q1 q2 q3 q4 : cu) :
  In key meta_keys ->
  ~ In 60%N pre ->
  ci_same (u16 "<meta") opn ->
  attrs <> [] -> ~ In 62%N attrs ->
  ci_same (u16 "property") pn \/ ci_same (u16 "name") pn ->
  ci_same key key' ->
  forallb quote_cu [q1; q2; q3; q4] = true ->
  mid <> [] -> ~ In 62%N mid ->
  ci_same (u16 "content=") ckey ->
  V <> [] -> ~ In 34%N V -> ~ In 39%N V -> ~ In 62%N more ->
  occurs_ci (u16 "content=") (tl ckey ++ q3 :: V ++ q4 :: more) = false ->
  occurs_ci (u16 "property=")
    (tl pn ++ 61%N :: q1 :: key' ++ q2 :: mid ++ ckey ++ q3 :: V
       ++ q4 :: more) = false ->
  occurs_ci (u16 "name=")
    (tl pn ++ 61%N :: q1 :: key' ++ q2 :: mid ++ ckey ++ q3 :: V
       ++ q4 :: more) = false ->
  Enrich.extractMeta
    (pre ++ opn ++ attrs ++ pn ++ 61%N :: q1 :: key' ++ q2 :: mid ++ ckey
       ++ q3 :: V ++ q4 :: more ++ 62%N :: rest) key
  = V.
Proof.
  intros _ Hpre Ho Hattrs Hgt Hpn Hk Hq Hmid Hmgt Hc HV H34 H39 Hmore
    Hocc HoccP HoccN.
  cbn [forallb] in Hq.
  apply andb_prop in Hq. destruct Hq as [Hq1 Hq].
  apply andb_prop in Hq. destruct Hq as [Hq2 Hq].
  apply andb_prop in Hq. destruct Hq as [Hq3 Hq].
  apply andb_prop in Hq. destruct Hq as [Hq4 _].
  pose proof (@match_here_meta key opn attrs pn key' mid ckey V more rest
                q1 q2 q3 q4 Ho Hattrs Hgt Hpn Hk Hq1 Hq2 Hmid Hmgt Hc
                Hq3 Hq4 HV H34 H39 Hmore Hocc HoccP HoccN) as Hm.
  unfold Enrich.extractMeta.
  unfold Enrich.re_meta in *.
  change (u16 "<meta") with (60%N :: u16 "meta") in *.
  destruct Ho as [Ho Holen].
  destruct opn as [|o opn]; [discriminate|].
  rewrite re_search_skip; [|exact Hpre|discriminate].
  cbn [app re_search]. cbn [app] in Hm. rewrite Hm. reflexivity.
Qed.

(** The image of a page in the Open Graph form; and a date under [name],
    in upper case, in a self-closing tag after some text. *)
Lemma extractMeta_finds_witness :
  Enrich.extractMeta
    (u16 "<meta property='og:image' content='https://n.example/i.png'>")
    (u16 "og:image")
  = u16 "https://n.example/i.png"
  /\ Enrich.extractMeta
       (u16 "Page <META NAME='Article:Published_Time' CONTENT='2024-01-01T00:00:00Z' /> text")
       (u16 "article:published_time")
     = u16 "2024-01-01T00:00:00Z".
Proof.
  split.
  - apply (@extractMeta_finds
             (u16 "og:image") [] (u16 "<meta") (u16 " ") (u16 "property")
             (u16 "og:image") (u16 " ") (u16 "content=")
             (u16 "https://n.example/i.png") [] [] 39%N 39%N 39%N 39%N);
      try (unfold meta_keys; cbn [In]; now auto 10);
      try reflexivity; try discriminate;
      try (split; reflexivity); try (left; split; reflexivity);
      cbn; intuition discriminate.
  - apply (@extractMeta_finds
             (u16 "article:published_time") (u16 "Page ") (u16 "<META")
             (u16 " ") (u16 "NAME") (u16 "Article:Published_Time") (u16 " ")
             (u16 "CONTENT=") (u16 "2024-01-01T00:00:00Z") (u16 " /")
             (u16 " text") 39%N 39%N 39%N 39%N);
      try (unfold meta_keys; cbn [In]; now auto 10);
      try reflexivity; try discriminate;
      try (split; reflexivity); try (right; split; reflexivity);
      cbn; intuition discriminate.
Defined.

(** ** The junk filter and the two fetch helpers *)

Lemma lower_cu_fixed (c : cu) :
  (c < 65 \/ 90 < c)%N -> c <> 304%N -> c <> 8490%N -> lower_cu c = [c].
Proof.
  intros Hr H1 H2. unfold lower_cu.
  destruct (N.leb_spec 65 c), (N.leb_spec c 90); cbn [andb]; try lia;
    destruct (N.eqb_spec c 304); try contradiction;
    destruct (N.eqb_spec c 8490); try contradiction; reflexivity.
Qed.

Lemma lower_cu_idem (c : cu) : flat_map lower_cu (lower_cu c) = lower_cu c.
Proof.
  unfold lower_cu at 2 3.
  destruct (N.leb_spec 65 c), (N.leb_spec c 90); cbn [andb].
  - cbn [flat_map]. rewrite lower_cu_fixed by lia. reflexivity.
  - destruct (N.eqb_spec c 304) as [->|H1]; [reflexivity|].
    destruct (N.eqb_spec c 8490) as [->|H2]; [reflexivity|].
    cbn [flat_map]. rewrite lower_cu_fixed by (lia || assumption).
    reflexivity.
  - destruct (N.eqb_spec c 304) as [->|H1]; [reflexivity|].
    destruct (N.eqb_spec c 8490) as [->|H2]; [reflexivity|].
    cbn [flat_map]. rewrite lower_cu_fixed by (lia || assumption).
    reflexivity.
  - lia.
Qed.

Lemma toLowerCase_app s t :
  toLowerCase (s ++ t) = toLowerCase s ++ toLowerCase t.
Proof. apply flat_map_app. Qed.

Lemma toLowerCase_idem s : toLowerCase (toLowerCase s) = toLowerCase s.
Proof.
  induction s as [|c s IH]; [reflexivity|].
  change (toLowerCase (c :: s)) with (lower_cu c ++ toLowerCase s).
  rewrite toLowerCase_app, IH. f_equal. apply lower_cu_idem.
Qed.

Lemma startsWith_app p s b :
  startsWith p s = true -> startsWith p (s ++ b) = true.
Proof.
  revert s; induction p as [|x p IH]; intros s H; [reflexivity|].
  destruct s as [|y s]; [discriminate|]. cbn [app startsWith] in *.
  apply andb_prop in H. destruct H as [H1 H2]. now rewrite H1, IH.
Qed.

Lemma includes_app_r p s b :
  includes p s = true -> includes p (s ++ b) = true.
Proof.
  induction s as [|y s IH]; intros H.
  - cbn [includes] in H. rewrite orb_false_r in H.
    destruct p; [|discriminate]. now destruct b.
  - cbn [includes app] in *. apply orb_prop in H. destruct H as [H|H].
    + change (y :: s ++ b) with ((y :: s) ++ b).
      now rewrite (startsWith_app _ _ b H).
    + rewrite (IH H). apply orb_true_r.
Qed.

Lemma includes_app_l p a s :
  includes p s = true -> includes p (a ++ s) = true.
Proof.
  intros H. induction a as [|y a IH]; [exact H|].
  cbn [app includes]. rewrite IH. apply orb_true_r.
Qed.

(** X14. The junk test looks at the lower-cased URL only and finds the
    emoji path anywhere in it: lower-casing a URL does not change the
    verdict, the path itself is junk in upper case too, and a junk URL
    stays junk whatever is written before and after it. The empty URL is
    no junk. *)
Theorem isJunkImage_spec (u : jsstring) :
  Enrich.isJunkImage (toLowerCase u) = Enrich.isJunkImage u
  /\ (forall a b, Enrich.isJunkImage u = true ->
        Enrich.isJunkImage (a ++ u ++ b) = true)
  /\ (forall a b,
        Enrich.isJunkImage (a ++ u16 "S.W.ORG/Images/Core/Emoji" ++ b) = true)
  /\ Enrich.isJunkImage [] = false.
Proof.
  unfold Enrich.isJunkImage. split; [|split; [|split]].
  - now rewrite toLowerCase_idem.
  - intros a b H. rewrite !toLowerCase_app.
    now apply includes_app_l, includes_app_r.
  - intros a b. rewrite !toLowerCase_app.
    apply includes_app_l, includes_app_r. reflexivity.
  - reflexivity.
Qed.

Lemma fetchXml_requests w url : fst (fetchXml w url) = [url].
Proof.
  unfold fetchXml, net_bind, fetch. cbn [fst snd].
  destruct (http_get w (xml_request url)) as [e|res]; [reflexivity|].
  destruct (negb (ok res)); reflexivity.
Qed.

Lemma requests_differ url : xml_request url <> Enrich.text_request url.
Proof. intros E. apply (f_equal req_abort_after) in E. discriminate. Qed.

(** X15. The two fetch helpers each issue one request to the URL, and the
    two requests are not the same: they differ in the [Accept] header, and
    only that of [fetchText] carries a signal, aborted after
    [FETCH_TIMEOUT]. When the world answers both alike, the helpers settle
    alike: both are fulfilled with the body exactly when the status is 200
    to 299, both are rejected with the error of a rejected [fetch], and for
    another status the message of [fetchXml] is the message of [fetchText]
    followed by the URL and, if the body can be read and is not empty, by
    its first 160 code units. *)
Theorem fetch_helpers_agree (w : World) (url : jsstring) :
  http_get w (xml_request url) = http_get w (Enrich.text_request url) ->
  fst (fetchXml w url) = [url]
  /\ fst (Enrich.fetchText w url) = [url]
  /\ xml_request url <> Enrich.text_request url
  /\ req_abort_after (Enrich.text_request url) = Some 9000
  /\ (forall t, snd (fetchXml w url) = Ok t
                <-> snd (Enrich.fetchText w url) = Ok t)
  /\ (forall e, http_get w (xml_request url) = Rejects e ->
        snd (fetchXml w url) = Throw e
        /\ snd (Enrich.fetchText w url) = Throw e)
  /\ (forall res, http_get w (xml_request url) = Responds res ->
        let m := u16 "Fetch failed " ++ show_Z (status res) ++ u16 " "
                 ++ statusText res in
        if ok res
        then snd (fetchXml w url) = body res
             /\ snd (Enrich.fetchText w url) = body res
        else snd (Enrich.fetchText w url) = Throw (Error m)
             /\ snd (fetchXml w url) =
                  Throw (Error (m ++ u16 " for " ++ url
                                ++ (if nonempty (body_or_empty res)
                                    then u16 ": "
                                         ++ slice0 160 (body_or_empty res)
                                    else [])))).
Proof.
  intros Hsame.
  split; [apply fetchXml_requests|].
  split; [apply fetchText_requests|].
  split; [apply requests_differ|].
  split; [reflexivity|].
  unfold fetchXml, Enrich.fetchText, net_bind, fetch. cbn [fst snd].
  rewrite <- Hsame.
  destruct (http_get w (xml_request url)) as [e|res] eqn:Hget.
  - cbn [snd net_ret]. split; [|split].
    + intros t. split; discriminate.
    + intros e' E. injection E as <-. split; reflexivity.
    + intros res E. discriminate.
  - destruct (ok res) eqn:Hok; cbn [negb snd net_ret].
    + split; [|split].
      * intros t. tauto.
      * intros e E. discriminate.
      * intros res' E. injection E as <-. cbv zeta. rewrite Hok.
        split; reflexivity.
    + split; [|split].
      * intros t. split; discriminate.
      * intros e E. discriminate.
      * intros res' E. injection E as <-. cbv zeta. rewrite Hok.
        split; [reflexivity|].
        unfold body_or_empty. now rewrite <- !app_assoc.
Qed.

(** The world of the examples answers by the URL alone: a page that is
    there, and a feed that answers 500. *)
Lemma fetch_helpers_witness :
  (snd (fetchXml Example.world (u16 "https://n.example/b"))
   = Ok (u16 "<html><head></head></html>")
   <-> snd (Enrich.fetchText Example.world (u16 "https://n.example/b"))
       = Ok (u16 "<html><head></head></html>"))
  /\ snd (Enrich.fetchText Example.world (u16 "https://down.example/feed"))
     = Throw (Error (u16 "Fetch failed 500 Internal Server Error")).
Proof.
  split.
  - apply (proj1 (proj2 (proj2 (proj2 (proj2
             (@fetch_helpers_agree Example.world
                (u16 "https://n.example/b") eq_refl)))))).
  - pose proof (proj2 (proj2 (proj2 (proj2 (proj2 (proj2
             (@fetch_helpers_agree Example.world
                (u16 "https://down.example/feed") eq_refl))))))
             _ eq_refl) as H.
    cbv zeta in H. exact (proj1 H).
Defined.

(** X16. In both scripts every item of the payload has at most 12
    categories, none empty and each trimmed, an excerpt of at most 240 code
    units that is trimmed and single-spaced, and a trimmed title. *)
Theorem payload_fields (h : Host) (w : World) (feeds : list FeedSource)
  (c : Enrich.Config) :
  let good x :=
    (length (categories x) <= 12)%nat
    /\ Forall (fun k => nonempty k = true /\ trimmed k) (categories x)
    /\ (length (excerpt x) <= 240)%nat
    /\ trimmed (excerpt x) /\ single_spaced (excerpt x) = true
    /\ trimmed (title x) in
  (forall x, In x (items (BuildFeeds.main h w feeds)) -> good x)
  /\ exists p, Enrich.main_with c h w feeds = Some (Ok p)
               /\ forall x, In x (items p) -> good x.
Proof.
  cbv zeta.
  assert (Hraw : forall it,
    (length (pickCategories it) <= 12)%nat
    /\ Forall (fun k => nonempty k = true /\ trimmed k) (pickCategories it)
    /\ (length (pickExcerpt it) <= 240)%nat
    /\ trimmed (pickExcerpt it)
    /\ single_spaced (pickExcerpt it) = true
    /\ trimmed (trim (str_or_empty (raw_title it)))).
  { intros it.
    split; [apply pickCategories_length|].
    split; [apply pickCategories_Forall|].
    split; [apply pickExcerpt_length|].
    split; [apply pickExcerpt_no_edges|].
    split; [apply pickExcerpt_single_spaced | apply trim_trimmed]. }
  split.
  - apply BuildFeeds_items_Forall. intros f it y Hy.
    destruct (BuildFeeds_make_item_inv _ _ _ Hy)
      as (_ & _ & _ & _ & -> & _ & -> & -> & _).
    apply Hraw.
  - apply Enrich_items_Forall.
    + intros f it y Hy.
      destruct (Enrich_make_item_inv _ _ _ Hy)
        as (_ & _ & _ & _ & -> & _ & -> & -> & _).
      apply Hraw.
    + intros y Hy.
      destruct (enrichOne_identity h w y) as (_ & <- & _ & _ & _ & <- & <-).
      exact Hy.
Qed.

(** X17. In both scripts the timestamp of every item of the payload is the
    timestamp of the date string published with it: enrichment sets the two
    together. *)
Theorem payload_timestamps (h : Host) (w : World) (feeds : list FeedSource)
  (c : Enrich.Config) :
  let good x :=
    publishedTs x = toTimestamp (Date_heuristic h) (Some (published x)) in
  (forall x, In x (items (BuildFeeds.main h w feeds)) -> good x)
  /\ exists p, Enrich.main_with c h w feeds = Some (Ok p)
               /\ forall x, In x (items p) -> good x.
Proof.
  cbv zeta. split.
  - apply BuildFeeds_items_Forall. intros f it y Hy.
    apply (BuildFeeds_make_item_inv _ _ _ Hy).
  - apply Enrich_items_Forall.
    + intros f it y Hy. apply (Enrich_make_item_inv _ _ _ Hy).
    + intros y Hy.
      destruct (enrichOne_date_cases h w y) as [[-> ->]|[_ H]]; auto.
Qed.

(** X18. No item of the payload of the enriching script has a junk image:
    a junk image from the feed is blanked at ingestion, and enrichment
    refuses one. *)
Theorem payload_no_junk_image (h : Host) (w : World)
  (feeds : list FeedSource) (c : Enrich.Config) :
  exists p, Enrich.main_with c h w feeds = Some (Ok p)
            /\ forall x, In x (items p) ->
                 Enrich.isJunkImage (image x) = false.
Proof.
  apply Enrich_items_Forall.
  - intros f it y Hy. apply (Enrich_make_item_inv _ _ _ Hy).
  - intros y Hy.
    destruct (enrichOne_image_cases h w y) as [->|[_ H]]; auto.
Qed.

(** X19. Every item of the feed [mondosonoro] in the payload of the
    enriching script has a category equal to [discos], letter case apart:
    the others are dropped at ingestion. *)
Theorem payload_mondosonoro_discos (h : Host) (w : World)
  (feeds : list FeedSource) (c : Enrich.Config) :
  exists p, Enrich.main_with c h w feeds = Some (Ok p)
            /\ forall x, In x (items p) ->
                 sourceId x = u16 "mondosonoro" ->
                 has_discos (categories x) = true.
Proof.
  apply (Enrich_items_Forall
           (fun x => sourceId x = u16 "mondosonoro" ->
                     has_discos (categories x) = true)).
  - intros f it y Hy.
    destruct (Enrich_make_item_inv _ _ _ Hy)
      as (_ & _ & -> & _ & _ & _ & _ & _ & _ & H). exact H.
  - intros y Hy.
    destruct (enrichOne_identity h w y) as (_ & _ & _ & <- & _ & <- & _).
    exact Hy.
Qed.

(** ** Ranking and truncation *)

Lemma descending_app l1 l2 x y :
  descending (l1 ++ l2) -> In x l1 -> In y l2 ->
  publishedTs y <= publishedTs x.
Proof.
  unfold descending. induction l1 as [|z l1 IH]; simpl; [tauto|].
  intros H Hx Hy. inversion H as [|? ? Hl Hz]; subst.
  destruct Hx as [->|Hx]; auto.
  rewrite Forall_forall in Hz. apply Hz. apply in_or_app. now right.
Qed.

Lemma descending_cut n l x y :
  descending l -> In x (firstn n l) -> In y (skipn n l) ->
  publishedTs y <= publishedTs x.
Proof.
  intros H. rewrite <- (firstn_skipn n l) in H. now apply descending_app.
Qed.

Lemma cut_by_link n (l : list NewsItem) y :
  In y l -> ~ In (link y) (map link (firstn n l)) -> In y (skipn n l).
Proof.
  intros Hy Hn. rewrite <- (firstn_skipn n l) in Hy.
  apply in_app_or in Hy. destruct Hy as [Hy|Hy]; auto.
  exfalso. apply Hn. now apply in_map.
Qed.

(** X20. Truncation keeps the newest. In both scripts an item that is left
    out of the payload is no newer than any item of the payload; and in the
    enriching script the items passed to enrichment are the newest of the
    first ranking: none of the others is newer than any of them. *)
Theorem newest_kept (h : Host) (w : World) (feeds : list FeedSource)
  (c : Enrich.Config) :
  (let p := BuildFeeds.main h w feeds in
   forall x y,
     In x (items p) ->
     In y (dedupe (fst (ingest h w (BuildFeeds.make_item h) feeds))) ->
     ~ In (link y) (map link (items p)) ->
     publishedTs y <= publishedTs x)
  /\ (forall x y,
        In x (firstn (Enrich.ENRICH_LIMIT c) (Enrich.ranked h w feeds)) ->
        In y (skipn (Enrich.ENRICH_LIMIT c) (Enrich.ranked h w feeds)) ->
        publishedTs y <= publishedTs x)
  /\ exists p,
       Enrich.main_with c h w feeds = Some (Ok p)
       /\ forall x y,
            In x (items p) -> In y (enriched_ranking c h w feeds) ->
            ~ In (link y) (map link (items p)) ->
            publishedTs y <= publishedTs x.
Proof.
  split; [|split].
  - cbv zeta. unfold BuildFeeds.main. cbn [items]. intros x y Hx Hy Hn.
    eapply descending_cut; [apply Array_sort_descending | exact Hx |].
    apply cut_by_link; auto.
    eapply Permutation_in; [symmetry; apply Array_sort_perm | exact Hy].
  - intros x y. apply descending_cut. apply Array_sort_descending.
  - eexists. split; [apply main_with_value|]. cbn [items].
    intros x y Hx Hy Hn.
    eapply descending_cut; [apply Array_sort_descending | exact Hx |].
    apply cut_by_link; auto.
    eapply Permutation_in; [symmetry; apply Array_sort_perm | exact Hy].
Qed.

Lemma dedupe_distinct l : NoDup (map link l) -> dedupe l = l.
Proof.
  induction l as [|x l IH] using rev_ind; [reflexivity|].
  rewrite map_app. simpl. intros H. rewrite dedupe_snoc.
  destruct (existsb (same_link (link x)) l) eqn:E.
  - exfalso. apply existsb_same_link in E.
    apply NoDup_remove_2 in H. rewrite app_nil_r in H. auto.
  - rewrite IH; auto. now apply NoDup_app_remove_r in H.
Qed.

Lemma dedupe_length l : (length (dedupe l) <= length l)%nat.
Proof.
  induction l as [|x l IH] using rev_ind; [reflexivity|].
  rewrite dedupe_snoc, length_app. simpl.
  destruct (existsb _ l); [lia|]. rewrite length_app. simpl. lia.
Qed.

(** X21. Deduplication leaves a list of distinct links as it is, so it is
    idempotent; it never lengthens a list. In the enriching script the
    array sorted last still has distinct links: deduplicating again after
    enrichment, which the script does not do, would change nothing. *)
Theorem dedupe_stable (h : Host) (w : World) (feeds : list FeedSource)
  (c : Enrich.Config) :
  (forall l, NoDup (map link l) -> dedupe l = l)
  /\ (forall l, dedupe (dedupe l) = dedupe l)
  /\ (forall l, (length (dedupe l) <= length l)%nat)
  /\ NoDup (map link (enriched_ranking c h w feeds))
  /\ dedupe (enriched_ranking c h w feeds) = enriched_ranking c h w feeds.
Proof.
  split; [apply dedupe_distinct|].
  split; [intros l; apply dedupe_distinct, dedupe_NoDup|].
  split; [apply dedupe_length|].
  assert (H : NoDup (map link (enriched_ranking c h w feeds))).
  { rewrite enriched_ranking_links. apply ranked_NoDup. }
  split; [exact H | now apply dedupe_distinct].
Qed.

(** A list of distinct links with a repeat appended: the repeat goes. *)
Lemma dedupe_stable_witness :
  dedupe [Example.bare "https://n.example/a"; Example.bare "https://n.example/b"]
  = [Example.bare "https://n.example/a"; Example.bare "https://n.example/b"].
Proof.
  apply (dedupe_stable Example.host Example.world [] Enrich.config).
  repeat constructor; simpl; intuition discriminate.
Defined.




(** ** The pool, for every limit *)

(** X23. For every limit, array and function, under every schedule the
    calls in flight and the promises in [executing] never outnumber the
    limit, or one when the limit is [0]: a limit of [0] runs the calls one
    at a time, so that with a non-empty array one call is in flight although
    the limit allows none. A limit above the length of the array tracks
    nothing: [executing] stays empty and the loop never waits. *)
Theorem pool_bounded_for_every_limit (A B : Type) (limit : nat)
  (arr : list A) (fn : A -> result B) :
  (forall s, reachable limit arr fn s ->
     (in_flight s <= Nat.max limit 1)%nat
     /\ (length (executing s) <= Nat.max limit 1)%nat)
  /\ ((length arr < limit)%nat ->
      forall s, reachable limit arr fn s ->
        executing s = [] /\ forall i snap, pc s <> Awaiting i snap)
  /\ (limit = 0%nat -> arr <> [] ->
      exists s, reachable limit arr fn s /\ in_flight s = 1%nat).
Proof.
  split; [|split].
  - intros s Hr. apply reachable_Inv in Hr. split.
    + apply (Inv_in_flight Hr).
    + apply (inv_cap Hr).
  - intros Hlt s Hr. apply reachable_Inv in Hr.
    assert (Htr : tracked limit arr = false).
    { unfold tracked. now apply Nat.leb_gt. }
    split; [apply (inv_untracked Hr Htr)|].
    intros i snap E. pose proof (inv_pc Hr) as Hpc.
    unfold pc_ok in Hpc. rewrite E in Hpc.
    destruct Hpc as (_ & _ & Htr' & _). congruence.
  - intros -> Hne. destruct arr as [|a rest]; [congruence|].
    exists (run 0 (a :: rest) fn 2 (init A B)). split.
    + eapply steps_reachable; [constructor | apply run_steps].
    + reflexivity.
Qed.

(** With a limit of [0] and two items, one call is in flight after two
    steps. *)
Lemma pool_bounded_witness :
  exists s, reachable 0 [1; 2]%nat (fun a : nat => Ok a) s
            /\ in_flight s = 1%nat.
Proof.
  apply (pool_bounded_for_every_limit 0 [1; 2]%nat (fun a : nat => Ok a));
    [reflexivity | discriminate].
Defined.

Lemma steps_n_measure A B limit (arr : list A) (fn : A -> result B) n s s' :
  Inv limit arr fn s -> steps_n limit arr fn n s s' ->
  (measure arr s' + n <= measure arr s)%nat.
Proof.
  intros HI Hs. induction Hs as [s|n s s1 s2 Hstep Hrest IH]; [lia|].
  pose proof (step_measure HI Hstep).
  specialize (IH (step_Inv HI Hstep)). lia.
Qed.

(** X24. The pool cannot run for ever and cannot get stuck: whatever the
    limit, the array and the order in which the calls complete, a run from
    the start has at most [6 * arr.length + 2] steps, and from every state
    reached either the promise of [asyncPool] has settled or a step is
    possible. So, once every call of [fn] settles, [asyncPool] settles. *)
Theorem pool_runs_are_finite (A B : Type) (limit : nat) (arr : list A)
  (fn : A -> result B) :
  (forall n s, steps_n limit arr fn n (init A B) s ->
     (n <= 6 * length arr + 2)%nat)
  /\ (forall s, reachable limit arr fn s ->
        (exists r, pool_result s = Some r)
        \/ exists s', step limit arr fn s s').
Proof.
  split.
  - intros n s Hs.
    pose proof (steps_n_measure (Inv_init limit arr fn) Hs) as H.
    rewrite measure_init in H. lia.
  - intros s Hr. destruct (next limit arr fn s) as [s'|] eqn:E.
    + right. exists s'. now apply next_step.
    + left. apply (next_None_settled (reachable_Inv Hr) E).
Qed.

(** Three steps of a pool of two on [[1; 2]]: the two launches and the
    first start. *)
Lemma pool_runs_witness : (3 <= 6 * 2 + 2)%nat.
Proof.
  apply (proj1 (pool_runs_are_finite 2 [1; 2]%nat (fun a : nat => Ok a)) 3%nat
           (run 2 [1; 2]%nat (fun a : nat => Ok a) 3 (init nat nat))).
  eapply steps_n_S; [apply step_launch with (i := 0%nat) (item := 1%nat);
                     reflexivity|].
  eapply steps_n_S; [apply step_launch with (i := 1%nat) (item := 2%nat);
                     reflexivity|].
  eapply steps_n_S; [apply step_start with (k := 0%nat) (a := 1%nat);
                     reflexivity|].
  apply steps_n_O.
Defined.
